(** * S4 medialib backend: value index, source preferences, fetch
    specifications and the write-ahead log.

    A shallow embedding of [src/lib/fetchspec.c], [src/sourcepref.c],
    [src/index.c] and [src/lib/log.c], with the properties the
    specification states about them.

    Conventions of the embedding.
    - A C [int], [int32_t] or [guint] is a [Z]; where the C code mixes
      signed and unsigned operands the conversion is written out.
    - A pointer whose identity matters (a relation ref, the base address
      of a heap block) is a [Z] address; [NULL] is [None] where the
      pointee matters and address [0] otherwise.
    - A heap array is the list of the cells of its block: the cells past
      the logical size are part of the state, as they are in memory.
    - An access outside an allocated block has no defined behaviour in C:
      the functions that can make one return [option], with [None] for
      such an access; the one read that [_index_insert] can make right
      after a block finds there whatever the heap holds, and only a
      write there is [None]. A loop is a function with fuel, which also
      returns [None] when the fuel runs out; the fuel the callers give
      is enough, and the lemmas on the loops show it. *)

From stdpp Require Import gmap strings list sorting.
From Stdlib Require Import ZArith Lia.

Local Open Scope Z_scope.

(** ** C integer types *)

Definition INT_MAX : Z := 2147483647.
Definition INT_MIN : Z := -2147483648.

(** The values of type [int]. *)
Definition is_int (z : Z) : Prop := INT_MIN ≤ z ≤ INT_MAX.

(** Conversion of an [int] to [guint] (unsigned int) in the usual
    arithmetic conversions. *)
Definition to_guint (z : Z) : Z := z mod 2 ^ 32.

(** ** Fetch specifications ([src/lib/fetchspec.c]) *)

Module Fetchspec.

(** [fetch_data_t]. The key is the content of the (owned) C string, or
    [None] for [NULL]; the sourcepref is the address of the
    [s4_sourcepref_t], or [None] for [NULL]. *)
Record fetch_data_t := mk_fetch_data {
  key : option string;
  pref : option Z;
  flags : Z;
  const_key : Z
}.

(** [struct s4_fetchspec_St]: the [GArray] is the list of its
    elements, [array->len] its length. *)
Record s4_fetchspec_t := mk_fetchspec {
  ref_count : Z;
  array : list fetch_data_t
}.

Definition array_len (spec : s4_fetchspec_t) : Z :=
  Z.of_nat (length (array spec)).

Definition s4_fetchspec_create : s4_fetchspec_t :=
  {| ref_count := 1; array := [] |}.

(** Modelled from the spec: [s4_sourcepref_ref], which is not part of
    [sourcepref.c] as given; it takes a reference on the sourcepref
    and hands the same pointer back. *)
Definition s4_sourcepref_ref (sp : Z) : Z := sp.

(** [strdup] copies the bytes of the string. *)
Definition strdup (s : string) : string := s.

Definition s4_fetchspec_add (spec : s4_fetchspec_t) (k : option string)
    (sourcepref : option Z) (fl : Z) : s4_fetchspec_t :=
  let data :=
    {| flags := fl;
       const_key := 0;
       key := match k with None => None | Some s => Some (strdup s) end;
       pref := match sourcepref with
               | Some sp => Some (s4_sourcepref_ref sp)
               | None => None
               end |} in
  {| ref_count := ref_count spec; array := array spec ++ [data] |}.

Definition s4_fetchspec_size (spec : s4_fetchspec_t) : Z := array_len spec.

(** The guard shared by the three getters:
    [index < 0 || index >= spec->array->len], the second comparison
    being made on unsigned operands. *)
Definition out_of_bounds (spec : s4_fetchspec_t) (index : Z) : bool :=
  (index <? 0) || (to_guint index >=? array_len spec).

(** [g_array_index (spec->array, fetch_data_t, index)] *)
Definition g_array_index (spec : s4_fetchspec_t) (index : Z)
    : option fetch_data_t :=
  array spec !! Z.to_nat index.

Definition s4_fetchspec_get_key (spec : s4_fetchspec_t) (index : Z)
    : option string :=
  if out_of_bounds spec index then None
  else match g_array_index spec index with
       | Some d => key d
       | None => None
       end.

Definition s4_fetchspec_get_sourcepref (spec : s4_fetchspec_t) (index : Z)
    : option Z :=
  if out_of_bounds spec index then None
  else match g_array_index spec index with
       | Some d => pref d
       | None => None
       end.

Definition s4_fetchspec_get_flags (spec : s4_fetchspec_t) (index : Z) : Z :=
  if out_of_bounds spec index then 0
  else match g_array_index spec index with
       | Some d => flags d
       | None => 0
       end.

(** One call of [s4_fetchspec_add], by its arguments. *)
Definition add_call : Type := option string * option Z * Z.

Definition do_add (spec : s4_fetchspec_t) (c : add_call) : s4_fetchspec_t :=
  s4_fetchspec_add spec c.1.1 c.1.2 c.2.

(** The fetchspec obtained from [s4_fetchspec_create] by a sequence of
    [s4_fetchspec_add] calls. *)
Definition built (calls : list add_call) : s4_fetchspec_t :=
  foldl do_add s4_fetchspec_create calls.

(** The cell [s4_fetchspec_add] appends for a call. *)
Definition cell_of (c : add_call) : fetch_data_t :=
  {| key := c.1.1; pref := c.1.2; flags := c.2; const_key := 0 |}.

Lemma array_do_add spec c :
  array (do_add spec c) = array spec ++ [cell_of c].
Proof.
  destruct c as [[[k|] [sp|]] fl]; reflexivity.
Qed.

(** A sequence of calls appends the cells of the calls, in call order. *)
Lemma array_foldl calls : ∀ spec,
  array (foldl do_add spec calls) = array spec ++ map cell_of calls.
Proof.
  induction calls as [|c calls IH]; intros spec; simpl.
  - by rewrite app_nil_r.
  - rewrite IH, array_do_add, <- app_assoc. reflexivity.
Qed.

Lemma array_built calls : array (built calls) = map cell_of calls.
Proof. unfold built. by rewrite array_foldl. Qed.

Lemma out_of_bounds_spec spec index :
  is_int index →
  out_of_bounds spec index = true ↔ index < 0 ∨ array_len spec ≤ index.
Proof.
  intros [Hlo Hhi]. unfold out_of_bounds, to_guint, INT_MIN, INT_MAX in *.
  rewrite orb_true_iff, Z.ltb_lt, Z.geb_le.
  destruct (Z_lt_le_dec index 0) as [Hneg|Hpos]; [tauto|].
  rewrite Z.mod_small by lia. tauto.
Qed.

(** C10. For a fetchspec built by [s4_fetchspec_add] calls and an [int]
    index: when the index is negative or not less than the number of
    projections, [s4_fetchspec_get_key] and
    [s4_fetchspec_get_sourcepref] return [NULL] and
    [s4_fetchspec_get_flags] returns 0; when the index is in range the
    three getters return the key, the sourcepref and the flags that
    were passed to the call of [s4_fetchspec_add] at that position. *)
Theorem fetchspec_getters (calls : list add_call) (index : Z) :
  is_int index →
  let spec := built calls in
  s4_fetchspec_size spec = Z.of_nat (length calls)
  ∧ (index < 0 ∨ Z.of_nat (length calls) ≤ index →
       s4_fetchspec_get_key spec index = None
       ∧ s4_fetchspec_get_sourcepref spec index = None
       ∧ s4_fetchspec_get_flags spec index = 0)
  ∧ (0 ≤ index < Z.of_nat (length calls) →
       ∃ k sp fl, calls !! Z.to_nat index = Some (k, sp, fl)
         ∧ s4_fetchspec_get_key spec index = k
         ∧ s4_fetchspec_get_sourcepref spec index = sp
         ∧ s4_fetchspec_get_flags spec index = fl).
Proof.
  intros Hint spec.
  assert (Hlen : array_len spec = Z.of_nat (length calls)).
  { unfold array_len, spec. by rewrite array_built, length_map. }
  split; [exact Hlen|]. split.
  - intros Hout.
    assert (Hb : out_of_bounds spec index = true).
    { apply out_of_bounds_spec; [done|]. rewrite Hlen. exact Hout. }
    unfold s4_fetchspec_get_key, s4_fetchspec_get_sourcepref,
      s4_fetchspec_get_flags. by rewrite Hb.
  - intros Hin.
    assert (Hb : out_of_bounds spec index = false).
    { apply not_true_is_false. rewrite out_of_bounds_spec by done. lia. }
    destruct (lookup_lt_is_Some_2 calls (Z.to_nat index)) as [[[k sp] fl] Hc];
      [lia|].
    exists k, sp, fl. split; [exact Hc|].
    unfold s4_fetchspec_get_key, s4_fetchspec_get_sourcepref,
      s4_fetchspec_get_flags, g_array_index. rewrite Hb.
    unfold spec. rewrite array_built, list_lookup_fmap, Hc. simpl. done.
Qed.

Lemma fetchspec_getters_witness :
  is_int 1
  ∧ s4_fetchspec_get_key
      (built [(Some "title"%string, Some 4096, 1);
              (None, None, 7)]) 1 = None
  ∧ s4_fetchspec_get_flags
      (built [(Some "title"%string, Some 4096, 1);
              (None, None, 7)]) 1 = 7.
Proof.
  assert (Hi : is_int 1) by (unfold is_int, INT_MIN, INT_MAX; lia).
  split; [exact Hi|].
  pose proof (fetchspec_getters
    [(Some "title"%string, Some 4096, 1); (None, None, 7)] 1 Hi) as H.
  simpl in H. destruct H as (_ & _ & Hin).
  destruct Hin as (k & sp & fl & Hc & Hk & _ & Hf); [lia|].
  simpl in Hc. inversion Hc; subst. split; assumption.
Defined.

(** *** Release, key interning and reference counting *)

(** What a fetchspec hands back: a reference on a sourcepref, through
    [s4_sourcepref_unref], or the memory of a key, through [free]. *)
Inductive release :=
| UnrefPref (sp : Z)
| FreeKey (k : string).

(** [free ((void* )data->key)]; [free (NULL)] does nothing. *)
Definition free_key (k : option string) : list release :=
  match k with
  | Some s => [FreeKey s]
  | None => []
  end.

(** The body of the loop of [s4_fetchspec_free] for one cell. *)
Definition free_cell (data : fetch_data_t) : list release :=
  (match pref data with
   | Some sp => [UnrefPref sp]
   | None => []
   end)
  ++ (match key data with
      | Some k => if const_key data =? 0 then [FreeKey k] else []
      | None => []
      end).

(** [s4_fetchspec_free]: what the loop over the cells releases, in
    order; the array and the fetchspec are gone afterwards. *)
Definition s4_fetchspec_free (spec : s4_fetchspec_t) : list release :=
  concat (map free_cell (array spec)).

(** [s4_fetchspec_ref]: the fetchspec returned, where the inner [None]
    is the [NULL] fetchspec; the outer [None] is [ref_count++] on a
    count at [INT_MAX], the overflow of an [int]. *)
Definition s4_fetchspec_ref (spec : option s4_fetchspec_t)
    : option (option s4_fetchspec_t) :=
  match spec with
  | Some s =>
      if ref_count s <? INT_MAX
      then Some (Some {| ref_count := ref_count s + 1; array := array s |})
      else None
  | None => Some None
  end.

(** [s4_fetchspec_unref]: whether [S4_ERROR] was called, the fetchspec
    that is left ([None] when it has been freed) and what was released;
    [None] for [ref_count--] on a count at [INT_MIN], the overflow of
    an [int]. *)
Definition s4_fetchspec_unref (spec : s4_fetchspec_t)
    : option (bool * option s4_fetchspec_t * list release) :=
  let error := ref_count spec <=? 0 in
  if INT_MIN <? ref_count spec then
    let spec := {| ref_count := ref_count spec - 1; array := array spec |} in
    Some (if ref_count spec =? 0 then (error, None, s4_fetchspec_free spec)
          else (error, Some spec, []))
  else None.

Section WithStringTable.

(** [_string_lookup (s4, key)] of the string table, which is used
    through its interface: the constant string it hands back for a
    key. *)
Variable _string_lookup : option string → option string.

(** The body of the loop of [s4_fetchspec_update_key] for one cell: the
    cell after it and what it frees. *)
Definition update_cell (data : fetch_data_t)
    : fetch_data_t * list release :=
  let new_key := _string_lookup (key data) in
  let freed := if const_key data =? 0 then free_key (key data) else [] in
  ({| key := new_key; pref := pref data; flags := flags data;
      const_key := 1 |}, freed).

Fixpoint update_cells (cells : list fetch_data_t)
    : list fetch_data_t * list release :=
  match cells with
  | [] => ([], [])
  | data :: cells' =>
      let '(data', freed) := update_cell data in
      let '(rest, freed') := update_cells cells' in
      (data' :: rest, freed ++ freed')
  end.

(** [s4_fetchspec_update_key]: the fetchspec after the call and what the
    call frees. *)
Definition s4_fetchspec_update_key (spec : s4_fetchspec_t)
    : s4_fetchspec_t * list release :=
  let '(cells, freed) := update_cells (array spec) in
  ({| ref_count := ref_count spec; array := cells |}, freed).

(** What a call of [s4_fetchspec_add] acquires: a reference on the
    sourcepref, when there is one, and a copy of the key, when there is
    one. *)
Definition taken_pref (c : add_call) : list release :=
  match c.1.2 with
  | Some sp => [UnrefPref sp]
  | None => []
  end.

Definition taken_key (c : add_call) : list release := free_key c.1.1.

Lemma update_cells_spec cells :
  (update_cells cells).1
  = map (λ d, {| key := _string_lookup (key d); pref := pref d;
                 flags := flags d; const_key := 1 |}) cells
  ∧ (update_cells cells).2
    = concat (map (λ d, if const_key d =? 0 then free_key (key d) else [])
                cells).
Proof.
  induction cells as [|d cells [IH1 IH2]]; simpl; [done|].
  destruct (update_cells cells) as [rest freed']. simpl in *.
  by rewrite IH1, IH2.
Qed.

Lemma concat_map_nil {A B} (f : A → list B) l :
  (∀ x, x ∈ l → f x = []) → concat (map f l) = [].
Proof.
  induction l as [|x l IH]; intros H; simpl; [done|].
  rewrite (H x) by apply list_elem_of_here. simpl.
  apply IH. intros y Hy. apply H. by apply list_elem_of_further.
Qed.

Lemma ref_count_foldl calls : ∀ spec,
  ref_count (foldl do_add spec calls) = ref_count spec.
Proof.
  induction calls as [|c calls IH]; intros spec; simpl; [done|].
  by rewrite IH.
Qed.

Lemma free_built rc calls :
  s4_fetchspec_free {| ref_count := rc; array := array (built calls) |}
  = concat (map (λ c, taken_pref c ++ taken_key c) calls).
Proof.
  unfold s4_fetchspec_free. simpl.
  by rewrite array_built, map_map.
Qed.

(** X1. A fetchspec built by [s4_fetchspec_add] calls holds one
    reference, so that [s4_fetchspec_unref] frees it without an error;
    freeing it gives back, call by call and in call order, exactly what
    the calls took: the reference on the sourcepref of every call that
    passed one and the copy of the key of every call that passed
    one. *)
Theorem fetchspec_free_releases_what_add_took (calls : list add_call) :
  ref_count (built calls) = 1
  ∧ s4_fetchspec_free (built calls)
    = concat (map (λ c, taken_pref c ++ taken_key c) calls)
  ∧ s4_fetchspec_unref (built calls)
    = Some (false, None,
            concat (map (λ c, taken_pref c ++ taken_key c) calls)).
Proof.
  assert (Hrc : ref_count (built calls) = 1).
  { unfold built. by rewrite ref_count_foldl. }
  split; [done|]. split.
  - rewrite <- (free_built (ref_count (built calls))).
    by destruct (built calls).
  - unfold s4_fetchspec_unref. rewrite Hrc. simpl.
    by rewrite free_built.
Qed.

(** X2. On a fetchspec built by [s4_fetchspec_add] calls,
    [s4_fetchspec_update_key] keeps the number of cells, the sourcepref
    and the flags of every cell, and replaces every key by the string
    the string table hands back for it; it frees the copy of the key of
    every call that passed one, in call order. Freeing the fetchspec
    afterwards frees no key: it gives back the references on the
    sourceprefs only. A second [s4_fetchspec_update_key] frees
    nothing. *)
Theorem fetchspec_update_key_frees_keys_once (calls : list add_call) :
  let r := s4_fetchspec_update_key (built calls) in
  s4_fetchspec_size r.1 = Z.of_nat (length calls)
  ∧ array r.1
    = map (λ c : add_call,
             {| key := _string_lookup c.1.1; pref := c.1.2;
                flags := c.2; const_key := 1 |}) calls
  ∧ r.2 = concat (map taken_key calls)
  ∧ s4_fetchspec_free r.1 = concat (map taken_pref calls)
  ∧ (s4_fetchspec_update_key r.1).2 = [].
Proof.
  intros r.
  assert (Harr : array r.1
    = map (λ c : add_call,
             {| key := _string_lookup c.1.1; pref := c.1.2;
                flags := c.2; const_key := 1 |}) calls).
  { unfold r, s4_fetchspec_update_key.
    pose proof (update_cells_spec (array (built calls))) as [H1 _].
    destruct (update_cells (array (built calls))) as [cells freed].
    simpl in *. rewrite H1, array_built, map_map. done. }
  assert (Hlen : array_len r.1 = Z.of_nat (length calls)).
  { unfold array_len. by rewrite Harr, length_map. }
  split; [exact Hlen|]. split; [exact Harr|]. split; [|split].
  - unfold r, s4_fetchspec_update_key.
    pose proof (update_cells_spec (array (built calls))) as [_ H2].
    destruct (update_cells (array (built calls))) as [cells freed].
    simpl in *. rewrite H2, array_built, map_map. done.
  - unfold s4_fetchspec_free. rewrite Harr, map_map. f_equal.
    apply map_ext. intros [[k sp] fl]. unfold free_cell, taken_pref. simpl.
    destruct sp, (_string_lookup k); reflexivity.
  - unfold s4_fetchspec_update_key.
    pose proof (update_cells_spec (array r.1)) as [_ H2].
    destruct (update_cells (array r.1)) as [cells freed].
    simpl in *. rewrite H2, Harr, map_map. by apply concat_map_nil.
Qed.

End WithStringTable.

(** [n] calls of [s4_fetchspec_ref], each on the fetchspec the one
    before returned. *)
Fixpoint ref_times (n : nat) (spec : option s4_fetchspec_t)
    : option (option s4_fetchspec_t) :=
  match n with
  | O => Some spec
  | S n' =>
      match s4_fetchspec_ref spec with
      | Some spec' => ref_times n' spec'
      | None => None
      end
  end.

(** [n] calls of [s4_fetchspec_unref], as long as the fetchspec is
    there: whether [S4_ERROR] was called, what is left and what was
    released. *)
Fixpoint unref_times (n : nat) (spec : s4_fetchspec_t)
    : option (bool * option s4_fetchspec_t * list release) :=
  match n with
  | O => Some (false, Some spec, [])
  | S n' =>
      match s4_fetchspec_unref spec with
      | None => None
      | Some (error, None, released) => Some (error, None, released)
      | Some (error, Some spec', released) =>
          match unref_times n' spec' with
          | None => None
          | Some (error', spec'', released') =>
              Some (error || error', spec'', released ++ released')
          end
      end
  end.

Lemma ref_times_Some n : ∀ spec,
  ref_count spec + Z.of_nat n ≤ INT_MAX →
  ref_times n (Some spec)
  = Some (Some {| ref_count := ref_count spec + Z.of_nat n;
                  array := array spec |}).
Proof.
  induction n as [|n IH]; intros spec Hmax.
  - cbn [ref_times]. rewrite Z.add_0_r. by destruct spec.
  - cbn [ref_times s4_fetchspec_ref].
    destruct (Z.ltb_spec (ref_count spec) INT_MAX); [|lia].
    rewrite IH by (cbn [ref_count]; lia). cbn [ref_count array].
    do 3 f_equal. lia.
Qed.

Lemma unref_times_above n : ∀ spec,
  Z.of_nat n < ref_count spec →
  unref_times n spec
  = Some (false, Some {| ref_count := ref_count spec - Z.of_nat n;
                         array := array spec |}, []).
Proof.
  induction n as [|n IH]; intros spec Hrc.
  - cbn [unref_times]. rewrite Z.sub_0_r. by destruct spec.
  - cbn [unref_times]. unfold s4_fetchspec_unref.
    destruct (Z.ltb_spec INT_MIN (ref_count spec));
      [|unfold INT_MIN in *; lia].
    destruct (Z.leb_spec (ref_count spec) 0); [lia|].
    cbn [ref_count array].
    destruct (Z.eqb_spec (ref_count spec - 1) 0); [lia|].
    rewrite IH by (cbn [ref_count]; lia). cbn [ref_count array orb app].
    do 5 f_equal. lia.
Qed.

Lemma unref_times_snoc m : ∀ spec spec',
  unref_times m spec = Some (false, Some spec', []) →
  unref_times (m + 1) spec = s4_fetchspec_unref spec'.
Proof.
  induction m as [|m IH]; intros spec spec' H.
  - injection H as ->. cbn [unref_times Nat.add].
    destruct (s4_fetchspec_unref spec') as [[[e [l|]] r]|]; [|done..].
    by rewrite orb_false_r, app_nil_r.
  - cbn [unref_times Nat.add] in *.
    destruct (s4_fetchspec_unref spec) as [[[e [l|]] r]|]; [|done..].
    destruct (unref_times m l) as [[[e' l'] r']|] eqn:Hm; [|done].
    injection H as He -> Hr.
    apply orb_false_elim in He as [-> ->].
    apply app_eq_nil in Hr as [-> ->].
    rewrite (IH l spec' Hm).
    by destruct (s4_fetchspec_unref spec') as [[[e2 l2] r2]|].
Qed.

(** X3. References on a fetchspec nest: after [n] calls of
    [s4_fetchspec_ref] on a fetchspec built by [s4_fetchspec_add] calls,
    as many as the [int] count has room for, [n] calls of
    [s4_fetchspec_unref] leave the fetchspec as it was, release nothing
    and report no error, and the call after them frees it, releasing
    what [s4_fetchspec_free] releases. [s4_fetchspec_ref] of [NULL] is
    [NULL]. On a fetchspec whose count is not positive
    [s4_fetchspec_unref] reports an error, takes one off the count and
    does not free. *)
Theorem fetchspec_references_nest (calls : list add_call) (n : nat) :
  Z.of_nat n < INT_MAX →
  (∃ spec, ref_times n (Some (built calls)) = Some (Some spec)
     ∧ ref_count spec = 1 + Z.of_nat n
     ∧ unref_times n spec = Some (false, Some (built calls), [])
     ∧ unref_times (S n) spec
       = Some (false, None, s4_fetchspec_free (built calls)))
  ∧ s4_fetchspec_ref None = Some None
  ∧ ∀ spec, INT_MIN < ref_count spec ≤ 0 →
      s4_fetchspec_unref spec
      = Some (true, Some {| ref_count := ref_count spec - 1;
                            array := array spec |}, []).
Proof.
  intros Hn.
  assert (Hrc : ref_count (built calls) = 1).
  { unfold built. by rewrite ref_count_foldl. }
  split; [|split; [done|]].
  - eexists. split; [apply ref_times_Some; lia|]. rewrite Hrc.
    cbn [ref_count array].
    assert (Hun : unref_times n
      {| ref_count := 1 + Z.of_nat n; array := array (built calls) |}
      = Some (false, Some (built calls), [])).
    { rewrite unref_times_above by (cbn [ref_count]; lia).
      cbn [ref_count array].
      replace (1 + Z.of_nat n - Z.of_nat n) with (ref_count (built calls))
        by lia.
      by destruct (built calls). }
    split; [done|]. split; [exact Hun|].
    replace (S n) with (n + 1)%nat by lia.
    rewrite (unref_times_snoc _ _ _ Hun).
    unfold s4_fetchspec_unref. rewrite Hrc. simpl.
    by destruct (built calls).
  - intros spec [Hlo Hle]. unfold s4_fetchspec_unref.
    destruct (Z.ltb_spec INT_MIN (ref_count spec)); [|lia].
    destruct (Z.leb_spec (ref_count spec) 0); [|lia]. simpl.
    destruct (Z.eqb_spec (ref_count spec - 1) 0); [lia|done].
Qed.

Lemma fetchspec_references_nest_witness :
  ∃ spec,
    ref_times 3 (Some (built [(Some "artist", Some 7, 1); (None, None, 0)]))
    = Some (Some spec)
    ∧ ref_count spec = 4.
Proof.
  destruct (fetchspec_references_nest
              [(Some "artist", Some 7, 1); (None, None, 0)] 3)
    as [(spec & H1 & H2 & _) _]; [by vm_compute|].
  exists spec. split; [exact H1|exact H2].
Defined.

End Fetchspec.

(** ** Source preferences ([src/sourcepref.c]) *)

Module Sourcepref.
Section WithGlib.

(** GLib's compiled glob patterns and the string table of the database
    are used through their interface only. A C string argument is its
    content, or [None] for [NULL]. *)
Variable GPatternSpec : Type.
Variable g_pattern_spec_new : string → GPatternSpec.
Variable g_pattern_match_string : GPatternSpec → option string → bool.

(** [_st_reverse (sp->s4, src)]: the string an id stands for in the
    string table of the database the sourcepref belongs to. *)
Variable _st_reverse : Z → option string.

(** [struct s4_sourcepref_St]. The hash table, keyed by the value of
    the [int32_t] source id ([g_int_hash], [g_int_equal]), is a finite
    map; [specs] is the array of [spec_count] compiled patterns. *)
Record s4_sourcepref_t := mk_sourcepref {
  table : gmap Z Z;
  specs : list GPatternSpec;
  spec_count : Z
}.

(** The loop of [_get_priority], entered at index [i] with the
    patterns from [i] on. *)
Fixpoint _get_priority_from (ps : list GPatternSpec) (src : option string)
    (i : Z) : Z :=
  match ps with
  | [] => INT_MAX
  | p :: ps' =>
      if g_pattern_match_string p src then i
      else _get_priority_from ps' src (i + 1)
  end.

Definition _get_priority (sp : s4_sourcepref_t) (src : option string) : Z :=
  _get_priority_from (take (Z.to_nat (spec_count sp)) (specs sp)) src 0.

(** [srcprefs] is the array of pattern strings up to its terminating
    [NULL]. *)
Definition s4_sourcepref_create (srcprefs : list string) : s4_sourcepref_t :=
  {| table := ∅;
     specs := map g_pattern_spec_new srcprefs;
     spec_count := Z.of_nat (length srcprefs) |}.

(** [s4_sourcepref_get_priority] returns the priority and leaves the
    sourcepref with its cache updated. *)
Definition s4_sourcepref_get_priority (sp : s4_sourcepref_t) (src : Z)
    : Z * s4_sourcepref_t :=
  match table sp !! src with
  | None =>
      let src_str := _st_reverse src in
      let pri := _get_priority sp src_str in
      (pri, {| table := <[src := pri]> (table sp);
               specs := specs sp;
               spec_count := spec_count sp |})
  | Some i => (i, sp)
  end.

(** The sourcepref after a sequence of [s4_sourcepref_get_priority]
    calls, given by the source ids asked for. *)
Definition after_calls (sp : s4_sourcepref_t) (srcs : list Z)
    : s4_sourcepref_t :=
  foldl (λ sp src, (s4_sourcepref_get_priority sp src).2) sp srcs.

(** [first_match ps s r]: [r] is the index of the first pattern of
    [ps] that matches [s], or [INT_MAX] when none does. *)
Definition first_match (ps : list GPatternSpec) (s : option string)
    (r : Z) : Prop :=
  (∃ p, 0 ≤ r ∧ ps !! Z.to_nat r = Some p
        ∧ g_pattern_match_string p s = true
        ∧ ∀ k q, (k < Z.to_nat r)%nat → ps !! k = Some q →
                 g_pattern_match_string q s = false)
  ∨ (r = INT_MAX ∧ ∀ q, q ∈ ps → g_pattern_match_string q s = false).

(** Every cached priority is the one [_get_priority] computes. *)
Definition cache_consistent (sp : s4_sourcepref_t) : Prop :=
  ∀ src pri, table sp !! src = Some pri →
    pri = _get_priority sp (_st_reverse src).

Lemma _get_priority_from_spec ps s : ∀ i, 0 ≤ i →
  (∃ p, i ≤ _get_priority_from ps s i
     ∧ ps !! Z.to_nat (_get_priority_from ps s i - i) = Some p
     ∧ g_pattern_match_string p s = true
     ∧ ∀ k q, (k < Z.to_nat (_get_priority_from ps s i - i))%nat →
             ps !! k = Some q → g_pattern_match_string q s = false)
  ∨ (_get_priority_from ps s i = INT_MAX
     ∧ ∀ q, q ∈ ps → g_pattern_match_string q s = false).
Proof.
  induction ps as [|p ps IH]; intros i Hi; simpl.
  - right. split; [done|]. intros q Hq. by apply elem_of_nil in Hq.
  - destruct (g_pattern_match_string p s) eqn:Hm.
    + left. exists p. rewrite Z.sub_diag. simpl.
      repeat split; [lia|done|]. intros k q Hk. lia.
    + destruct (IH (i + 1)) as [(p' & Hle & Hl & Hp' & Hbefore)|[Hmax Hnone]];
        [lia| |].
      * left. exists p'.
        replace (Z.to_nat (_get_priority_from ps s (i + 1) - i))
          with (S (Z.to_nat (_get_priority_from ps s (i + 1) - (i + 1))))
          by lia.
        repeat split; [lia|done|done|].
        intros [|k] q Hk Hq; simpl in Hq.
        -- by inversion Hq; subst.
        -- apply (Hbefore k); [lia|done].
      * right. split; [done|]. intros q Hq.
        apply elem_of_cons in Hq as [->|Hq]; [done|by apply Hnone].
Qed.

Lemma _get_priority_first_match sp s :
  first_match (take (Z.to_nat (spec_count sp)) (specs sp)) s
    (_get_priority sp s).
Proof.
  unfold _get_priority.
  destruct (_get_priority_from_spec
    (take (Z.to_nat (spec_count sp)) (specs sp)) s 0)
    as [(p & Hle & Hl & Hp & Hb)|[Hmax Hnone]]; [lia| |].
  - left. rewrite Z.sub_0_r in *. by exists p.
  - by right.
Qed.

Lemma get_priority_patterns sp src :
  specs (s4_sourcepref_get_priority sp src).2 = specs sp
  ∧ spec_count (s4_sourcepref_get_priority sp src).2 = spec_count sp.
Proof.
  unfold s4_sourcepref_get_priority. by destruct (table sp !! src).
Qed.

Lemma get_priority_consistent sp src :
  cache_consistent sp →
  cache_consistent (s4_sourcepref_get_priority sp src).2.
Proof.
  intros Hc. unfold s4_sourcepref_get_priority.
  destruct (table sp !! src) as [i|] eqn:Hl; simpl; [done|].
  intros src' pri. unfold _get_priority; simpl.
  destruct (decide (src = src')) as [<-|Hne].
  - rewrite lookup_insert_eq. by intros [= <-].
  - rewrite lookup_insert_ne by done. apply Hc.
Qed.

Lemma after_calls_invariant srcs : ∀ sp,
  cache_consistent sp →
  cache_consistent (after_calls sp srcs)
  ∧ specs (after_calls sp srcs) = specs sp
  ∧ spec_count (after_calls sp srcs) = spec_count sp.
Proof.
  induction srcs as [|s srcs IH]; intros sp Hc; simpl; [done|].
  destruct (IH _ (get_priority_consistent sp s Hc)) as (H1 & H2 & H3).
  destruct (get_priority_patterns sp s) as [H4 H5].
  unfold after_calls in *. simpl. rewrite H2, H3. done.
Qed.

Lemma get_priority_result sp src :
  cache_consistent sp →
  (s4_sourcepref_get_priority sp src).1 = _get_priority sp (_st_reverse src)
  ∧ table (s4_sourcepref_get_priority sp src).2 !! src
    = Some (_get_priority sp (_st_reverse src)).
Proof.
  intros Hc. unfold s4_sourcepref_get_priority.
  destruct (table sp !! src) as [i|] eqn:Hl; simpl.
  - rewrite Hl. rewrite (Hc _ _ Hl). done.
  - by rewrite lookup_insert_eq.
Qed.

(** C9. For a sourcepref created over the patterns [srcprefs] and used
    for any sequence of lookups, [s4_sourcepref_get_priority] returns
    for a source id the index of the first pattern, in the order of
    the pattern vector, that matches the source string, or [INT_MAX]
    when no pattern matches; the call leaves the answer in the cache,
    and a repeated call, answered from the cache, returns the priority
    that [_get_priority] recomputes. *)
Theorem sourcepref_get_priority_first_match
    (srcprefs : list string) (earlier : list Z) (src : Z) :
  let sp := after_calls (s4_sourcepref_create srcprefs) earlier in
  let r := s4_sourcepref_get_priority sp src in
  first_match (map g_pattern_spec_new srcprefs) (_st_reverse src) r.1
  ∧ table r.2 !! src = Some r.1
  ∧ (s4_sourcepref_get_priority r.2 src).1 = r.1
  ∧ r.1 = _get_priority r.2 (_st_reverse src).
Proof.
  intros sp r.
  assert (Hc0 : cache_consistent (s4_sourcepref_create srcprefs)).
  { intros s p. simpl. by rewrite lookup_empty. }
  destruct (after_calls_invariant earlier _ Hc0) as (Hc & Hs & Hn).
  fold sp in Hc, Hs, Hn. simpl in Hs, Hn.
  destruct (get_priority_result sp src Hc) as [Hr Ht]. fold r in Hr, Ht.
  destruct (get_priority_patterns sp src) as [Hs' Hn']. fold r in Hs', Hn'.
  assert (Hsame : ∀ s, _get_priority r.2 s = _get_priority sp s).
  { intros s. unfold _get_priority. by rewrite Hs', Hn'. }
  split; [|split; [|split]].
  - rewrite Hr.
    pose proof (_get_priority_first_match sp (_st_reverse src)) as Hf.
    rewrite Hs, Hn, Nat2Z.id in Hf.
    rewrite firstn_all2 in Hf by (rewrite length_map; lia). exact Hf.
  - by rewrite Ht, Hr.
  - unfold s4_sourcepref_get_priority at 1. by rewrite Ht, Hr.
  - by rewrite Hsame, Hr.
Qed.

(** *** What the cache and the order of the patterns guarantee *)

Lemma after_calls_snoc sp srcs src :
  after_calls sp (srcs ++ [src])
  = (s4_sourcepref_get_priority (after_calls sp srcs) src).2.
Proof. unfold after_calls. by rewrite foldl_app. Qed.

Lemma get_priority_dom sp src :
  dom (table (s4_sourcepref_get_priority sp src).2)
  = {[src]} ∪ dom (table sp).
Proof.
  unfold s4_sourcepref_get_priority.
  destruct (table sp !! src) as [i|] eqn:Hl; simpl.
  - apply (elem_of_dom_2 (D := gset Z)) in Hl.
    symmetry. apply subseteq_union_1_L. by apply singleton_subseteq_l.
  - by rewrite dom_insert_L.
Qed.

(** The priority of a source against the patterns [srcprefs], as a fresh
    sourcepref computes it. *)
Definition fresh_priority (srcprefs : list string) (src : Z) : Z :=
  _get_priority (s4_sourcepref_create srcprefs) (_st_reverse src).

(** X4. The cache never changes an answer: whatever lookups were made
    before, [s4_sourcepref_get_priority] returns for a source id the
    priority a fresh sourcepref over the same patterns computes for it,
    which is [INT_MAX] or the index of one of the patterns. The lookups
    leave the patterns as they are, and the cache holds exactly the
    source ids that have been asked for. *)
Theorem sourcepref_lookups_do_not_interfere
    (srcprefs : list string) (earlier : list Z) (src : Z) :
  let sp := after_calls (s4_sourcepref_create srcprefs) earlier in
  (s4_sourcepref_get_priority sp src).1 = fresh_priority srcprefs src
  ∧ (fresh_priority srcprefs src = INT_MAX
     ∨ 0 ≤ fresh_priority srcprefs src < Z.of_nat (length srcprefs))
  ∧ specs sp = map g_pattern_spec_new srcprefs
  ∧ spec_count sp = Z.of_nat (length srcprefs)
  ∧ dom (table sp) = list_to_set earlier.
Proof.
  intros sp.
  assert (Hc0 : cache_consistent (s4_sourcepref_create srcprefs)).
  { intros s p. simpl. by rewrite lookup_empty. }
  destruct (after_calls_invariant earlier _ Hc0) as (Hc & Hs & Hn).
  fold sp in Hc, Hs, Hn. simpl in Hs, Hn.
  split; [|split; [|split; [done|split; [done|]]]].
  - destruct (get_priority_result sp src Hc) as [-> _].
    unfold fresh_priority, _get_priority. by rewrite Hs, Hn.
  - pose proof (_get_priority_first_match (s4_sourcepref_create srcprefs)
                  (_st_reverse src)) as Hf.
    fold (fresh_priority srcprefs src) in Hf.
    destruct Hf as [(p & Hpos & Hl & _)|[Hmax _]]; [right|by left].
    apply lookup_lt_Some in Hl. rewrite length_take in Hl. simpl in Hl.
    rewrite length_map in Hl. lia.
  - unfold sp. clear. induction earlier as [|s earlier IH] using rev_ind.
    + simpl. by rewrite dom_empty_L.
    + rewrite after_calls_snoc, get_priority_dom, IH.
      rewrite list_to_set_app_L. simpl.
      rewrite union_empty_r_L. apply (comm_L (∪)).
Qed.

Lemma _get_priority_from_app ps more s : ∀ i,
  _get_priority_from (ps ++ more) s i
  = if existsb (λ p, g_pattern_match_string p s) ps
    then _get_priority_from ps s i
    else _get_priority_from more s (i + Z.of_nat (length ps)).
Proof.
  induction ps as [|p ps IH]; intros i; simpl.
  - by rewrite Z.add_0_r.
  - destruct (g_pattern_match_string p s); simpl; [done|].
    rewrite IH. destruct (existsb _ ps); [done|]. f_equal. lia.
Qed.

Lemma _get_priority_from_none ps s : ∀ i,
  existsb (λ p, g_pattern_match_string p s) ps = false →
  _get_priority_from ps s i = INT_MAX.
Proof.
  induction ps as [|p ps IH]; intros i; simpl; [done|].
  destruct (g_pattern_match_string p s); simpl; [done|]. apply IH.
Qed.

Lemma _get_priority_from_ge ps s : ∀ i,
  _get_priority_from ps s i = INT_MAX ∨ i ≤ _get_priority_from ps s i.
Proof.
  induction ps as [|p ps IH]; intros i; simpl; [by left|].
  destruct (g_pattern_match_string p s); [right; lia|].
  destruct (IH (i + 1)) as [H|H]; [by left|right; lia].
Qed.

Lemma _get_priority_create srcprefs s :
  _get_priority (s4_sourcepref_create srcprefs) s
  = _get_priority_from (map g_pattern_spec_new srcprefs) s 0.
Proof.
  unfold _get_priority. simpl.
  rewrite Nat2Z.id, firstn_all2 by (rewrite length_map; lia). done.
Qed.

(** X5. Patterns added at the end of the vector do not change the
    priority of a source that one of the patterns before them matches:
    the priority over the longer vector is the one over the shorter,
    unless that one is [INT_MAX], in which case the new priority is
    [INT_MAX] or the index of one of the patterns added. *)
Theorem sourcepref_priority_of_longer_vector
    (srcprefs more : list string) (s : option string) :
  let r := _get_priority (s4_sourcepref_create srcprefs) s in
  let r' := _get_priority (s4_sourcepref_create (srcprefs ++ more)) s in
  r' = r
  ∨ (r = INT_MAX
     ∧ Z.of_nat (length srcprefs) ≤ r'
         < Z.of_nat (length srcprefs + length more)).
Proof.
  intros r r'. unfold r, r'. rewrite !_get_priority_create.
  rewrite map_app, _get_priority_from_app.
  destruct (existsb _ (map g_pattern_spec_new srcprefs)) eqn:Hex;
    [by left|].
  rewrite (_get_priority_from_none _ _ _ Hex), length_map, Z.add_0_l.
  pose proof (_get_priority_first_match
                (s4_sourcepref_create (srcprefs ++ more)) s) as Hf.
  rewrite _get_priority_create in Hf. simpl in Hf.
  rewrite Nat2Z.id, firstn_all2 in Hf by (rewrite length_map; lia).
  rewrite map_app, _get_priority_from_app, Hex, length_map, Z.add_0_l in Hf.
  destruct Hf as [(p & Hpos & Hl & Hp & _)|[Hmax _]]; [right|by left].
  split; [done|].
  pose proof (lookup_lt_Some _ _ _ Hl) as Hlt.
  rewrite length_app, !length_map in Hlt.
  split; [|lia].
  destruct (Z_le_gt_dec (Z.of_nat (length srcprefs))
              (_get_priority_from (map g_pattern_spec_new more) s
                 (Z.of_nat (length srcprefs)))) as [Hle|Hgt]; [done|].
  exfalso.
  rewrite lookup_app_l in Hl by (rewrite length_map; lia).
  apply not_true_iff_false in Hex. apply Hex, existsb_exists.
  exists p. split; [|exact Hp].
  apply list_elem_of_In. by eapply list_elem_of_lookup_2.
Qed.

End WithGlib.
End Sourcepref.

(** ** The value index ([src/index.c]) *)

Module Index.

(** *** Values and the canonical comparator *)

(** [s4_val_t]: a 32-bit integer or a string (its bytes, without the
    terminating NUL). *)
Inductive s4_val_t :=
| S4Int (i : Z)
| S4Str (s : string).

(** [strcmp] of the C library, on unsigned bytes. The C standard fixes
    the sign of the result only; the model returns -1, 0 or 1. *)
Fixpoint strcmp (s1 s2 : string) : Z :=
  match s1, s2 with
  | EmptyString, EmptyString => 0
  | EmptyString, String _ _ => -1
  | String _ _, EmptyString => 1
  | String c1 s1', String c2 s2' =>
      match N.compare (Ascii.N_of_ascii c1) (Ascii.N_of_ascii c2) with
      | Lt => -1
      | Gt => 1
      | Eq => strcmp s1' s2'
      end
  end.

Definition _val_comp (v1 v2 : s4_val_t) : Z :=
  match v1, v2 with
  | S4Int i1, S4Int i2 => if i1 >? i2 then 1 else if i1 <? i2 then -1 else 0
  | S4Str s1, S4Str s2 => strcmp s1 s2
  | S4Int _, _ => -1
  | _, _ => 1
  end.

(** [index_function_t]: a callback [func (val, funcdata)] is the
    function of the bucket value it computes for its [funcdata]. *)
Definition index_function_t : Type := s4_val_t → Z.

(** *** Heap blocks *)

(** Reading cell [i] of a block; [None] outside the block. *)
Definition cell {A} (cells : list A) (i : Z) : option A :=
  if i <? 0 then None else cells !! Z.to_nat i.

(** Writing cell [i] of a block; [None] outside the block. *)
Definition store {A} (cells : list A) (i : Z) (x : A) : option (list A) :=
  if (0 <=? i) && (i <? Z.of_nat (length cells))
  then Some (<[Z.to_nat i := x]> cells)
  else None.

(** [memmove (base + dst, base + src, n * sizeof cell)] inside one
    block: the [n] cells from [src] on are copied to [dst] on, as if
    through a temporary. [None] when a range leaves the block or the
    byte count is negative. *)
Definition memmove {A} (cells : list A) (dst src n : Z) : option (list A) :=
  let len := Z.of_nat (length cells) in
  if (0 <=? n) && (0 <=? src) && (0 <=? dst)
     && (src + n <=? len) && (dst + n <=? len)
  then Some (take (Z.to_nat dst) cells
             ++ take (Z.to_nat n) (drop (Z.to_nat src) cells)
             ++ drop (Z.to_nat (dst + n)) cells)
  else None.

(** [realloc] to [n] cells: the old cells are kept and the block gains
    cells of indeterminate content, [junk k] for the cell at [k]. *)
Definition realloc {A} (junk : nat → A) (cells : list A) (n : Z) : list A :=
  take (Z.to_nat n)
    (cells ++ map junk (seq (length cells) (Z.to_nat n - length cells))).

(** *** The index structures *)

(** [index_data_t]: an occurrence, the relation ref and its count. *)
Record index_data_t := mk_index_data {
  od_data : Z;
  od_count : Z
}.

(** [index_t]: a bucket. [bk_data] is the address held by the pointer
    [data] and [bk_cells] the block it points to. *)
Record index_t := mk_index_t {
  bk_val : s4_val_t;
  bk_size : Z;
  bk_alloc : Z;
  bk_data : Z;
  bk_cells : list index_data_t
}.

(** [struct s4_index_St]: [ix_data] is the block [data] points to. *)
Record s4_index_t := mk_index {
  ix_size : Z;
  ix_alloc : Z;
  ix_data : list index_t
}.

(** What the heap holds for one call: the address of the block
    [malloc] or [realloc] returns for the occurrences of the bucket at
    hand, the indeterminate content of the cells that the blocks gain,
    and [beyond], what lies in memory right after the occurrences of
    the bucket at hand. *)
Record heap_t := mk_heap {
  fresh_addr : Z;
  fresh_cells : nat → index_data_t;
  fresh_buckets : nat → index_t;
  beyond : index_data_t
}.

Definition _index_create (h : heap_t) : s4_index_t :=
  {| ix_size := 0; ix_alloc := 1; ix_data := realloc (fresh_buckets h) [] 1 |}.

(** The loop of [_data_search] on the bounds [lo] and [hi]; each turn
    narrows [hi - lo], so [fuel] turns are enough when
    [hi - lo <= fuel]. *)
Fixpoint _data_search_loop (fuel : nat) (cells : list index_data_t)
    (data : Z) (lo hi : Z) : option Z :=
  if hi - lo >? 0 then
    match fuel with
    | O => None
    | S fuel' =>
        let m := (hi + lo) ÷ 2 in
        c ← cell cells m;
        if data =? od_data c then Some m
        else if data <? od_data c
             then _data_search_loop fuel' cells data (m + 1) hi
             else _data_search_loop fuel' cells data lo m
    end
  else Some lo.

Definition _data_search (index : index_t) (data : Z) : option Z :=
  _data_search_loop (Z.to_nat (bk_size index)) (bk_cells index) data
    0 (bk_size index).

(** The loop of [_bsearch]. *)
Fixpoint _bsearch_loop (fuel : nat) (data : list index_t)
    (func : index_function_t) (lo hi : Z) : option Z :=
  if hi - lo >? 0 then
    match fuel with
    | O => None
    | S fuel' =>
        let m := (hi + lo) ÷ 2 in
        b ← cell data m;
        let c := func (bk_val b) in
        if c =? 0 then Some m
        else if c <? 0
             then _bsearch_loop fuel' data func (m + 1) hi
             else _bsearch_loop fuel' data func lo m
    end
  else Some lo.

Definition _bsearch (index : s4_index_t) (func : index_function_t)
    : option Z :=
  _bsearch_loop (Z.to_nat (ix_size index)) (ix_data index) func
    0 (ix_size index).

(** The guard [i >= index->size || func (index->data[i].val)]: no
    bucket at [i], or one whose value the comparator tells apart. *)
Definition no_bucket_at (index : s4_index_t) (func : index_function_t)
    (i : Z) : option bool :=
  if i >=? ix_size index then Some true
  else b ← cell (ix_data index) i; Some (negb (func (bk_val b) =? 0)).

(** [_index_insert], lines 115 to 125: a new bucket for [val] is
    opened at [i]. *)
Definition new_bucket (h : heap_t) (index : s4_index_t) (val : s4_val_t)
    (i : Z) : option s4_index_t :=
  let grow := ix_size index >=? ix_alloc index in
  let alloc' := if grow then ix_alloc index * 2 else ix_alloc index in
  let data0 := if grow
               then realloc (fresh_buckets h) (ix_data index) alloc'
               else ix_data index in
  data1 ← memmove data0 (i + 1) i (ix_size index - i);
  data2 ← store data1 i
            {| bk_val := val; bk_size := 0; bk_alloc := 1;
               bk_data := fresh_addr h;
               bk_cells := realloc (fresh_cells h) [] 1 |};
  Some {| ix_size := ix_size index + 1; ix_alloc := alloc';
          ix_data := data2 |}.

(** [_index_insert], lines 128 to 145: the ref is entered in the
    bucket at [i]. The guard compares [j] with [index->size], the
    number of buckets: when the bucket has fewer occurrences than
    that, the cell read at [j] may be a stale one, or lie right after
    the block. *)
Definition add_occurrence (h : heap_t) (index : s4_index_t) (i : Z)
    (new_data : Z) : option (Z * s4_index_t) :=
  b ← cell (ix_data index) i;
  j ← _data_search b new_data;
  let absent :=
    if j >=? ix_size index then true
    else let c := default (beyond h) (cell (bk_cells b) j) in
         negb (new_data =? od_data c) in
  b' ← (if absent then
          let grow := bk_size b >=? bk_alloc b in
          let alloc' := if grow then bk_alloc b * 2 else bk_alloc b in
          let addr' := if grow then fresh_addr h else bk_data b in
          let cells0 := if grow
                        then realloc (fresh_cells h) (bk_cells b) alloc'
                        else bk_cells b in
          cells1 ← memmove cells0 (j + 1) j (bk_size b - j);
          cells2 ← store cells1 j {| od_data := new_data; od_count := 1 |};
          Some {| bk_val := bk_val b; bk_size := bk_size b + 1;
                  bk_alloc := alloc'; bk_data := addr';
                  bk_cells := cells2 |}
        else
          c ← cell (bk_cells b) j;
          cells' ← store (bk_cells b) j
                     {| od_data := od_data c; od_count := od_count c + 1 |};
          Some {| bk_val := bk_val b; bk_size := bk_size b;
                  bk_alloc := bk_alloc b; bk_data := bk_data b;
                  bk_cells := cells' |});
  data' ← store (ix_data index) i b';
  Some (1, {| ix_size := ix_size index; ix_alloc := ix_alloc index;
              ix_data := data' |}).

Definition _index_insert (h : heap_t) (index : s4_index_t)
    (val : s4_val_t) (new_data : Z) : option (Z * s4_index_t) :=
  i ← _bsearch index (λ v, _val_comp v val);
  miss ← no_bucket_at index (_val_comp val) i;
  index ← (if miss : bool then new_bucket h index val i else Some index);
  add_occurrence h index i new_data.

Definition _index_delete (index : s4_index_t) (val : s4_val_t)
    (new_data : Z) : option (Z * s4_index_t) :=
  i ← _bsearch index (λ v, _val_comp v val);
  miss ← no_bucket_at index (_val_comp val) i;
  if miss : bool then Some (0, index) else
  b ← cell (ix_data index) i;
  j ← _data_search b new_data;
  if (j >=? ix_size index) || negb (new_data =? bk_data b)
  then Some (0, index) else
  c ← cell (bk_cells b) j;
  let count' := od_count c - 1 in
  cells1 ← store (bk_cells b) j {| od_data := od_data c; od_count := count' |};
  shrunk ← (if count' <=? 0 then
              cells2 ← memmove cells1 j (j + 1) (bk_size b - j - 1);
              Some (cells2, bk_size b - 1)
            else Some (cells1, bk_size b));
  let b' := {| bk_val := bk_val b; bk_size := shrunk.2;
               bk_alloc := bk_alloc b; bk_data := bk_data b;
               bk_cells := shrunk.1 |} in
  if bk_size b' <=? 0 then
    (* [free (index->data[i].data)]: the block is gone *)
    data1 ← store (ix_data index) i
              {| bk_val := bk_val b'; bk_size := bk_size b';
                 bk_alloc := bk_alloc b'; bk_data := bk_data b';
                 bk_cells := [] |};
    data2 ← memmove data1 i (i + i) (ix_size index - i - 1);
    Some (1, {| ix_size := ix_size index - 1; ix_alloc := ix_alloc index;
                ix_data := data2 |})
  else
    data1 ← store (ix_data index) i b';
    Some (1, {| ix_size := ix_size index; ix_alloc := ix_alloc index;
                ix_data := data1 |}).

(** [for (i = i; i >= 0 && !func (index->data[i].val, func_data); i--);]
    with the value of [i] the loop ends on. *)
Fixpoint _scan_down (fuel : nat) (data : list index_t)
    (func : index_function_t) (i : Z) : option Z :=
  if i >=? 0 then
    b ← cell data i;
    if func (bk_val b) =? 0 then
      match fuel with
      | O => None
      | S fuel' => _scan_down fuel' data func (i - 1)
      end
    else Some i
  else Some i.

(** [for (j = 0; j < index->data[i].size; j++)
      g_hash_table_insert (found, index->data[i].data[j].data, 1);]
    The hash table [found], with direct hashing of the keys, is the
    set of the refs inserted. *)
Fixpoint _collect_bucket (fuel : nat) (b : index_t) (j : Z)
    (found : gset Z) : option (gset Z) :=
  if j <? bk_size b then
    c ← cell (bk_cells b) j;
    match fuel with
    | O => None
    | S fuel' => _collect_bucket fuel' b (j + 1) ({[od_data c]} ∪ found)
    end
  else Some found.

(** [for (; i < index->size && !func (index->data[i].val, func_data); i++)] *)
Fixpoint _collect (fuel : nat) (index : s4_index_t)
    (func : index_function_t) (i : Z) (found : gset Z) : option (gset Z) :=
  if i <? ix_size index then
    b ← cell (ix_data index) i;
    if func (bk_val b) =? 0 then
      found' ← _collect_bucket (Z.to_nat (bk_size b)) b 0 found;
      match fuel with
      | O => None
      | S fuel' => _collect fuel' index func (i + 1) found'
      end
    else Some found
  else Some found.

(** [if (func == NULL) func = (index_function_t)_val_comp;]: a [NULL]
    callback stands for [_val_comp] against the value [func_data]
    points to. *)
Definition callback (func : option index_function_t) (func_data : s4_val_t)
    : index_function_t :=
  match func with
  | None => λ v, _val_comp v func_data
  | Some f => f
  end.

(** [_index_search]. The list returned has the keys of
    [found] in the iteration order of the hash table, which GLib leaves
    open: [elements] stands for that order. [NULL] is the empty list. *)
Definition _index_search (index : s4_index_t)
    (func : option index_function_t) (func_data : s4_val_t)
    : option (list Z) :=
  let func := callback func func_data in
  i ← _bsearch index func;
  miss ← no_bucket_at index func i;
  if miss : bool then Some [] else
  i ← _scan_down (Z.to_nat (i + 1)) (ix_data index) func i;
  let i := i + 1 in
  found ← _collect (Z.to_nat (ix_size index)) index func i ∅;
  Some (elements found).

(** *** The canonical order, as the specification words it *)

(** Byte-wise order of strings: a proper prefix comes first, otherwise
    the first differing byte decides, as an unsigned value. *)
Inductive bytes_lt : string → string → Prop :=
| bytes_lt_prefix c t : bytes_lt EmptyString (String c t)
| bytes_lt_byte c d s t :
    (Ascii.N_of_ascii c < Ascii.N_of_ascii d)%N →
    bytes_lt (String c s) (String d t)
| bytes_lt_tail c s t : bytes_lt s t → bytes_lt (String c s) (String c t).

(** Every int before every string, ints numerically, strings
    byte-wise. *)
Inductive val_lt : s4_val_t → s4_val_t → Prop :=
| val_lt_int i j : i < j → val_lt (S4Int i) (S4Int j)
| val_lt_int_str i s : val_lt (S4Int i) (S4Str s)
| val_lt_str s t : bytes_lt s t → val_lt (S4Str s) (S4Str t).

(** The buckets in use: the first [index->size] cells of the array. *)
Definition live (index : s4_index_t) : list index_t :=
  take (Z.to_nat (ix_size index)) (ix_data index).

(** The occurrences in use of a bucket. *)
Definition occurrences (b : index_t) : list index_data_t :=
  take (Z.to_nat (bk_size b)) (bk_cells b).

(** The bucket array is strictly sorted by value. *)
Definition sorted (index : s4_index_t) : Prop :=
  StronglySorted val_lt (bk_val <$> live index).

(** The sizes of a bucket fit its block. *)
Definition wf_bucket (b : index_t) : Prop :=
  0 ≤ bk_size b ≤ bk_alloc b
  ∧ 1 ≤ bk_alloc b
  ∧ bk_alloc b = Z.of_nat (length (bk_cells b)).

(** The sizes of the index and of its buckets in use fit their
    blocks. *)
Definition wf (index : s4_index_t) : Prop :=
  0 ≤ ix_size index ≤ ix_alloc index
  ∧ 1 ≤ ix_alloc index
  ∧ ix_alloc index = Z.of_nat (length (ix_data index))
  ∧ Forall wf_bucket (live index).

(** *** The comparator computes the canonical order *)

Lemma N_of_ascii_inj c d : Ascii.N_of_ascii c = Ascii.N_of_ascii d → c = d.
Proof.
  intros H. rewrite <- (Ascii.ascii_N_embedding c),
    <- (Ascii.ascii_N_embedding d). by rewrite H.
Qed.

Lemma strcmp_range s t : strcmp s t = -1 ∨ strcmp s t = 0 ∨ strcmp s t = 1.
Proof.
  revert t. induction s as [|c s IH]; intros [|d t]; simpl; auto.
  destruct (N.compare _ _); auto.
Qed.

Lemma strcmp_eq s t : strcmp s t = 0 ↔ s = t.
Proof.
  revert t. induction s as [|c s IH]; intros [|d t]; simpl;
    try (split; [lia || discriminate | discriminate || lia]); [done|].
  destruct (N.compare_spec (Ascii.N_of_ascii c) (Ascii.N_of_ascii d))
    as [He|Hl|Hg].
  - apply N_of_ascii_inj in He as ->. rewrite IH.
    split; [by intros ->|by intros [= ->]].
  - split; [lia|]. intros [= -> _]. lia.
  - split; [lia|]. intros [= -> _]. lia.
Qed.

Lemma strcmp_lt s t : strcmp s t < 0 ↔ bytes_lt s t.
Proof.
  revert t. induction s as [|c s IH]; intros [|d t]; simpl.
  - split; [lia|inversion 1].
  - split; [constructor|lia].
  - split; [lia|inversion 1].
  - destruct (N.compare_spec (Ascii.N_of_ascii c) (Ascii.N_of_ascii d))
      as [He|Hl|Hg].
    + apply N_of_ascii_inj in He as ->. rewrite IH. split.
      * by constructor.
      * inversion 1; subst; [lia|done].
    + split; [by constructor|lia].
    + split; [lia|]. inversion 1; subst; lia.
Qed.

Lemma strcmp_antisym s t : strcmp t s = - strcmp s t.
Proof.
  revert t. induction s as [|c s IH]; intros [|d t]; simpl; try done.
  rewrite (N.compare_antisym (Ascii.N_of_ascii c)).
  destruct (N.compare _ _); simpl; auto.
Qed.

Lemma bytes_lt_trans s t u : bytes_lt s t → bytes_lt t u → bytes_lt s u.
Proof.
  intros H. revert u. induction H; intros u Hu; inversion Hu; subst;
    try (by constructor).
  - apply bytes_lt_byte. lia.
  - by apply bytes_lt_tail, IHbytes_lt.
Qed.

Lemma bytes_lt_irrefl s : ¬ bytes_lt s s.
Proof. induction s; inversion 1; subst; [lia|auto]. Qed.

Lemma _val_comp_range v w :
  _val_comp v w = -1 ∨ _val_comp v w = 0 ∨ _val_comp v w = 1.
Proof.
  destruct v as [i|s], w as [j|t]; simpl; auto using strcmp_range.
  destruct (Z.gtb_spec i j); auto. destruct (Z.ltb_spec i j); auto.
Qed.

Lemma _val_comp_lt v w : _val_comp v w < 0 ↔ val_lt v w.
Proof.
  destruct v as [i|s], w as [j|t]; simpl.
  - destruct (Z.gtb_spec i j), (Z.ltb_spec i j);
      (split; [intros; try lia; by constructor|inversion 1; lia]).
  - split; [constructor|lia].
  - split; [lia|inversion 1].
  - rewrite strcmp_lt. split; [by constructor|by inversion 1].
Qed.

Lemma _val_comp_eq v w : _val_comp v w = 0 ↔ v = w.
Proof.
  destruct v as [i|s], w as [j|t]; simpl.
  - destruct (Z.gtb_spec i j), (Z.ltb_spec i j);
      (split; [intros; try lia; f_equal; lia|intros [= ->]; lia]).
  - split; [lia|done].
  - split; [lia|done].
  - rewrite strcmp_eq. split; [by intros ->|by intros [= ->]].
Qed.

Lemma _val_comp_antisym v w : _val_comp w v = - _val_comp v w.
Proof.
  destruct v as [i|s], w as [j|t]; simpl; try done.
  - destruct (Z.gtb_spec i j), (Z.ltb_spec i j),
      (Z.gtb_spec j i), (Z.ltb_spec j i); lia.
  - apply strcmp_antisym.
Qed.

Lemma _val_comp_gt v w : _val_comp v w > 0 ↔ val_lt w v.
Proof. rewrite <- _val_comp_lt, (_val_comp_antisym v w). lia. Qed.

Lemma val_lt_trans u v w : val_lt u v → val_lt v w → val_lt u w.
Proof.
  destruct 1; inversion 1; subst; constructor;
    [lia|by eapply bytes_lt_trans].
Qed.

Lemma val_lt_irrefl v : ¬ val_lt v v.
Proof.
  inversion 1; subst; [lia|by eapply bytes_lt_irrefl].
Qed.

(** *** Blocks *)

Lemma cell_Some {A} (l : list A) i x :
  cell l i = Some x ↔ 0 ≤ i ∧ l !! Z.to_nat i = Some x.
Proof.
  unfold cell. destruct (Z.ltb_spec i 0) as [Hneg|Hpos].
  - split; [done|]. intros [? _]. lia.
  - split; [by intros ->|by intros [_ ->]].
Qed.

Lemma cell_is_Some {A} (l : list A) i :
  0 ≤ i < Z.of_nat (length l) → is_Some (cell l i).
Proof.
  intros Hi. unfold cell. destruct (Z.ltb_spec i 0); [lia|].
  apply lookup_lt_is_Some. lia.
Qed.

Lemma cell_lt_length {A} (l : list A) i x :
  cell l i = Some x → 0 ≤ i < Z.of_nat (length l).
Proof.
  rewrite cell_Some. intros [Hi Hl]. apply lookup_lt_Some in Hl. lia.
Qed.

Lemma StronglySorted_lookup {A} (R : relation A) l i j x y :
  StronglySorted R l → (i < j)%nat →
  l !! i = Some x → l !! j = Some y → R x y.
Proof.
  intros Hs. revert i j. induction Hs as [|a l Hs IH Hall];
    intros i j Hij Hi Hj; [done|].
  destruct j as [|j]; [lia|]. simpl in Hj.
  destruct i as [|i]; simpl in Hi.
  - inversion Hi; subst. rewrite Forall_forall in Hall.
    apply Hall. by eapply list_elem_of_lookup_2.
  - apply (IH i j); [lia|done..].
Qed.

Lemma live_lookup index k x :
  cell (ix_data index) k = Some x → k < ix_size index →
  live index !! Z.to_nat k = Some x.
Proof.
  rewrite cell_Some. intros [Hk Hl] Hlt. unfold live.
  rewrite lookup_take_lt by lia. done.
Qed.

Lemma sorted_cells index a b x y :
  sorted index → a < b → b < ix_size index →
  cell (ix_data index) a = Some x → cell (ix_data index) b = Some y →
  val_lt (bk_val x) (bk_val y).
Proof.
  intros Hs Hab Hb Hx Hy.
  pose proof (cell_lt_length _ _ _ Hx) as Ha.
  apply live_lookup in Hx; [|lia]. apply live_lookup in Hy; [|lia].
  eapply (StronglySorted_lookup _ _ (Z.to_nat a) (Z.to_nat b)); [exact Hs|lia| |];
    rewrite list_lookup_fmap; [by rewrite Hx|by rewrite Hy].
Qed.

(** A callback is monotone along the canonical order when its sign
    never decreases as the value grows. *)
Definition monotone (func : index_function_t) : Prop :=
  ∀ v w, val_lt v w → Z.sgn (func v) ≤ Z.sgn (func w).

(** The same along the buckets in use of an index. *)
Definition monotone_along (func : index_function_t) (index : s4_index_t)
    : Prop :=
  ∀ a b x y, a < b → b < ix_size index →
    cell (ix_data index) a = Some x → cell (ix_data index) b = Some y →
    Z.sgn (func (bk_val x)) ≤ Z.sgn (func (bk_val y)).

Lemma monotone_sorted func index :
  monotone func → sorted index → monotone_along func index.
Proof.
  intros Hm Hs a b x y Hab Hb Hx Hy. apply Hm. by apply (sorted_cells index a b).
Qed.

Lemma _val_comp_monotone val : monotone (λ v, _val_comp v val).
Proof.
  intros v w Hvw.
  destruct (Z.lt_trichotomy (_val_comp w val) 0) as [Hw|[Hw|Hw]].
  - apply _val_comp_lt in Hw.
    pose proof (val_lt_trans _ _ _ Hvw Hw) as Hv.
    apply _val_comp_lt in Hv. lia.
  - apply _val_comp_eq in Hw. subst w.
    apply _val_comp_lt in Hvw. lia.
  - lia.
Qed.

(** *** Binary search over the buckets *)

(** What [_bsearch] finds in an index along which the callback is
    monotone: a bucket the callback is zero on, or else the place
    where its sign turns from negative to positive. *)
Definition bsearch_result (index : s4_index_t) (func : index_function_t)
    (r : Z) : Prop :=
  0 ≤ r ≤ ix_size index
  ∧ ((∃ x, r < ix_size index ∧ cell (ix_data index) r = Some x
           ∧ func (bk_val x) = 0)
     ∨ ((∀ k x, k < r → cell (ix_data index) k = Some x →
                func (bk_val x) < 0)
        ∧ (∀ k x, r ≤ k < ix_size index →
                  cell (ix_data index) k = Some x → func (bk_val x) > 0))).

Lemma _bsearch_loop_spec index func :
  ix_size index ≤ Z.of_nat (length (ix_data index)) →
  monotone_along func index →
  ∀ fuel lo hi,
    0 ≤ lo ≤ hi → hi ≤ ix_size index → hi - lo ≤ Z.of_nat fuel →
    (∀ k x, k < lo → cell (ix_data index) k = Some x → func (bk_val x) < 0) →
    (∀ k x, hi ≤ k < ix_size index → cell (ix_data index) k = Some x →
            func (bk_val x) > 0) →
    ∃ r, _bsearch_loop fuel (ix_data index) func lo hi = Some r
         ∧ lo ≤ r ≤ hi ∧ bsearch_result index func r.
Proof.
  intros Hlen Hmono.
  induction fuel as [|fuel IH]; intros lo hi Hlo Hhi Hfuel Hneg Hpos.
  - simpl. destruct (Z.gtb_spec (hi - lo) 0) as [Hgt|Hle]; [lia|].
    assert (hi = lo) as -> by lia.
    exists lo. repeat split; try lia. right. by split.
  - simpl. destruct (Z.gtb_spec (hi - lo) 0) as [Hgt|Hle].
    2:{ assert (hi = lo) as -> by lia.
        exists lo. repeat split; try lia. right. by split. }
    assert (Hm : lo ≤ (hi + lo) ÷ 2 < hi).
    { rewrite Z.quot_div_nonneg by lia. split.
      - apply Z.div_le_lower_bound; lia.
      - apply Z.div_lt_upper_bound; lia. }
    set (m := (hi + lo) ÷ 2) in *.
    destruct (cell_is_Some (ix_data index) m) as [b Hb]; [lia|].
    rewrite Hb. simpl.
    destruct (Z.eqb_spec (func (bk_val b)) 0) as [Hz|Hnz].
    { exists m. repeat split; try lia. left. exists b. repeat split; [lia|done..]. }
    destruct (Z.ltb_spec (func (bk_val b)) 0) as [Hlt|Hge].
    + destruct (IH (m + 1) hi) as (r & Hr & Hrange & Hres); try lia.
      * intros k x Hk Hx.
        destruct (decide (k = m)) as [->|Hne]; [congruence|].
        assert (Z.sgn (func (bk_val x)) ≤ Z.sgn (func (bk_val b))); [|lia].
        apply (Hmono k m); [lia|lia|done..].
      * done.
      * exists r. repeat split; [done|lia..|apply Hres|apply Hres|apply Hres].
    + destruct (IH lo m) as (r & Hr & Hrange & Hres); try lia.
      * done.
      * intros k x Hk Hx.
        destruct (decide (k = m)) as [->|Hne].
        { assert (x = b) as -> by congruence. lia. }
        assert (Z.sgn (func (bk_val b)) ≤ Z.sgn (func (bk_val x))); [|lia].
        apply (Hmono m k); [lia|lia|done..].
      * exists r. repeat split; [done|lia..|apply Hres|apply Hres|apply Hres].
Qed.

Lemma _bsearch_spec index func :
  0 ≤ ix_size index ≤ Z.of_nat (length (ix_data index)) →
  monotone_along func index →
  ∃ r, _bsearch index func = Some r ∧ bsearch_result index func r.
Proof.
  intros Hlen Hmono. unfold _bsearch.
  destruct (_bsearch_loop_spec index func (proj2 Hlen) Hmono
    (Z.to_nat (ix_size index)) 0 (ix_size index))
    as (r & Hr & _ & Hres).
  - lia.
  - lia.
  - lia.
  - intros k x Hk Hx. apply cell_lt_length in Hx. lia.
  - intros k x Hk. lia.
  - by exists r.
Qed.

Lemma memmove_Some {A} (cells r : list A) dst src n :
  memmove cells dst src n = Some r →
  0 ≤ n ∧ 0 ≤ src ∧ 0 ≤ dst
  ∧ src + n ≤ Z.of_nat (length cells) ∧ dst + n ≤ Z.of_nat (length cells)
  ∧ r = take (Z.to_nat dst) cells
        ++ take (Z.to_nat n) (drop (Z.to_nat src) cells)
        ++ drop (Z.to_nat (dst + n)) cells.
Proof.
  unfold memmove. intros H.
  destruct (_ && _) eqn:Hc in H; [|done].
  repeat (apply andb_prop in Hc as [Hc ?]).
  inversion H. repeat split; try lia. 
Qed.

Lemma memmove_is_Some {A} (cells : list A) dst src n :
  0 ≤ n → 0 ≤ src → 0 ≤ dst →
  src + n ≤ Z.of_nat (length cells) → dst + n ≤ Z.of_nat (length cells) →
  is_Some (memmove cells dst src n).
Proof.
  intros. unfold memmove.
  replace (_ && _) with true; [by eexists|].
  symmetry. repeat (apply andb_true_intro; split); lia.
Qed.

Lemma store_Some {A} (cells r : list A) i x :
  store cells i x = Some r →
  0 ≤ i < Z.of_nat (length cells) ∧ r = <[Z.to_nat i := x]> cells.
Proof.
  unfold store. intros H.
  destruct (_ && _) eqn:Hc in H; [|done].
  apply andb_prop in Hc as [? ?]. inversion H. split; [lia|done].
Qed.

Lemma store_is_Some {A} (cells : list A) i x :
  0 ≤ i < Z.of_nat (length cells) → is_Some (store cells i x).
Proof.
  intros. unfold store. replace (_ && _) with true; [by eexists|].
  symmetry. apply andb_true_intro; split; lia.
Qed.

Lemma length_realloc {A} (junk : nat → A) cells n :
  length (realloc junk cells n) = Z.to_nat n.
Proof.
  unfold realloc. rewrite length_take, length_app, length_map, length_seq. lia.
Qed.

Lemma realloc_grow {A} (junk : nat → A) cells n :
  Z.of_nat (length cells) ≤ n →
  ∃ more, realloc junk cells n = cells ++ more.
Proof.
  intros Hn. unfold realloc. eexists.
  rewrite take_app_ge by lia. f_equal.
Qed.

Lemma shift_store_nat {A} (cells : list A) (i n : nat) x :
  (i ≤ n)%nat → (n + 1 ≤ length cells)%nat →
  take (n + 1) (<[i := x]> (take (i + 1) cells
                            ++ take (n - i) (drop i cells)
                            ++ drop (i + 1 + (n - i)) cells))
  = take i (take n cells) ++ x :: drop i (take n cells).
Proof.
  intros Hi Hn.
  destruct (lookup_lt_is_Some_2 cells i) as [y Hy]; [lia|].
  replace (i + 1)%nat with (S i) by lia.
  rewrite (take_S_r _ _ _ Hy).
  rewrite <- app_assoc. simpl.
  rewrite insert_app_r_alt by (rewrite length_take; lia).
  rewrite length_take, Nat.min_l, Nat.sub_diag by lia. simpl.
  rewrite take_take, Nat.min_l by lia.
  rewrite take_app_ge by (rewrite length_take; lia).
  rewrite length_take, Nat.min_l by lia.
  f_equal.
  replace (n + 1 - i)%nat with (S (n - i)) by lia. simpl. f_equal.
  rewrite take_app_ge by (rewrite length_take, length_drop; lia).
  rewrite length_take, length_drop, Nat.min_l, Nat.sub_diag by lia.
  rewrite take_0, app_nil_r.
  by rewrite take_drop_commute, Nat.add_comm, Nat.sub_add.
Qed.

(** Opening a gap at [i] among the first [n] cells and filling it. *)
Lemma shift_store {A} (cells c1 c2 : list A) i n x :
  0 ≤ i ≤ n →
  memmove cells (i + 1) i (n - i) = Some c1 →
  store c1 i x = Some c2 →
  length c2 = length cells
  ∧ n + 1 ≤ Z.of_nat (length cells)
  ∧ take (Z.to_nat (n + 1)) c2
    = take (Z.to_nat i) (take (Z.to_nat n) cells)
      ++ x :: drop (Z.to_nat i) (take (Z.to_nat n) cells).
Proof.
  intros Hi Hm Hs.
  apply memmove_Some in Hm as (_ & _ & _ & Hsrc & Hdst & ->).
  apply store_Some in Hs as [Hi2 ->].
  rewrite length_insert in *.
  rewrite !length_app, !length_take, !length_drop in *.
  split; [lia|]. split; [lia|].
  replace (Z.to_nat (i + 1)) with (Z.to_nat i + 1)%nat by lia.
  replace (Z.to_nat (n + 1)) with (Z.to_nat n + 1)%nat by lia.
  replace (Z.to_nat (i + 1 + (n - i)))
    with (Z.to_nat i + 1 + (Z.to_nat n - Z.to_nat i))%nat by lia.
  replace (Z.to_nat (n - i)) with (Z.to_nat n - Z.to_nat i)%nat by lia.
  apply shift_store_nat; lia.
Qed.

(** *** [_index_insert] keeps the index well formed and sorted *)

Lemma _data_search_loop_range cells data : ∀ fuel lo hi j,
  0 ≤ lo ≤ hi →
  _data_search_loop fuel cells data lo hi = Some j → lo ≤ j ≤ hi.
Proof.
  induction fuel as [|fuel IH]; intros lo hi j Hlh; simpl;
    destruct (Z.gtb_spec (hi - lo) 0) as [Hgt|Hle]; try done;
    try (intros [= <-]; lia).
  assert (Hm : lo ≤ (hi + lo) ÷ 2 < hi).
  { rewrite Z.quot_div_nonneg by lia. split.
    - apply Z.div_le_lower_bound; lia.
    - apply Z.div_lt_upper_bound; lia. }
  intros H. apply bind_Some in H as (c & Hc & H).
  destruct (data =? od_data c); [injection H as <-; lia|].
  destruct (data <? od_data c); apply IH in H; lia.
Qed.

Lemma _data_search_range b data j :
  0 ≤ bk_size b → _data_search b data = Some j → 0 ≤ j ≤ bk_size b.
Proof. intros Hs. apply _data_search_loop_range. lia. Qed.

Lemma live_length index :
  0 ≤ ix_size index ≤ Z.of_nat (length (ix_data index)) →
  Z.of_nat (length (live index)) = ix_size index.
Proof. intros H. unfold live. rewrite length_take. lia. Qed.

Lemma wf_sizes index :
  wf index → 0 ≤ ix_size index ≤ Z.of_nat (length (ix_data index)).
Proof. intros (H1 & H2 & H3 & _). lia. Qed.

Lemma new_bucket_spec h index val i index1 :
  wf index → 0 ≤ i ≤ ix_size index →
  new_bucket h index val i = Some index1 →
  ∃ b, bk_val b = val
    ∧ wf index1
    ∧ ix_size index1 = ix_size index + 1
    ∧ live index1
      = take (Z.to_nat i) (live index) ++ b :: drop (Z.to_nat i) (live index).
Proof.
  intros (Hsz & Hal & Hlen & Hbs) Hi H. unfold new_bucket in H.
  apply bind_Some in H as (data1 & Hmv & H).
  apply bind_Some in H as (data2 & Hst & H).
  injection H as <-.
  set (alloc' := if ix_size index >=? ix_alloc index
                 then ix_alloc index * 2 else ix_alloc index) in *.
  set (data0 := if ix_size index >=? ix_alloc index
                then realloc (fresh_buckets h) (ix_data index) alloc'
                else ix_data index) in *.
  assert (Hdata0 : Z.of_nat (length data0) = alloc' ∧ 1 ≤ alloc'
                   ∧ take (Z.to_nat (ix_size index)) data0 = live index).
  { unfold data0, alloc', live.
    destruct (ix_size index >=? ix_alloc index).
    - rewrite length_realloc. split; [lia|]. split; [lia|].
      destruct (realloc_grow (fresh_buckets h) (ix_data index)
        (ix_alloc index * 2)) as [more ->]; [lia|].
      rewrite take_app_le by lia. done.
    - split; [lia|]. split; [lia|done]. }
  destruct Hdata0 as (Hlen0 & Hal0 & Hlive0).
  destruct (shift_store _ _ _ _ _ _ Hi Hmv Hst) as (Hlen2 & Hfit & Htake).
  clearbody data0 alloc'.
  exists {| bk_val := val; bk_size := 0; bk_alloc := 1;
            bk_data := fresh_addr h;
            bk_cells := realloc (fresh_cells h) [] 1 |}.
  split; [|split; [|split]].
  2:{ unfold wf; simpl. rewrite Hlen2.
      split; [lia|]. split; [lia|].
      split; [lia|].
      unfold live; simpl. rewrite Htake, Hlive0.
      apply Forall_app. split; [by apply Forall_take|].
      apply Forall_cons. split; [|by apply Forall_drop].
      unfold wf_bucket. cbn [bk_size bk_alloc bk_cells].
      rewrite length_realloc. lia. }
  - reflexivity.
  - done.
  - unfold live; simpl. by rewrite Htake, Hlive0.
Qed.

Lemma add_occurrence_spec h index i new_data ret index' :
  wf index → 0 ≤ i < ix_size index →
  add_occurrence h index i new_data = Some (ret, index') →
  ret = 1
  ∧ wf index'
  ∧ ix_size index' = ix_size index
  ∧ bk_val <$> live index' = bk_val <$> live index.
Proof.
  intros Hwf Hi H. pose proof (wf_sizes _ Hwf) as Hsizes.
  destruct Hwf as (Hsz & Hal & Hlen & Hbs).
  unfold add_occurrence in H.
  apply bind_Some in H as (b & Hb & H).
  apply bind_Some in H as (j & Hj & H).
  apply bind_Some in H as (b' & Hb' & H).
  apply bind_Some in H as (data' & Hst & H).
  injection H as <- <-.
  pose proof (live_lookup _ _ _ Hb (proj2 Hi)) as Hlb.
  assert (Hwb : wf_bucket b).
  { rewrite Forall_forall in Hbs. apply Hbs.
    by eapply list_elem_of_lookup_2. }
  destruct Hwb as (Hbsz & Hbal & Hblen).
  apply _data_search_range in Hj; [|lia].
  assert (Hb'ok : wf_bucket b' ∧ bk_val b' = bk_val b).
  { destruct (if j >=? ix_size index then true else _) in Hb'.
    - apply bind_Some in Hb' as (cells1 & Hmv & Hb').
      apply bind_Some in Hb' as (cells2 & Hst2 & Hb').
      injection Hb' as <-. split; [|done].
      destruct (shift_store _ _ _ _ _ _ Hj Hmv Hst2) as (Hl2 & Hfit & _).
      unfold wf_bucket; simpl. rewrite Hl2.
      destruct (bk_size b >=? bk_alloc b).
      + rewrite length_realloc in *. lia.
      + lia.
    - apply bind_Some in Hb' as (c & Hc & Hb').
      apply bind_Some in Hb' as (cells' & Hst2 & Hb').
      injection Hb' as <-. split; [|done].
      apply store_Some in Hst2 as [_ ->].
      unfold wf_bucket; simpl. rewrite length_insert. lia. }
  destruct Hb'ok as [Hwb' Hval].
  apply store_Some in Hst as [_ ->].
  assert (Hlive : live {| ix_size := ix_size index; ix_alloc := ix_alloc index;
                          ix_data := <[Z.to_nat i:=b']> (ix_data index) |}
                  = <[Z.to_nat i := b']> (live index)).
  { unfold live; simpl. rewrite take_insert_lt by lia. done. }
  split; [done|]. split; [|split; [done|]].
  - unfold wf. rewrite Hlive. simpl. rewrite length_insert.
    repeat split; try lia. by apply Forall_insert.
  - rewrite Hlive, list_fmap_insert.
    apply list_insert_id. rewrite list_lookup_fmap, Hlb. simpl. by rewrite Hval.
Qed.

Lemma StronglySorted_insert_at {A} (R : relation A) l (i : nat) x :
  StronglySorted R l →
  (∀ k y, (k < i)%nat → l !! k = Some y → R y x) →
  (∀ k y, (i ≤ k)%nat → l !! k = Some y → R x y) →
  StronglySorted R (take i l ++ x :: drop i l).
Proof.
  intros Hs Hbefore Hafter.
  rewrite <- (take_drop i l) in Hs.
  apply StronglySorted_app in Hs as (Hcross & Hl & Hr).
  apply StronglySorted_app_2; [|done|].
  - intros x1 x2 H1 H2.
    apply elem_of_cons in H2 as [->|H2]; [|by apply Hcross].
    apply elem_of_take in H1 as (k & Hk & Hlt). by apply (Hbefore k).
  - apply StronglySorted_cons. split; [|done].
    apply Forall_forall. intros y Hy.
    apply list_elem_of_lookup in Hy as [k Hk].
    rewrite lookup_drop in Hk. apply (Hafter (i + k)%nat); [lia|done].
Qed.

Lemma no_bucket_at_true index val i :
  no_bucket_at index (_val_comp val) i = Some true →
  bsearch_result index (λ v, _val_comp v val) i →
  (∀ k x, k < i → cell (ix_data index) k = Some x →
          val_lt (bk_val x) val)
  ∧ (∀ k x, i ≤ k < ix_size index → cell (ix_data index) k = Some x →
            val_lt val (bk_val x)).
Proof.
  unfold no_bucket_at. intros Hmiss (Hi & [(x & Hlt & Hx & Hz)|[Hneg Hpos]]).
  - destruct (Z.geb_spec i (ix_size index)); [lia|].
    rewrite Hx in Hmiss. simpl in Hmiss.
    rewrite (_val_comp_antisym (bk_val x) val), Hz in Hmiss. done.
  - split; intros k x Hk Hx.
    + apply _val_comp_lt. by apply (Hneg k).
    + apply _val_comp_gt. by apply (Hpos k).
Qed.

Lemma no_bucket_at_false index func i :
  no_bucket_at index func i = Some false → i < ix_size index.
Proof.
  unfold no_bucket_at. destruct (Z.geb_spec i (ix_size index)); [done|lia].
Qed.

Lemma live_cell index k x :
  live index !! k = Some x →
  cell (ix_data index) (Z.of_nat k) = Some x ∧ Z.of_nat k < ix_size index.
Proof.
  unfold live. rewrite lookup_take_Some. intros [Hl Hk].
  rewrite cell_Some, Nat2Z.id. split; [split; [lia|done]|lia].
Qed.

(** [_index_insert] keeps a well-formed index well formed and a sorted
    one sorted, whatever the heap holds. *)
Lemma _index_insert_invariant h index val new_data ret index' :
  wf index → sorted index →
  _index_insert h index val new_data = Some (ret, index') →
  ret = 1 ∧ wf index' ∧ sorted index'.
Proof.
  intros Hwf Hs H. unfold _index_insert in H.
  apply bind_Some in H as (i & Hbs & H).
  apply bind_Some in H as (miss & Hmiss & H).
  apply bind_Some in H as (index1 & H1 & H).
  destruct (_bsearch_spec index (λ v, _val_comp v val) (wf_sizes _ Hwf))
    as (i' & Hbs' & Hres).
  { apply monotone_sorted; [apply _val_comp_monotone|done]. }
  assert (i' = i) as -> by congruence.
  pose proof (proj1 Hres) as Hi.
  destruct miss.
  - destruct (no_bucket_at_true _ _ _ Hmiss Hres) as [Hbefore Hafter].
    destruct (new_bucket_spec _ _ _ _ _ Hwf (proj1 Hres) H1)
      as (b & Hval & Hwf1 & Hsz1 & Hlive1).
    destruct (add_occurrence_spec h index1 i new_data ret index' Hwf1)
      as (-> & Hwf' & _ & Hvals); [lia|done|].
    split; [done|]. split; [done|].
    unfold sorted. rewrite Hvals, Hlive1.
    rewrite fmap_app, fmap_cons, fmap_take, fmap_drop, Hval.
    apply StronglySorted_insert_at; [exact Hs| |].
    + intros k y Hk Hy. rewrite list_lookup_fmap in Hy.
      destruct (live index !! k) as [x|] eqn:Hx; [|done].
      injection Hy as <-. apply live_cell in Hx as [Hx _].
      apply (Hbefore (Z.of_nat k)); [lia|done].
    + intros k y Hk Hy. rewrite list_lookup_fmap in Hy.
      destruct (live index !! k) as [x|] eqn:Hx; [|done].
      injection Hy as <-. apply live_cell in Hx as [Hx Hlt].
      apply (Hafter (Z.of_nat k)); [lia|done].
  - injection H1 as <-.
    apply no_bucket_at_false in Hmiss.
    destruct (add_occurrence_spec h index i new_data ret index' Hwf)
      as (-> & Hwf' & _ & Hvals); [lia|done|].
    split; [done|]. split; [done|].
    unfold sorted. by rewrite Hvals.
Qed.

Lemma _data_search_loop_is_Some cells data : ∀ fuel lo hi,
  0 ≤ lo ≤ hi → hi ≤ Z.of_nat (length cells) → hi - lo ≤ Z.of_nat fuel →
  is_Some (_data_search_loop fuel cells data lo hi).
Proof.
  induction fuel as [|fuel IH]; intros lo hi Hlh Hhi Hfuel; simpl;
    destruct (Z.gtb_spec (hi - lo) 0) as [Hgt|Hle]; try done; try lia.
  assert (Hm : lo ≤ (hi + lo) ÷ 2 < hi).
  { rewrite Z.quot_div_nonneg by lia. split.
    - apply Z.div_le_lower_bound; lia.
    - apply Z.div_lt_upper_bound; lia. }
  destruct (cell_is_Some cells ((hi + lo) ÷ 2)) as [c Hc]; [lia|].
  rewrite Hc. simpl.
  destruct (data =? od_data c); [done|].
  destruct (data <? od_data c); apply IH; lia.
Qed.

Lemma _data_search_is_Some b data :
  wf_bucket b → is_Some (_data_search b data).
Proof.
  intros (Hsz & Hal & Hlen). apply _data_search_loop_is_Some; lia.
Qed.

Lemma live_wf_bucket index i b :
  wf index → 0 ≤ i < ix_size index →
  cell (ix_data index) i = Some b → wf_bucket b.
Proof.
  intros (_ & _ & _ & Hbs) Hi Hb.
  rewrite Forall_forall in Hbs. apply Hbs.
  eapply list_elem_of_lookup_2, live_lookup; [done|lia].
Qed.

Lemma no_bucket_at_is_Some index func i :
  0 ≤ i → ix_size index ≤ Z.of_nat (length (ix_data index)) →
  is_Some (no_bucket_at index func i).
Proof.
  intros Hi Hlen. unfold no_bucket_at.
  destruct (Z.geb_spec i (ix_size index)); [done|].
  destruct (cell_is_Some (ix_data index) i) as [b ->]; [lia|]. done.
Qed.

(** [_index_delete] goes past its second guard only when [new_data]
    is the address of the block of occurrences of the bucket found:
    for any other ref it returns 0 and leaves the index as it is. *)
Lemma _index_delete_guard index val new_data :
  wf index → sorted index →
  (∀ b, b ∈ live index → bk_data b ≠ new_data) →
  _index_delete index val new_data = Some (0, index).
Proof.
  intros Hwf Hs Hne. unfold _index_delete.
  destruct (_bsearch_spec index (λ v, _val_comp v val) (wf_sizes _ Hwf))
    as (i & -> & Hi & _).
  { apply monotone_sorted; [apply _val_comp_monotone|done]. }
  simpl.
  destruct (no_bucket_at_is_Some index (_val_comp val) i) as [miss Hmiss];
    [lia|apply (wf_sizes _ Hwf)|].
  rewrite Hmiss. simpl. destruct miss; [done|].
  apply no_bucket_at_false in Hmiss.
  destruct (cell_is_Some (ix_data index) i) as [b Hb];
    [pose proof (wf_sizes _ Hwf); lia|].
  rewrite Hb. simpl.
  destruct (_data_search_is_Some b new_data) as [j ->];
    [by apply (live_wf_bucket index i); [|lia|]|].
  simpl.
  assert (bk_data b ≠ new_data) as Hb'.
  { apply Hne. eapply list_elem_of_lookup_2, live_lookup; [done|lia]. }
  destruct (Z.eqb_spec new_data (bk_data b)) as [->|_]; [done|].
  by rewrite orb_true_r.
Qed.

Lemma new_bucket_is_Some h index val i :
  wf index → 0 ≤ i ≤ ix_size index → is_Some (new_bucket h index val i).
Proof.
  intros (Hsz & Hal & Hlen & _) Hi. unfold new_bucket.
  set (alloc' := if ix_size index >=? ix_alloc index
                 then ix_alloc index * 2 else ix_alloc index).
  set (data0 := if ix_size index >=? ix_alloc index
                then realloc (fresh_buckets h) (ix_data index) alloc'
                else ix_data index).
  assert (Hfit : ix_size index + 1 ≤ Z.of_nat (length data0)).
  { unfold data0, alloc'.
    destruct (Z.geb_spec (ix_size index) (ix_alloc index)).
    - rewrite length_realloc. lia.
    - lia. }
  clearbody data0 alloc'.
  destruct (memmove_is_Some data0 (i + 1) i (ix_size index - i))
    as [data1 Hmv]; try lia.
  rewrite Hmv. simpl.
  apply memmove_Some in Hmv as (_ & _ & _ & _ & _ & ->).
  match goal with |- is_Some (store ?l ?i ?x ≫= _) =>
    destruct (store_is_Some l i x) as [data2 ->] end; [|done].
  rewrite !length_app, !length_take, !length_drop. lia.
Qed.

Lemma add_occurrence_is_Some h index i new_data :
  wf index → 0 ≤ i < ix_size index →
  od_data (beyond h) ≠ new_data →
  is_Some (add_occurrence h index i new_data).
Proof.
  intros Hwf Hi Hbeyond. pose proof (wf_sizes _ Hwf) as Hsizes.
  unfold add_occurrence.
  destruct (cell_is_Some (ix_data index) i) as [b Hb]; [lia|].
  rewrite Hb. simpl.
  pose proof (live_wf_bucket _ _ _ Hwf Hi Hb) as Hwb.
  destruct (_data_search_is_Some b new_data Hwb) as [j Hj].
  rewrite Hj. simpl.
  apply _data_search_range in Hj; [|apply Hwb].
  destruct Hwb as (Hbsz & Hbal & Hblen).
  assert (Hst : ∀ b', is_Some (store (ix_data index) i b' ≫= λ data',
    Some (1, {| ix_size := ix_size index; ix_alloc := ix_alloc index;
                ix_data := data' |}))).
  { intros b'. destruct (store_is_Some (ix_data index) i b') as [d ->];
      [lia|done]. }
  destruct (if j >=? ix_size index then true else _) eqn:Habsent.
  - set (cells0 := if bk_size b >=? bk_alloc b
                   then realloc (fresh_cells h) (bk_cells b)
                          (if bk_size b >=? bk_alloc b
                           then bk_alloc b * 2 else bk_alloc b)
                   else bk_cells b).
    assert (Hfit : bk_size b + 1 ≤ Z.of_nat (length cells0)).
    { unfold cells0. destruct (Z.geb_spec (bk_size b) (bk_alloc b)).
      - rewrite length_realloc. lia.
      - lia. }
    clearbody cells0.
    destruct (memmove_is_Some cells0 (j + 1) j (bk_size b - j))
      as [cells1 Hmv]; try lia.
    rewrite Hmv. simpl.
    apply memmove_Some in Hmv as (_ & _ & _ & _ & _ & ->).
    match goal with |- is_Some ((store ?l ?i ?x ≫= _) ≫= _) =>
      destruct (store_is_Some l i x) as [cells2 ->] end.
    { rewrite !length_app, !length_take, !length_drop. lia. }
    simpl. apply Hst.
  - destruct (Z.geb_spec j (ix_size index)); [done|].
    destruct (cell (bk_cells b) j) as [c|] eqn:Hc; simpl in *.
    + pose proof (cell_lt_length _ _ _ Hc).
      destruct (store_is_Some (bk_cells b) j
        {| od_data := od_data c; od_count := od_count c + 1 |})
        as [cells' ->]; [lia|].
      simpl. apply Hst.
    + apply negb_false_iff, Z.eqb_eq in Habsent. congruence.
Qed.

(** Unless the memory right after a block happens to hold the very ref
    being inserted, [_index_insert] stays inside its blocks. *)
Lemma _index_insert_is_Some h index val new_data :
  wf index → sorted index → od_data (beyond h) ≠ new_data →
  is_Some (_index_insert h index val new_data).
Proof.
  intros Hwf Hs Hbeyond. unfold _index_insert.
  destruct (_bsearch_spec index (λ v, _val_comp v val) (wf_sizes _ Hwf))
    as (i & -> & Hi & _).
  { apply monotone_sorted; [apply _val_comp_monotone|done]. }
  simpl.
  destruct (no_bucket_at_is_Some index (_val_comp val) i) as [miss Hmiss];
    [lia|apply (wf_sizes _ Hwf)|].
  rewrite Hmiss. simpl. destruct miss.
  - destruct (new_bucket_is_Some h index val i Hwf Hi) as [index1 H1].
    rewrite H1. simpl.
    destruct (new_bucket_spec _ _ _ _ _ Hwf Hi H1) as (b & _ & Hwf1 & Hsz1 & _).
    apply add_occurrence_is_Some; [done|lia|done].
  - simpl. apply no_bucket_at_false in Hmiss.
    apply add_occurrence_is_Some; [done|lia|done].
Qed.

(** *** Sequences of insertions and deletions *)

(** One call on the index: [_index_insert], or [_index_delete] for a
    relation ref. A relation ref is the address of a relation record,
    a live object of its own: it is the address of none of the blocks
    of occurrences of the index. *)
Inductive step : s4_index_t → s4_index_t → Prop :=
| step_insert h index val new_data ret index' :
    _index_insert h index val new_data = Some (ret, index') →
    step index index'
| step_delete index val new_data ret index' :
    (∀ b, b ∈ live index → bk_data b ≠ new_data) →
    _index_delete index val new_data = Some (ret, index') →
    step index index'.

Lemma step_invariant index index' :
  wf index → sorted index → step index index' → wf index' ∧ sorted index'.
Proof.
  intros Hwf Hs Hstep.
  inversion Hstep as [h ix val r ret ix' H|ix val r ret ix' Hne H]; subst.
  - by destruct (_index_insert_invariant _ _ _ _ _ _ Hwf Hs H) as (_ & ? & ?).
  - rewrite (_index_delete_guard _ val r Hwf Hs Hne) in H.
    by injection H as _ <-.
Qed.

Lemma _index_create_wf h : wf (_index_create h) ∧ sorted (_index_create h).
Proof.
  split.
  - unfold wf, _index_create, live; simpl. repeat split; try lia.
    constructor.
  - unfold sorted, live; simpl. constructor.
Qed.

(** C7. Every sequence of [_index_insert] and [_index_delete] calls
    keeps the bucket array strictly sorted by value in the canonical
    order (every int before every string, ints numerically, strings
    byte-wise), together with the fit of the sizes in their blocks;
    and from the index it ends in, a further [_index_insert] stays
    defined and a further [_index_delete] of a relation ref returns
    with the index as it is. *)
Theorem index_sorted_invariant index index' :
  wf index → sorted index → rtc step index index' →
  wf index' ∧ sorted index'
  ∧ (∀ h val new_data, od_data (beyond h) ≠ new_data →
       ∃ index'', _index_insert h index' val new_data = Some (1, index'')
                  ∧ sorted index'')
  ∧ (∀ val new_data, (∀ b, b ∈ live index' → bk_data b ≠ new_data) →
       _index_delete index' val new_data = Some (0, index')).
Proof.
  intros Hwf Hs Hsteps.
  assert (Hinv : wf index' ∧ sorted index').
  { induction Hsteps as [ix|ix ix1 ix2 Hstep _ IH]; [done|].
    destruct (step_invariant _ _ Hwf Hs Hstep). by apply IH. }
  destruct Hinv as [Hwf' Hs']. split; [done|]. split; [done|]. split.
  - intros h val r Hr.
    destruct (_index_insert_is_Some h index' val r Hwf' Hs' Hr)
      as [[ret ix''] Hins].
    destruct (_index_insert_invariant _ _ _ _ _ _ Hwf' Hs' Hins)
      as (-> & _ & Hs'').
    by exists ix''.
  - intros val r Hne. by apply _index_delete_guard.
Qed.

(** The heap of the examples: blocks are handed out at [addr] and hold
    zeroes. *)
Definition zero_heap (addr : Z) : heap_t :=
  {| fresh_addr := addr;
     fresh_cells := λ _, {| od_data := 0; od_count := 0 |};
     fresh_buckets := λ _, {| bk_val := S4Int 0; bk_size := 0;
                              bk_alloc := 0; bk_data := 0;
                              bk_cells := [] |};
     beyond := {| od_data := 0; od_count := 0 |} |}.

Definition bucket_of (val : s4_val_t) (addr : Z) (ref : Z) : index_t :=
  {| bk_val := val; bk_size := 1; bk_alloc := 1; bk_data := addr;
     bk_cells := [{| od_data := ref; od_count := 1 |}] |}.

(** Three values entered out of order, then a delete. *)
Definition three_buckets : s4_index_t :=
  {| ix_size := 3; ix_alloc := 4;
     ix_data := [bucket_of (S4Int 7) 12288 4112;
                 bucket_of (S4Str "a") 16384 4128;
                 bucket_of (S4Str "b") 8192 4096;
                 fresh_buckets (zero_heap 0) 3%nat] |}.

Lemma index_sorted_invariant_witness : sorted three_buckets.
Proof.
  destruct (_index_create_wf (zero_heap 0)) as [Hwf Hs].
  apply (index_sorted_invariant (_index_create (zero_heap 0)) three_buckets
           Hwf Hs).
  eapply rtc_l.
  { eapply (step_insert (zero_heap 8192) _ (S4Str "b") 4096).
    vm_compute. reflexivity. }
  eapply rtc_l.
  { eapply (step_insert (zero_heap 12288) _ (S4Int 7) 4112).
    vm_compute. reflexivity. }
  eapply rtc_l.
  { eapply (step_insert (zero_heap 16384) _ (S4Str "a") 4128).
    vm_compute. reflexivity. }
  eapply rtc_l; [|apply rtc_refl].
  eapply (step_delete _ (S4Str "a") 4128 0); [|vm_compute; reflexivity].
  intros b Hb. vm_compute in Hb.
  repeat (apply elem_of_cons in Hb as [->|Hb]; [done|]).
  by apply elem_of_nil in Hb.
Defined.

(** *** The defects of the remove path and of the occurrence guard *)

(** The index holding one relation under the value ["a"]. *)
Definition one_relation : s4_index_t :=
  {| ix_size := 1; ix_alloc := 1;
     ix_data := [bucket_of (S4Str "a") 8192 4096] |}.

(** C1, on the code as it is. After the relation at address 4096 has
    been inserted under ["a"], [_index_delete] for the same value and
    ref returns 0 and leaves the occurrence, with its count of 1, and
    the bucket where they are: line 157 compares the ref with
    [index->data[i].data], the address of the block of occurrences,
    and not with the ref of the occurrence found. *)
Theorem index_delete_keeps_occurrence :
  _index_insert (zero_heap 8192) (_index_create (zero_heap 0))
    (S4Str "a") 4096 = Some (1, one_relation)
  ∧ _index_delete one_relation (S4Str "a") 4096 = Some (0, one_relation)
  ∧ occurrences <$> live one_relation
    = [[{| od_data := 4096; od_count := 1 |}]].
Proof. by vm_compute. Qed.

(** One bucket with the relations at 30 and 20, as two insertions under
    the value 5 leave it. *)
Definition two_relations : s4_index_t :=
  {| ix_size := 1; ix_alloc := 1;
     ix_data := [{| bk_val := S4Int 5; bk_size := 2; bk_alloc := 2;
                    bk_data := 8192;
                    bk_cells := [{| od_data := 30; od_count := 1 |};
                                 {| od_data := 20; od_count := 1 |}] |}] |}.

(** C6, on the code as it is. In an index of one bucket, inserting
    again the relation at 20, which the bucket holds at position 1,
    adds a second occurrence for it and increments no count: the guard
    of line 130 compares the position with [index->size], the number
    of buckets, and not with the number of occurrences of the
    bucket. *)
Theorem index_insert_duplicates_occurrence :
  (∃ index1,
     _index_insert (zero_heap 4096) (_index_create (zero_heap 0))
       (S4Int 5) 30 = Some (1, index1)
     ∧ _index_insert (zero_heap 8192) index1 (S4Int 5) 20
       = Some (1, two_relations))
  ∧ ∃ index',
      _index_insert (zero_heap 12288) two_relations (S4Int 5) 20
        = Some (1, index')
      ∧ occurrences <$> live index'
        = [[{| od_data := 30; od_count := 1 |};
            {| od_data := 20; od_count := 1 |};
            {| od_data := 20; od_count := 1 |}]].
Proof.
  split.
  - eexists. split; vm_compute; reflexivity.
  - eexists. split; vm_compute; reflexivity.
Qed.

(** *** [_index_search] *)

Lemma _scan_down_spec index func :
  ix_size index ≤ Z.of_nat (length (ix_data index)) →
  ∀ fuel i, -1 ≤ i < ix_size index → i + 1 ≤ Z.of_nat fuel →
    ∃ lo, _scan_down fuel (ix_data index) func i = Some lo
      ∧ -1 ≤ lo ≤ i
      ∧ (∀ k x, lo < k ≤ i → cell (ix_data index) k = Some x →
                func (bk_val x) = 0)
      ∧ (0 ≤ lo → ∃ x, cell (ix_data index) lo = Some x
                       ∧ func (bk_val x) ≠ 0).
Proof.
  intros Hlen. induction fuel as [|fuel IH]; intros i Hi Hfuel.
  - assert (i = -1) as -> by lia. simpl. exists (-1).
    split; [done|]. split; [lia|]. split; intros; lia.
  - simpl. destruct (Z.geb_spec i 0) as [Hge|Hlt].
    + destruct (cell_is_Some (ix_data index) i) as [b Hb]; [lia|].
      rewrite Hb. simpl.
      destruct (Z.eqb_spec (func (bk_val b)) 0) as [Hz|Hnz].
      * destruct (IH (i - 1)) as (lo & Hlo & Hr & Hzero & Hstop); try lia.
        exists lo. split; [done|]. split; [lia|]. split; [|done].
        intros k x Hk Hx. destruct (decide (k = i)) as [->|Hne].
        -- by assert (x = b) as -> by congruence.
        -- apply (Hzero k); [lia|done].
      * exists i. split; [done|]. split; [lia|].
        split; [intros k x Hk; lia|]. intros _. by exists b.
    + assert (i = -1) as -> by lia. exists (-1).
      split; [done|]. split; [lia|]. split; intros; lia.
Qed.

Lemma _collect_bucket_spec b : 
  0 ≤ bk_size b ≤ Z.of_nat (length (bk_cells b)) →
  ∀ fuel j found, 0 ≤ j ≤ bk_size b → bk_size b - j ≤ Z.of_nat fuel →
    ∃ found', _collect_bucket fuel b j found = Some found'
      ∧ ∀ r, r ∈ found' ↔
             r ∈ found ∨ ∃ k c, j ≤ k < bk_size b
                                ∧ cell (bk_cells b) k = Some c
                                ∧ od_data c = r.
Proof.
  intros Hsz. induction fuel as [|fuel IH]; intros j found Hj Hfuel; simpl.
  - destruct (Z.ltb_spec j (bk_size b)); [lia|].
    exists found. split; [done|]. intros r. split; [auto|].
    intros [?|(k & c & Hk & _)]; [done|lia].
  - destruct (Z.ltb_spec j (bk_size b)) as [Hlt|Hge].
    + destruct (cell_is_Some (bk_cells b) j) as [c Hc]; [lia|].
      rewrite Hc. simpl.
      destruct (IH (j + 1) ({[od_data c]} ∪ found)) as (found' & -> & Hin);
        try lia.
      exists found'. split; [done|]. intros r. rewrite Hin.
      rewrite elem_of_union, elem_of_singleton. split.
      * intros [[->|Hr]|(k & c' & Hk & Hc' & Hr)].
        -- right. exists j, c. split; [lia|done].
        -- by left.
        -- right. exists k, c'. split; [lia|done].
      * intros [Hr|(k & c' & Hk & Hc' & Hr)]; [by left; right|].
        destruct (decide (k = j)) as [->|Hne].
        -- left; left. congruence.
        -- right. exists k, c'. split; [lia|done].
    + exists found. split; [done|]. intros r. split; [auto|].
      intros [?|(k & c & Hk & _)]; [done|lia].
Qed.

Lemma _collect_spec index func :
  wf index →
  ∀ fuel i found, 0 ≤ i ≤ ix_size index →
    ix_size index - i ≤ Z.of_nat fuel →
    ∃ found' hi, _collect fuel index func i found = Some found'
      ∧ i ≤ hi ≤ ix_size index
      ∧ (∀ k x, i ≤ k < hi → cell (ix_data index) k = Some x →
                func (bk_val x) = 0)
      ∧ (hi < ix_size index → ∃ x, cell (ix_data index) hi = Some x
                                   ∧ func (bk_val x) ≠ 0)
      ∧ ∀ r, r ∈ found' ↔
             r ∈ found ∨ ∃ k b c, i ≤ k < hi
                                  ∧ cell (ix_data index) k = Some b
                                  ∧ c ∈ occurrences b ∧ od_data c = r.
Proof.
  intros Hwf. pose proof (wf_sizes _ Hwf) as Hsizes.
  induction fuel as [|fuel IH]; intros i found Hi Hfuel; simpl.
  - destruct (Z.ltb_spec i (ix_size index)); [lia|].
    exists found, i. split; [done|]. split; [lia|].
    split; [intros; lia|]. split; [intros; lia|].
    intros r. split; [auto|].
    intros [?|(k & b & c & Hk & _)]; [done|lia].
  - destruct (Z.ltb_spec i (ix_size index)) as [Hlt|Hge].
    2:{ exists found, i. split; [done|]. split; [lia|].
        split; [intros; lia|]. split; [intros; lia|].
        intros r. split; [auto|].
        intros [?|(k & b & c & Hk & _)]; [done|lia]. }
    destruct (cell_is_Some (ix_data index) i) as [b Hb]; [lia|].
    rewrite Hb. simpl.
    destruct (Z.eqb_spec (func (bk_val b)) 0) as [Hz|Hnz].
    2:{ exists found, i. split; [done|]. split; [lia|].
        split; [intros; lia|]. split; [intros _; by exists b|].
        intros r. split; [auto|].
        intros [?|(k & b' & c & Hk & _)]; [done|lia]. }
    assert (Hwb : wf_bucket b) by (by apply (live_wf_bucket index i); [|lia|]).
    destruct Hwb as (Hbsz & Hbal & Hblen).
    destruct (_collect_bucket_spec b ltac:(lia) (Z.to_nat (bk_size b)) 0 found)
      as (found1 & -> & Hin1); try lia.
    simpl.
    destruct (IH (i + 1) found1) as (found' & hi & -> & Hhi & Hzero & Hstop & Hin);
      try lia.
    exists found', hi. split; [done|]. split; [lia|]. split; [|split; [done|]].
    + intros k x Hk Hx. destruct (decide (k = i)) as [->|Hne].
      * by assert (x = b) as -> by congruence.
      * apply (Hzero k); [lia|done].
    + intros r. rewrite Hin, Hin1. split.
      * intros [[Hr|(k & c & Hk & Hc & Hr)]|(k & b' & c & Hk & Hb' & Hc & Hr)].
        -- by left.
        -- right. exists i, b, c. split; [lia|]. split; [done|].
           split; [|done]. unfold occurrences. apply elem_of_take. exists (Z.to_nat k).
           apply cell_Some in Hc as [_ Hc]. split; [done|lia].
        -- right. exists k, b', c. split; [lia|done].
      * intros [Hr|(k & b' & c & Hk & Hb' & Hc & Hr)]; [by left; left|].
        destruct (decide (k = i)) as [->|Hne].
        -- assert (b' = b) as -> by congruence. left; right.
           unfold occurrences in Hc. apply elem_of_take in Hc as (n & Hn & Hnlt).
           exists (Z.of_nat n), c. split; [lia|]. split; [|done].
           rewrite cell_Some, Nat2Z.id. split; [lia|done].
        -- right. exists k, b', c. split; [lia|done].
Qed.

Lemma no_bucket_at_Some index func i miss :
  no_bucket_at index func i = Some miss →
  (miss = true ∧ (ix_size index ≤ i
                  ∨ ∃ b, cell (ix_data index) i = Some b
                         ∧ func (bk_val b) ≠ 0))
  ∨ (miss = false ∧ i < ix_size index
     ∧ ∃ b, cell (ix_data index) i = Some b ∧ func (bk_val b) = 0).
Proof.
  unfold no_bucket_at. destruct (Z.geb_spec i (ix_size index)).
  - intros [= <-]. left. split; [done|by left].
  - intros Hnb. apply bind_Some in Hnb as (b & Hb & Hnb').
    injection Hnb' as <-.
    destruct (Z.eqb_spec (func (bk_val b)) 0); simpl.
    + right. split; [done|]. split; [lia|]. by exists b.
    + left. split; [done|]. right. by exists b.
Qed.

Lemma elem_of_live index b :
  b ∈ live index ↔
  ∃ k, 0 ≤ k < ix_size index ∧ cell (ix_data index) k = Some b.
Proof.
  split.
  - intros [n Hn]%list_elem_of_lookup. apply live_cell in Hn as [Hc Hlt].
    exists (Z.of_nat n). split; [lia|done].
  - intros (k & Hk & Hc). eapply list_elem_of_lookup_2, live_lookup; [done|lia].
Qed.

(** C8. In a well-formed index that is strictly sorted in the canonical
    order, for a callback that is monotone along that order,
    [_index_search] returns a list without repetition whose members are
    exactly the relation refs occurring in the buckets whose value the
    callback is zero on; it returns the empty list ([NULL]) when the
    callback is zero on no bucket. *)
Theorem index_search_exact index func func_data :
  wf index → sorted index → monotone (callback func func_data) →
  ∃ refs,
    _index_search index func func_data = Some refs
    ∧ NoDup refs
    ∧ (∀ r, r ∈ refs ↔
            ∃ b c, b ∈ live index
                   ∧ callback func func_data (bk_val b) = 0
                   ∧ c ∈ occurrences b ∧ od_data c = r)
    ∧ ((∀ b, b ∈ live index → callback func func_data (bk_val b) ≠ 0) →
       refs = []).
Proof.
  intros Hwf Hs Hmono. unfold _index_search.
  set (f := callback func func_data) in *.
  pose proof (wf_sizes _ Hwf) as Hsizes.
  pose proof (monotone_sorted f index Hmono Hs) as Halong.
  destruct (_bsearch_spec index f Hsizes Halong) as (i & -> & Hi & Hres).
  simpl.
  destruct (no_bucket_at_is_Some index f i) as [miss Hmiss]; [lia..|].
  rewrite Hmiss. simpl.
  apply no_bucket_at_Some in Hmiss
    as [[-> Hnone]|(-> & Hlt & b0 & Hb0 & Hz0)].
  - (* the callback is zero on no bucket *)
    assert (Hnz : ∀ b, b ∈ live index → f (bk_val b) ≠ 0).
    { destruct Hres as [(x & Hlt & Hx & Hz)|[Hneg Hpos]].
      { destruct Hnone as [Hge|(b & Hb & Hnz)]; [exfalso; lia|congruence]. }
      intros b (k & Hk & Hb)%elem_of_live.
      destruct (Z_lt_le_dec k i).
      - pose proof (Hneg k b ltac:(lia) Hb). lia.
      - pose proof (Hpos k b ltac:(lia) Hb). lia. }
    exists []. split; [done|]. split; [constructor|]. split; [|done].
    intros r. split; [by intros ?%elem_of_nil|].
    intros (b & c & Hb & Hz & _). by destruct (Hnz b).
  - (* the callback is zero on the bucket at [i] *)
    destruct (_scan_down_spec index f (proj2 Hsizes) (Z.to_nat (i + 1)) i)
      as (lo & -> & Hlo & Hzl & Hstopl); [lia..|].
    simpl.
    destruct (_collect_spec index f Hwf (Z.to_nat (ix_size index))
                (lo + 1) ∅)
      as (found & hi & -> & Hhi & Hzr & Hstopr & Hin); [lia..|].
    simpl. exists (elements found).
    split; [done|]. split; [apply NoDup_elements|].
    assert (Hzero : ∀ k b, 0 ≤ k < ix_size index →
              cell (ix_data index) k = Some b →
              f (bk_val b) = 0 → lo < k < hi).
    { intros k b Hk Hb Hz. split.
      - destruct (Z_lt_le_dec lo k); [done|].
        destruct Hstopl as (x & Hx & Hnz); [lia|].
        destruct (decide (k = lo)) as [->|Hne]; [congruence|].
        assert (lo ≠ i) by (intros ->; congruence).
        pose proof (Halong k lo b x ltac:(lia) ltac:(lia) Hb Hx).
        pose proof (Halong lo i x b0 ltac:(lia) ltac:(lia) Hx Hb0). lia.
      - destruct (Z_lt_le_dec k hi); [done|].
        destruct Hstopr as (x & Hx & Hnz); [lia|].
        destruct (decide (k = hi)) as [->|Hne]; [congruence|].
        assert (i < hi).
        { destruct (Z_lt_le_dec i hi); [done|].
          exfalso. apply Hnz. apply (Hzl hi); [lia|done]. }
        pose proof (Halong i hi b0 x ltac:(lia) ltac:(lia) Hb0 Hx).
        pose proof (Halong hi k x b ltac:(lia) ltac:(lia) Hx Hb). lia. }
    split.
    + intros r. rewrite elem_of_elements, Hin. split.
      * intros [Hr|(k & b & c & Hk & Hb & Hc & Hr)]; [by apply elem_of_empty in Hr|].
        exists b, c. split; [apply elem_of_live; exists k; split; [lia|done]|].
        split; [|done]. apply (Hzr k); [lia|done].
      * intros (b & c & (k & Hk & Hb)%elem_of_live & Hz & Hc & Hr).
        right. exists k, b, c. split; [|done].
        pose proof (Hzero k b Hk Hb Hz). lia.
    + intros Hnz. destruct (Hnz b0); [|done].
      apply elem_of_live. exists i. split; [lia|done].
Qed.

Lemma three_buckets_wf_sorted : wf three_buckets ∧ sorted three_buckets.
Proof.
  split.
  - unfold wf, three_buckets, live; simpl.
    repeat split; try lia.
    repeat constructor; unfold wf_bucket; simpl; lia.
  - unfold sorted, three_buckets, live; simpl.
    repeat constructor; apply _val_comp_lt; reflexivity.
Qed.

Lemma index_search_exact_witness :
  ∃ refs, _index_search three_buckets None (S4Str "a") = Some refs
          ∧ NoDup refs ∧ (4128 ∈ refs) ∧ (4096 ∉ refs).
Proof.
  destruct three_buckets_wf_sorted as [Hwf Hs].
  destruct (index_search_exact three_buckets None (S4Str "a") Hwf Hs
              (_val_comp_monotone (S4Str "a")))
    as (refs & Hrefs & Hnd & Hin & _).
  exists refs. split; [exact Hrefs|]. split; [exact Hnd|]. split.
  - apply Hin. exists (bucket_of (S4Str "a") 16384 4128),
      {| od_data := 4128; od_count := 1 |}.
    split; [|split; [reflexivity|split; [|reflexivity]]].
    + unfold three_buckets, live; simpl.
      apply elem_of_cons; right. apply elem_of_cons; by left.
    + by apply list_elem_of_singleton.
  - intros Hr0. apply Hin in Hr0 as (b & c & Hb & Hz & Hc & Hr).
    unfold three_buckets, live in Hb; simpl in Hb.
    repeat (apply elem_of_cons in Hb as [->|Hb];
            [first [by vm_compute in Hz
                   |change (occurrences _) with [mk_index_data 4128 1] in Hc;
                    apply list_elem_of_singleton in Hc; subst c;
                    by vm_compute in Hr
                   |change (occurrences _) with [mk_index_data 4096 1] in Hc;
                    apply list_elem_of_singleton in Hc; subst c;
                    by vm_compute in Hz]|]).
    by apply elem_of_nil in Hb.
Defined.

(** *** What an insertion does to the content of the index *)

(** The bucket [_index_insert] opens for a value. *)
Definition fresh_bucket (h : heap_t) (val : s4_val_t) : index_t :=
  {| bk_val := val; bk_size := 0; bk_alloc := 1; bk_data := fresh_addr h;
     bk_cells := realloc (fresh_cells h) [] 1 |}.

Lemma new_bucket_live h index val i index1 :
  wf index → 0 ≤ i ≤ ix_size index →
  new_bucket h index val i = Some index1 →
  live index1
  = take (Z.to_nat i) (live index)
    ++ fresh_bucket h val :: drop (Z.to_nat i) (live index).
Proof.
  intros (Hsz & Hal & Hlen & Hbs) Hi H. unfold new_bucket in H.
  apply bind_Some in H as (data1 & Hmv & H).
  apply bind_Some in H as (data2 & Hst & H).
  injection H as <-.
  set (alloc' := if ix_size index >=? ix_alloc index
                 then ix_alloc index * 2 else ix_alloc index) in *.
  set (data0 := if ix_size index >=? ix_alloc index
                then realloc (fresh_buckets h) (ix_data index) alloc'
                else ix_data index) in *.
  assert (Hlive0 : take (Z.to_nat (ix_size index)) data0 = live index).
  { unfold data0, alloc', live.
    destruct (ix_size index >=? ix_alloc index); [|done].
    destruct (realloc_grow (fresh_buckets h) (ix_data index)
      (ix_alloc index * 2)) as [more ->]; [lia|].
    rewrite take_app_le by lia. done. }
  destruct (shift_store _ _ _ _ _ _ Hi Hmv Hst) as (_ & _ & Htake).
  unfold live at 1; simpl. by rewrite Htake, Hlive0.
Qed.

(** What [add_occurrence] does to the bucket at [i]: a new occurrence
    with count 1 at the position [_data_search] gives, or one more on
    the count of the cell at that position. *)
Lemma add_occurrence_live h index i new_data ret index' :
  wf index → 0 ≤ i < ix_size index →
  add_occurrence h index i new_data = Some (ret, index') →
  ∃ b b' j,
    live index !! Z.to_nat i = Some b
    ∧ live index' = <[Z.to_nat i := b']> (live index)
    ∧ bk_val b' = bk_val b
    ∧ _data_search b new_data = Some j ∧ 0 ≤ j ≤ bk_size b
    ∧ ((occurrences b'
        = take (Z.to_nat j) (occurrences b)
          ++ {| od_data := new_data; od_count := 1 |}
             :: drop (Z.to_nat j) (occurrences b)
        ∧ (ix_size index ≤ j
           ∨ od_data (default (beyond h) (cell (bk_cells b) j)) ≠ new_data))
       ∨ (j < ix_size index
          ∧ ∃ c, cell (bk_cells b) j = Some c ∧ od_data c = new_data
              ∧ occurrences b'
                = if j <? bk_size b
                  then <[Z.to_nat j := {| od_data := new_data;
                                          od_count := od_count c + 1 |}]>
                         (occurrences b)
                  else occurrences b)).
Proof.
  intros Hwf Hi H. pose proof (wf_sizes _ Hwf) as Hsizes.
  destruct Hwf as (Hsz & Hal & Hlen & Hbs).
  unfold add_occurrence in H.
  apply bind_Some in H as (b & Hb & H).
  apply bind_Some in H as (j & Hj & H).
  apply bind_Some in H as (b' & Hb' & H).
  apply bind_Some in H as (data' & Hst & H).
  injection H as <- <-.
  pose proof (live_lookup _ _ _ Hb (proj2 Hi)) as Hlb.
  assert (Hwb : wf_bucket b).
  { rewrite Forall_forall in Hbs. apply Hbs.
    by eapply list_elem_of_lookup_2. }
  destruct Hwb as (Hbsz & Hbal & Hblen).
  pose proof (_data_search_range _ _ _ (proj1 Hbsz) Hj) as Hjr.
  apply store_Some in Hst as [_ ->].
  exists b, b', j. split; [done|]. split.
  { unfold live; simpl. rewrite take_insert_lt by lia. done. }
  destruct (Z.geb_spec j (ix_size index)) as [Hge|Hlt].
  - apply bind_Some in Hb' as (cells1 & Hmv & Hb').
    apply bind_Some in Hb' as (cells2 & Hst2 & Hb').
    injection Hb' as <-. split; [done|]. split; [done|]. split; [done|].
    left. split; [|by left].
    destruct (shift_store _ _ _ _ _ _ Hjr Hmv Hst2) as (_ & _ & Htake).
    unfold occurrences at 1; simpl. rewrite Htake.
    assert (Hocc : take (Z.to_nat (bk_size b))
              (if bk_size b >=? bk_alloc b
               then realloc (fresh_cells h) (bk_cells b)
                      (if bk_size b >=? bk_alloc b
                       then bk_alloc b * 2 else bk_alloc b)
               else bk_cells b) = occurrences b).
    { unfold occurrences. destruct (bk_size b >=? bk_alloc b); [|done].
      destruct (realloc_grow (fresh_cells h) (bk_cells b) (bk_alloc b * 2))
        as [more ->]; [lia|].
      rewrite take_app_le by lia. done. }
    by rewrite Hocc.
  - destruct (negb (new_data =? od_data
                      (default (beyond h) (cell (bk_cells b) j)))) eqn:Hneq.
    + apply bind_Some in Hb' as (cells1 & Hmv & Hb').
      apply bind_Some in Hb' as (cells2 & Hst2 & Hb').
      injection Hb' as <-. split; [done|]. split; [done|]. split; [done|].
      left. split.
      * destruct (shift_store _ _ _ _ _ _ Hjr Hmv Hst2) as (_ & _ & Htake).
        unfold occurrences at 1; simpl. rewrite Htake.
        assert (Hocc : take (Z.to_nat (bk_size b))
                  (if bk_size b >=? bk_alloc b
                   then realloc (fresh_cells h) (bk_cells b)
                          (if bk_size b >=? bk_alloc b
                           then bk_alloc b * 2 else bk_alloc b)
                   else bk_cells b) = occurrences b).
        { unfold occurrences. destruct (bk_size b >=? bk_alloc b); [|done].
          destruct (realloc_grow (fresh_cells h) (bk_cells b)
                      (bk_alloc b * 2)) as [more ->]; [lia|].
          rewrite take_app_le by lia. done. }
        by rewrite Hocc.
      * right. apply negb_true_iff, Z.eqb_neq in Hneq. congruence.
    + apply bind_Some in Hb' as (c & Hc & Hb').
      apply bind_Some in Hb' as (cells' & Hst2 & Hb').
      injection Hb' as <-. split; [done|]. split; [done|]. split; [done|].
      right. split; [done|]. exists c.
      apply negb_false_iff, Z.eqb_eq in Hneq. rewrite Hc in Hneq.
      simpl in Hneq. split; [done|]. split; [done|].
      apply store_Some in Hst2 as [Hjl ->].
      unfold occurrences; simpl. rewrite <- Hneq.
      destruct (Z.ltb_spec j (bk_size b)).
      * rewrite take_insert_lt by lia. done.
      * rewrite take_insert_ge by lia. done.
Qed.

(** The two ways of [_index_insert]: the bucket of the value is found
    at [i], or a bucket is opened for it there. *)
Lemma _index_insert_cases h index val new_data ret index' :
  wf index → sorted index →
  _index_insert h index val new_data = Some (ret, index') →
  ∃ i index1,
    0 ≤ i < ix_size index1 ∧ wf index1
    ∧ add_occurrence h index1 i new_data = Some (ret, index')
    ∧ ((index1 = index
        ∧ ∃ b, live index !! Z.to_nat i = Some b ∧ bk_val b = val)
       ∨ ((∀ b, b ∈ live index → bk_val b ≠ val)
          ∧ i ≤ ix_size index
          ∧ live index1
            = take (Z.to_nat i) (live index)
              ++ fresh_bucket h val :: drop (Z.to_nat i) (live index))).
Proof.
  intros Hwf Hs H. unfold _index_insert in H.
  apply bind_Some in H as (i & Hbs & H).
  apply bind_Some in H as (miss & Hmiss & H).
  apply bind_Some in H as (index1 & H1 & H).
  destruct (_bsearch_spec index (λ v, _val_comp v val) (wf_sizes _ Hwf))
    as (i' & Hbs' & Hres).
  { apply monotone_sorted; [apply _val_comp_monotone|done]. }
  assert (i' = i) as -> by congruence.
  pose proof (proj1 Hres) as Hi.
  exists i, index1. destruct miss.
  - destruct (no_bucket_at_true _ _ _ Hmiss Hres) as [Hbefore Hafter].
    destruct (new_bucket_spec _ _ _ _ _ Hwf Hi H1)
      as (b & Hval & Hwf1 & Hsz1 & _).
    split; [lia|]. split; [done|]. split; [done|]. right.
    split; [|split; [lia|by apply new_bucket_live]].
    intros x Hx Heq. apply elem_of_live in Hx as (k & Hk & Hx).
    destruct (Z_lt_le_dec k i) as [Hlt|Hge].
    + apply (val_lt_irrefl val). rewrite <- Heq at 1. by apply (Hbefore k).
    + apply (val_lt_irrefl val). rewrite <- Heq at 2.
      apply (Hafter k); [lia|done].
  - injection H1 as <-.
    apply no_bucket_at_Some in Hmiss
      as [[? _]|(_ & Hlt & b & Hb & Hz)]; [done|].
    split; [lia|]. split; [done|]. split; [done|]. left.
    split; [done|]. exists b. split; [by apply live_lookup|].
    apply _val_comp_eq in Hz. done.
Qed.

(** The index holds the relation [ref] under the value [val]: [ref] is
    one of the occurrences in use of a bucket in use for [val]. *)
Definition holds (index : s4_index_t) (val : s4_val_t) (ref : Z) : Prop :=
  ∃ b c, b ∈ live index ∧ bk_val b = val
         ∧ c ∈ occurrences b ∧ od_data c = ref.

(** The refs of the occurrences in use of a bucket, in order. *)
Definition refs (b : index_t) : list Z := od_data <$> occurrences b.

Lemma holds_refs index val ref :
  holds index val ref ↔ ∃ b, b ∈ live index ∧ bk_val b = val ∧ ref ∈ refs b.
Proof.
  unfold holds, refs. split.
  - intros (b & c & Hb & Hv & Hc & <-). exists b.
    split; [done|]. split; [done|]. by apply list_elem_of_fmap_2.
  - intros (b & Hb & Hv & Hr). apply list_elem_of_fmap in Hr as (c & -> & Hc).
    by exists b, c.
Qed.

(** The memory right after the occurrences in use of the bucket that
    [_index_insert] works on does not hold the ref [new_data]: neither
    a cell of an existing bucket for [val] past its occurrences, nor
    the cell of a block just allocated, nor what follows a block. *)
Definition clear_of (h : heap_t) (index : s4_index_t) (val : s4_val_t)
    (new_data : Z) : Prop :=
  od_data (beyond h) ≠ new_data
  ∧ od_data (fresh_cells h 0%nat) ≠ new_data
  ∧ ∀ b c, b ∈ live index → bk_val b = val →
           cell (bk_cells b) (bk_size b) = Some c → od_data c ≠ new_data.

Lemma refs_after h index i new_data ret index' :
  wf index → 0 ≤ i < ix_size index →
  add_occurrence h index i new_data = Some (ret, index') →
  ∃ b b' j,
    live index !! Z.to_nat i = Some b
    ∧ live index' = <[Z.to_nat i := b']> (live index)
    ∧ bk_val b' = bk_val b
    ∧ _data_search b new_data = Some j
    ∧ 0 ≤ j ≤ bk_size b
    ∧ (refs b' = take (Z.to_nat j) (refs b)
                 ++ new_data :: drop (Z.to_nat j) (refs b)
       ∨ (refs b' = refs b
          ∧ ∃ c, cell (bk_cells b) j = Some c ∧ od_data c = new_data)).
Proof.
  intros Hwf Hi H.
  destruct (add_occurrence_live _ _ _ _ _ _ Hwf Hi H)
    as (b & b' & j & Hb & Hlive & Hval & Hds & Hj & Hcase).
  exists b, b', j. do 5 (split; [done|]).
  destruct Hcase as [[Hocc _]|(_ & c & Hc & Hd & Hocc)].
  - left. unfold refs. by rewrite Hocc, fmap_app, fmap_cons, fmap_take,
      fmap_drop.
  - right. split; [|by exists c]. unfold refs. rewrite Hocc.
    destruct (Z.ltb_spec j (bk_size b)); [|done].
    rewrite list_fmap_insert. simpl. apply list_insert_id.
    rewrite list_lookup_fmap.
    apply cell_Some in Hc as [_ Hc]. unfold occurrences.
    rewrite lookup_take_lt by lia. rewrite Hc. simpl. by rewrite Hd.
Qed.

Lemma elem_of_insert_at {A} (l : list A) (j : nat) x y :
  y ∈ take j l ++ x :: drop j l ↔ y = x ∨ y ∈ l.
Proof.
  rewrite elem_of_app, elem_of_cons.
  assert (y ∈ l ↔ y ∈ take j l ∨ y ∈ drop j l) as ->; [|tauto].
  by rewrite <- elem_of_app, take_drop.
Qed.

(** What [_index_insert] leaves in the index. *)
Lemma _index_insert_holds h index val new_data ret index' :
  wf index → sorted index →
  _index_insert h index val new_data = Some (ret, index') →
  (∀ v r, holds index v r → holds index' v r)
  ∧ (∀ v r, holds index' v r →
       holds index v r ∨ (v = val ∧ r = new_data))
  ∧ (clear_of h index val new_data → holds index' val new_data).
Proof.
  intros Hwf Hs H.
  destruct (_index_insert_cases _ _ _ _ _ _ Hwf Hs H)
    as (i & index1 & Hi & Hwf1 & Hadd & Hcase).
  destruct (refs_after _ _ _ _ _ _ Hwf1 Hi Hadd)
    as (b & b' & j & Hb & Hlive & Hval & _ & Hj & Hrefs).
  assert (Hi' : (Z.to_nat i < length (live index1))%nat).
  { by eapply lookup_lt_Some. }
  assert (Hold : ∀ v r, holds index v r → holds index1 v r).
  { destruct Hcase as [[-> _]|(_ & _ & Hl1)]; [done|].
    intros v r. rewrite !holds_refs. intros (x & Hx & Hv & Hr).
    exists x. split; [|done]. rewrite Hl1. apply elem_of_insert_at. by right. }
  assert (Hnew : ∀ v r, holds index1 v r → holds index v r).
  { destruct Hcase as [[-> _]|(_ & _ & Hl1)]; [done|].
    intros v r. rewrite !holds_refs. intros (x & Hx & Hv & Hr).
    rewrite Hl1 in Hx. apply elem_of_insert_at in Hx as [->|Hx].
    - unfold refs, occurrences in Hr. simpl in Hr.
      by apply elem_of_nil in Hr.
    - by exists x. }
  assert (Hbval : bk_val b = val).
  { destruct Hcase as [(-> & x & Hx & Hv)|(_ & Hle & Hl1)].
    - congruence.
    - rewrite Hl1 in Hb.
      rewrite lookup_app_r in Hb by (rewrite length_take; lia).
      rewrite length_take in Hb.
      assert (Hlen : Z.of_nat (length (live index)) = ix_size index)
        by (apply live_length, wf_sizes, Hwf).
      replace (Z.to_nat i - Z.to_nat i `min` length (live index))%nat
        with 0%nat in Hb by lia.
      by injection Hb as <-. }
  split; [|split].
  - intros v r Hh. apply Hold in Hh. apply holds_refs in Hh
      as (x & Hx & Hv & Hr). apply holds_refs.
    apply list_elem_of_lookup in Hx as (k & Hk).
    destruct (decide (k = Z.to_nat i)) as [->|Hne].
    + exists b'. rewrite Hlive.
      split; [eapply list_elem_of_lookup_2, list_lookup_insert_eq; lia|].
      assert (x = b) as -> by congruence.
      split; [congruence|].
      destruct Hrefs as [->|[-> _]]; [|done].
      apply elem_of_insert_at. by right.
    + exists x. rewrite Hlive. split; [|done].
      eapply list_elem_of_lookup_2. by rewrite list_lookup_insert_ne.
  - intros v r Hh. apply holds_refs in Hh as (x & Hx & Hv & Hr).
    rewrite Hlive in Hx. apply list_elem_of_lookup in Hx as (k & Hk).
    destruct (decide (k = Z.to_nat i)) as [->|Hne].
    + rewrite list_lookup_insert_eq in Hk by lia. injection Hk as <-.
      destruct Hrefs as [Hr'|[Hr' _]]; rewrite Hr' in Hr.
      * apply elem_of_insert_at in Hr as [->|Hr].
        -- right. split; congruence.
        -- left. apply Hnew, holds_refs. exists b.
           split; [by eapply list_elem_of_lookup_2|]. split; [congruence|done].
      * left. apply Hnew, holds_refs. exists b.
        split; [by eapply list_elem_of_lookup_2|]. split; [congruence|done].
    + rewrite list_lookup_insert_ne in Hk by done.
      left. apply Hnew, holds_refs. exists x.
      split; [by eapply list_elem_of_lookup_2|done].
  - intros (Hbeyond & Hfresh & Hpast). apply holds_refs. exists b'.
    rewrite Hlive.
    split; [eapply list_elem_of_lookup_2, list_lookup_insert_eq; lia|].
    split; [congruence|].
    destruct Hrefs as [->|(-> & c & Hc & Hd)];
      [apply elem_of_insert_at; by left|].
    destruct (Z_lt_le_dec j (bk_size b)) as [Hlt|Hge].
    + unfold refs, occurrences. rewrite <- Hd.
      apply list_elem_of_fmap_2. apply cell_Some in Hc as [_ Hc].
      apply (list_elem_of_lookup_2 _ (Z.to_nat j)).
      rewrite lookup_take_lt by lia. done.
    + exfalso. assert (j = bk_size b) as -> by lia.
      destruct Hcase as [(-> & x & Hx & Hv)|(_ & Hle & Hl1)].
      * apply (Hpast b c); [by eapply list_elem_of_lookup_2|done..].
      * rewrite Hl1 in Hb.
        rewrite lookup_app_r in Hb by (rewrite length_take; lia).
        rewrite length_take in Hb.
        assert (Hlen : Z.of_nat (length (live index)) = ix_size index)
          by (apply live_length, wf_sizes, Hwf).
        replace (Z.to_nat i - Z.to_nat i `min` length (live index))%nat
          with 0%nat in Hb by lia.
        injection Hb as <-. simpl in Hc. unfold cell in Hc. simpl in Hc.
        injection Hc as <-. done.
Qed.

(** The members of the list [_index_search] returns. *)
Lemma _index_search_members index func func_data :
  wf index → sorted index → monotone (callback func func_data) →
  ∃ found,
    _index_search index func func_data = Some found
    ∧ NoDup found
    ∧ ∀ r, r ∈ found ↔
           ∃ b c, b ∈ live index
                  ∧ callback func func_data (bk_val b) = 0
                  ∧ c ∈ occurrences b ∧ od_data c = r.
Proof.
  intros Hwf Hs Hmono. unfold _index_search.
  set (f := callback func func_data) in *.
  pose proof (wf_sizes _ Hwf) as Hsizes.
  pose proof (monotone_sorted f index Hmono Hs) as Halong.
  destruct (_bsearch_spec index f Hsizes Halong) as (i & -> & Hi & Hres).
  simpl.
  destruct (no_bucket_at_is_Some index f i) as [miss Hmiss]; [lia..|].
  rewrite Hmiss. simpl.
  apply no_bucket_at_Some in Hmiss
    as [[-> Hnone]|(-> & Hlt & b0 & Hb0 & Hz0)].
  - (* the callback is zero on no bucket *)
    assert (Hnz : ∀ b, b ∈ live index → f (bk_val b) ≠ 0).
    { destruct Hres as [(x & Hlt & Hx & Hz)|[Hneg Hpos]].
      { destruct Hnone as [Hge|(b & Hb & Hnz)]; [exfalso; lia|congruence]. }
      intros b (k & Hk & Hb)%elem_of_live.
      destruct (Z_lt_le_dec k i).
      - pose proof (Hneg k b ltac:(lia) Hb). lia.
      - pose proof (Hpos k b ltac:(lia) Hb). lia. }
    exists []. split; [done|]. split; [constructor|].
    intros r. split; [by intros ?%elem_of_nil|].
    intros (b & c & Hb & Hz & _). by destruct (Hnz b).
  - (* the callback is zero on the bucket at [i] *)
    destruct (_scan_down_spec index f (proj2 Hsizes) (Z.to_nat (i + 1)) i)
      as (lo & -> & Hlo & Hzl & Hstopl); [lia..|].
    simpl.
    destruct (_collect_spec index f Hwf (Z.to_nat (ix_size index))
                (lo + 1) ∅)
      as (found & hi & -> & Hhi & Hzr & Hstopr & Hin); [lia..|].
    simpl. exists (elements found).
    split; [done|]. split; [apply NoDup_elements|].
    assert (Hzero : ∀ k b, 0 ≤ k < ix_size index →
              cell (ix_data index) k = Some b →
              f (bk_val b) = 0 → lo < k < hi).
    { intros k b Hk Hb Hz. split.
      - destruct (Z_lt_le_dec lo k); [done|].
        destruct Hstopl as (x & Hx & Hnz); [lia|].
        destruct (decide (k = lo)) as [->|Hne]; [congruence|].
        assert (lo ≠ i) by (intros ->; congruence).
        pose proof (Halong k lo b x ltac:(lia) ltac:(lia) Hb Hx).
        pose proof (Halong lo i x b0 ltac:(lia) ltac:(lia) Hx Hb0). lia.
      - destruct (Z_lt_le_dec k hi); [done|].
        destruct Hstopr as (x & Hx & Hnz); [lia|].
        destruct (decide (k = hi)) as [->|Hne]; [congruence|].
        assert (i < hi).
        { destruct (Z_lt_le_dec i hi); [done|].
          exfalso. apply Hnz. apply (Hzl hi); [lia|done]. }
        pose proof (Halong i hi b0 x ltac:(lia) ltac:(lia) Hb0 Hx).
        pose proof (Halong hi k x b ltac:(lia) ltac:(lia) Hx Hb). lia. }
    intros r. rewrite elem_of_elements, Hin. split.
    + intros [Hr|(k & b & c & Hk & Hb & Hc & Hr)];
        [by apply elem_of_empty in Hr|].
      exists b, c. split; [apply elem_of_live; exists k; split; [lia|done]|].
      split; [|done]. apply (Hzr k); [lia|done].
    + intros (b & c & (k & Hk & Hb)%elem_of_live & Hz & Hc & Hr).
      right. exists k, b, c. split; [|done].
      pose proof (Hzero k b Hk Hb Hz). lia.
Qed.


Lemma holds_callback index (f : index_function_t) r :
  (∃ b c, b ∈ live index ∧ f (bk_val b) = 0
          ∧ c ∈ occurrences b ∧ od_data c = r)
  ↔ ∃ v, f v = 0 ∧ holds index v r.
Proof.
  split.
  - intros (b & c & Hb & Hz & Hc & Hr). exists (bk_val b).
    split; [done|]. by exists b, c.
  - intros (v & Hz & b & c & Hb & <- & Hc & Hr). by exists b, c.
Qed.

(** X6. Insert, then search. In a well-formed sorted index, when the
    memory right after the occurrences of the bucket at hand does not
    hold the ref, [_index_insert] returns 1 and a search with any
    callback that is monotone along the canonical order finds, after
    the insertion, the refs it found before and, when the callback is
    zero on the value inserted under, the ref inserted: nothing is lost
    and nothing else appears. *)
Theorem index_insert_then_search h index val new_data func func_data :
  wf index → sorted index → monotone (callback func func_data) →
  clear_of h index val new_data →
  ∃ index' before after,
    _index_insert h index val new_data = Some (1, index')
    ∧ _index_search index func func_data = Some before
    ∧ _index_search index' func func_data = Some after
    ∧ ∀ r, r ∈ after ↔
           r ∈ before ∨ (callback func func_data val = 0 ∧ r = new_data).
Proof.
  intros Hwf Hs Hmono Hclear.
  destruct (_index_insert_is_Some h index val new_data Hwf Hs (proj1 Hclear))
    as [[ret index'] Hins].
  destruct (_index_insert_invariant _ _ _ _ _ _ Hwf Hs Hins)
    as (-> & Hwf' & Hs').
  destruct (_index_insert_holds _ _ _ _ _ _ Hwf Hs Hins)
    as (Hkeep & Honly & Hnew).
  destruct (_index_search_members index func func_data Hwf Hs Hmono)
    as (before & Hbefore & _ & Hin).
  destruct (_index_search_members index' func func_data Hwf' Hs' Hmono)
    as (after & Hafter & _ & Hin').
  exists index', before, after. do 3 (split; [done|]).
  intros r. rewrite Hin, Hin', !holds_callback. split.
  - intros (v & Hz & Hh). apply Honly in Hh as [Hh|[-> ->]].
    + left. by exists v.
    + by right.
  - intros [(v & Hz & Hh)|[Hz ->]].
    + exists v. split; [done|]. by apply Hkeep.
    + exists val. split; [done|]. by apply Hnew.
Qed.

Lemma index_insert_then_search_witness :
  ∃ index' before after,
    _index_insert (zero_heap 20480) three_buckets (S4Str "a") 4200
    = Some (1, index')
    ∧ _index_search three_buckets None (S4Str "a") = Some before
    ∧ _index_search index' None (S4Str "a") = Some after
    ∧ ∀ r, r ∈ after ↔
           r ∈ before ∨ (callback None (S4Str "a") (S4Str "a") = 0
                         ∧ r = 4200).
Proof.
  destruct three_buckets_wf_sorted as [Hwf Hs].
  apply (index_insert_then_search (zero_heap 20480) three_buckets
           (S4Str "a") 4200 None (S4Str "a") Hwf Hs
           (_val_comp_monotone (S4Str "a"))).
  split; [done|]. split; [done|].
  intros b c Hb Hv Hc.
  unfold three_buckets, live in Hb; simpl in Hb.
  repeat (apply elem_of_cons in Hb as [->|Hb]; [by vm_compute in Hc|]).
  by apply elem_of_nil in Hb.
Defined.

(** *** The comparator, the table of indexes and the binary search *)

(** X7. [_val_comp] is the three-way comparison of the canonical order:
    negative, zero or positive as the first value is before, equal to
    or after the second one, in the order that puts every int before
    every string, orders ints numerically and strings byte-wise; of two
    values exactly one of the three holds, and the order is
    transitive. *)
Theorem val_comp_is_the_canonical_order (u v w : s4_val_t) :
  (_val_comp v w < 0 ↔ val_lt v w)
  ∧ (_val_comp v w = 0 ↔ v = w)
  ∧ (_val_comp v w > 0 ↔ val_lt w v)
  ∧ (_val_comp v w < 0 ↔ _val_comp w v > 0)
  ∧ (_val_comp u v < 0 → _val_comp v w < 0 → _val_comp u w < 0)
  ∧ (∀ i s, _val_comp (S4Int i) (S4Str s) < 0)
  ∧ (∀ i j, _val_comp (S4Int i) (S4Int j) < 0 ↔ i < j).
Proof.
  split; [apply _val_comp_lt|]. split; [apply _val_comp_eq|].
  split; [apply _val_comp_gt|]. split; [|split; [|split]].
  - by rewrite _val_comp_lt, _val_comp_gt.
  - rewrite !_val_comp_lt. apply val_lt_trans.
  - intros i s. simpl. lia.
  - intros i j. rewrite _val_comp_lt. split.
    + by inversion 1.
    + by constructor.
Qed.

(** [s4->index_table] is a GLib hash table from keys to the addresses
    of indexes. It is created in [s4.c], which is not among the
    sources; it is taken here to compare its keys as strings, which is
    what makes the [strdup] of the key in [_index_add] a key of its own:
    the table is then a finite map from strings.
    [g_hash_table_lookup] gives the value stored for the key, or
    [NULL]. *)
Definition g_hash_table_lookup (table : gmap string Z) (key : string) : Z :=
  default 0 (table !! key).

Definition _index_get (table : gmap string Z) (key : string) : Z :=
  g_hash_table_lookup table key.

(** [_index_add]: the value returned and the table after the call; the
    table is given a copy of the key. *)
Definition _index_add (table : gmap string Z) (key : string) (index : Z)
    : Z * gmap string Z :=
  if g_hash_table_lookup table key =? 0
  then (1, <[key := index]> table)
  else (0, table).

(** A sequence of [_index_add] calls on a table: the values returned, in
    order, and the table they leave. *)
Fixpoint registered (table : gmap string Z) (adds : list (string * Z))
    : list Z * gmap string Z :=
  match adds with
  | [] => ([], table)
  | (key, index) :: adds' =>
      let '(ret, table) := _index_add table key index in
      let '(rets, table) := registered table adds' in
      (ret :: rets, table)
  end.

Lemma registered_get adds : ∀ table key,
  Forall (λ a, a.2 ≠ 0) adds →
  _index_get (registered table adds).2 key
  = if decide (_index_get table key = 0)
    then default 0 (snd <$> head (filter (λ a, a.1 = key) adds))
    else _index_get table key.
Proof.
  induction adds as [|[k ix] adds IH]; intros table key Hnz; simpl.
  - by destruct (decide _).
  - apply Forall_cons in Hnz as [Hix Hnz]. simpl in Hix.
    unfold _index_add.
    destruct (Z.eqb_spec (g_hash_table_lookup table k) 0) as [Hk|Hk].
    + specialize (IH (<[k := ix]> table) key Hnz).
      destruct (registered (<[k:=ix]> table) adds) as [rets t] eqn:Hr.
      simpl in *. rewrite IH. unfold _index_get, g_hash_table_lookup.
      rewrite filter_cons. simpl.
      destruct (decide (k = key)) as [->|Hne].
      * rewrite lookup_insert_eq. simpl.
        destruct (decide (ix = 0)); [done|].
        unfold g_hash_table_lookup in Hk. by rewrite Hk.
      * rewrite lookup_insert_ne by done. done.
    + specialize (IH table key Hnz).
      destruct (registered table adds) as [rets t] eqn:Hr.
      simpl in *. rewrite IH.
      destruct (decide (_index_get table key = 0)) as [Hz|Hz]; [|done].
      rewrite filter_cons. simpl.
      destruct (decide (k = key)) as [->|Hne]; [|done].
      by destruct Hk.
Qed.

Lemma registered_rets adds : ∀ table,
  Forall (λ a, a.2 ≠ 0) adds →
  ∀ i key index, adds !! i = Some (key, index) →
    (registered table adds).1 !! i
    = Some (if decide (_index_get table key = 0
                       ∧ key ∉ (take i adds).*1)
            then 1 else 0).
Proof.
  induction adds as [|[k ix] adds IH]; intros table Hnz i key index Hi;
    [done|].
  apply Forall_cons in Hnz as [Hix Hnz]. simpl in Hix. simpl.
  unfold _index_add.
  destruct i as [|i]; simpl in Hi.
  - injection Hi as -> ->. simpl.
    unfold _index_get.
    destruct (Z.eqb_spec (g_hash_table_lookup table key) 0) as [Hk|Hk].
    + destruct (registered _ adds); simpl.
      destruct (decide _) as [_|Hc]; [done|].
      destruct Hc. split; [done|]. apply not_elem_of_nil.
    + destruct (registered _ adds); simpl.
      destruct (decide _) as [[Hc _]|_]; [by destruct Hk|done].
  - destruct (Z.eqb_spec (g_hash_table_lookup table k) 0) as [Hk|Hk].
    + specialize (IH (<[k := ix]> table) Hnz i key index Hi).
      destruct (registered (<[k:=ix]> table) adds) as [rets t]. simpl in *.
      rewrite IH. f_equal. unfold _index_get, g_hash_table_lookup.
      destruct (decide (k = key)) as [->|Hne].
      * rewrite lookup_insert_eq. simpl.
        rewrite decide_False by (by intros [? _]).
        rewrite decide_False; [done|].
        intros [_ Hc]. apply Hc, elem_of_cons. by left.
      * rewrite lookup_insert_ne by done.
        apply decide_ext. rewrite not_elem_of_cons. intuition congruence.
    + specialize (IH table Hnz i key index Hi).
      destruct (registered table adds) as [rets t]. simpl in *.
      rewrite IH. f_equal. apply decide_ext.
      rewrite not_elem_of_cons. split; [|tauto].
      intros [Hz Hn]. split; [done|]. split; [|done].
      intros ->. by destruct Hk.
Qed.

(** X8. The first index registered under a key stays. For a table
    that compares its keys as strings: after any sequence of
    [_index_add] calls with indexes that are not [NULL], on the empty
    table, [_index_get] returns for a key the index of the first call
    made with that key, or [NULL] when there is none; and a call
    returns 1 when no earlier call was made with its key, and 0
    otherwise. *)
Theorem index_add_keeps_the_first (adds : list (string * Z)) (key : string) :
  Forall (λ a, a.2 ≠ 0) adds →
  _index_get (registered ∅ adds).2 key
  = default 0 (snd <$> head (filter (λ a, a.1 = key) adds))
  ∧ ∀ i index, adds !! i = Some (key, index) →
      (registered ∅ adds).1 !! i
      = Some (if decide (key ∈ (take i adds).*1) then 0 else 1).
Proof.
  intros Hnz. split.
  - rewrite registered_get by done. unfold _index_get, g_hash_table_lookup.
    by rewrite lookup_empty.
  - intros i index Hi. rewrite (registered_rets adds ∅ Hnz i key index Hi).
    f_equal. unfold _index_get, g_hash_table_lookup.
    rewrite lookup_empty. simpl.
    destruct (decide (key ∈ (take i adds).*1)) as [Hin|Hin].
    + destruct (decide _) as [[_ Hc]|_]; [done|done].
    + destruct (decide _) as [_|Hc]; [done|]. by destruct Hc.
Qed.

Lemma index_add_keeps_the_first_witness :
  _index_get (registered ∅ [("artist"%string, 4096); ("title"%string, 8192);
                            ("artist"%string, 12288)]).2 "artist"
  = 4096
  ∧ (registered ∅ [("artist"%string, 4096); ("title"%string, 8192);
                   ("artist"%string, 12288)]).1 !! 2%nat = Some 0.
Proof.
  assert (Hnz : Forall (λ a : string * Z, a.2 ≠ 0)
            [("artist"%string, 4096); ("title"%string, 8192);
             ("artist"%string, 12288)]).
  { repeat constructor; simpl; lia. }
  destruct (index_add_keeps_the_first _ "artist" Hnz) as [Hget Hret].
  split.
  - rewrite Hget. reflexivity.
  - rewrite (Hret 2%nat 12288 eq_refl). reflexivity.
Defined.

Lemma bsearch_lower_bound index val :
  wf index → sorted index →
  ∃ i, _bsearch index (λ v, _val_comp v val) = Some i
    ∧ 0 ≤ i ≤ ix_size index
    ∧ (∀ k b, live index !! k = Some b →
         (Z.of_nat k < i ↔ val_lt (bk_val b) val))
    ∧ (∀ b, b ∈ live index → bk_val b = val →
         live index !! Z.to_nat i = Some b).
Proof.
  intros Hwf Hs.
  destruct (_bsearch_spec index (λ v, _val_comp v val) (wf_sizes _ Hwf))
    as (i & Hbs & Hi & Hres).
  { apply monotone_sorted; [apply _val_comp_monotone|done]. }
  exists i. split; [done|]. split; [done|].
  assert (Hlow : ∀ k b, live index !! k = Some b →
            (Z.of_nat k < i ↔ val_lt (bk_val b) val)).
  { intros k b Hb. apply live_cell in Hb as [Hb Hk].
    destruct Hres as [(x & Hlt & Hx & Hz)|[Hneg Hpos]].
    - apply _val_comp_eq in Hz. split.
      + intros Hki. rewrite <- Hz.
        by apply (sorted_cells index (Z.of_nat k) i).
      + intros Hv. destruct (Z_lt_le_dec (Z.of_nat k) i) as [|Hge]; [done|].
        exfalso. destruct (decide (Z.of_nat k = i)) as [Heq|Hne].
        * rewrite Heq in Hb. assert (b = x) as -> by congruence.
          rewrite Hz in Hv. by apply val_lt_irrefl in Hv.
        * apply (val_lt_irrefl val). apply (val_lt_trans _ (bk_val b)); [|done].
          rewrite <- Hz. apply (sorted_cells index i (Z.of_nat k)); [done|lia|done..].
    - split.
      + intros Hki. apply _val_comp_lt. by apply (Hneg (Z.of_nat k)).
      + intros Hv. destruct (Z_lt_le_dec (Z.of_nat k) i) as [|Hge]; [done|].
        exfalso. pose proof (Hpos (Z.of_nat k) b ltac:(lia) Hb) as Hgt.
        apply _val_comp_gt in Hgt. apply (val_lt_irrefl val).
        by apply (val_lt_trans _ (bk_val b)). }
  split; [exact Hlow|].
  intros b Hb Hv. apply list_elem_of_lookup in Hb as (k & Hk).
  pose proof (Hlow k b Hk) as Hkb.
  destruct (Z_lt_le_dec (Z.of_nat k) i) as [Hlt|Hge].
  { apply Hkb in Hlt. rewrite Hv in Hlt. by apply val_lt_irrefl in Hlt. }
  destruct (decide (Z.of_nat k = i)) as [<-|Hne]; [by rewrite Nat2Z.id|].
  exfalso. pose proof (live_cell _ _ _ Hk) as [Hc Hklt].
  destruct (cell_is_Some (ix_data index) i) as [x Hx];
    [pose proof (wf_sizes _ Hwf); lia|].
  pose proof (sorted_cells index i (Z.of_nat k) x b Hs ltac:(lia) Hklt Hx Hc)
    as Hxb.
  pose proof (live_lookup _ _ _ Hx ltac:(lia)) as Hlx.
  pose proof (Hlow _ _ Hlx) as Hix. rewrite Z2Nat.id in Hix by lia.
  rewrite Hv in Hxb. apply Hix in Hxb. lia.
Qed.

(** X9. [_bsearch] with [_val_comp] gives the lower bound of a value in a
    well-formed sorted index: the position it returns has before it
    exactly the buckets whose value is less than [val], so that it is
    the position of the bucket of [val] when there is one, and the
    position at which a bucket for [val] keeps the array sorted when
    there is none. *)
Theorem bsearch_gives_the_lower_bound index val :
  wf index → sorted index →
  ∃ i, _bsearch index (λ v, _val_comp v val) = Some i
    ∧ 0 ≤ i ≤ ix_size index
    ∧ (∀ k b, live index !! k = Some b →
         (Z.of_nat k < i ↔ val_lt (bk_val b) val))
    ∧ (∀ b, b ∈ live index → bk_val b = val →
         live index !! Z.to_nat i = Some b).
Proof. apply bsearch_lower_bound. Qed.

Lemma bsearch_gives_the_lower_bound_witness :
  _bsearch three_buckets (λ v, _val_comp v (S4Str "aa")) = Some 2.
Proof.
  destruct three_buckets_wf_sorted as [Hwf Hs].
  destruct (bsearch_gives_the_lower_bound three_buckets (S4Str "aa") Hwf Hs)
    as (i & Hi & _).
  rewrite Hi. f_equal. vm_compute in Hi. by injection Hi.
Defined.

(** X10. [_index_delete] removes nothing: in a well-formed sorted index,
    for a value that has no bucket, and for any ref that is not the
    address of the block of occurrences of the bucket of the value, it
    returns 0 and leaves the index as it is. *)
Theorem index_delete_leaves_the_index index val new_data :
  wf index → sorted index →
  (∀ b, b ∈ live index → bk_val b = val → bk_data b ≠ new_data) →
  _index_delete index val new_data = Some (0, index)
  ∧ ((∀ b, b ∈ live index → bk_val b ≠ val) →
     ∀ ref, _index_delete index val ref = Some (0, index)).
Proof.
  assert (Hgen : ∀ ref, wf index → sorted index →
    (∀ b, b ∈ live index → bk_val b = val → bk_data b ≠ ref) →
    _index_delete index val ref = Some (0, index)).
  { intros ref Hwf Hs Hne. unfold _index_delete.
    destruct (_bsearch_spec index (λ v, _val_comp v val) (wf_sizes _ Hwf))
      as (i & -> & Hi & _).
    { apply monotone_sorted; [apply _val_comp_monotone|done]. }
    simpl.
    destruct (no_bucket_at_is_Some index (_val_comp val) i) as [miss Hmiss];
      [lia|apply (wf_sizes _ Hwf)|].
    rewrite Hmiss. simpl.
    apply no_bucket_at_Some in Hmiss
      as [[-> _]|(-> & Hlt & b & Hb & Hz)]; [done|].
    rewrite Hb. simpl.
    destruct (_data_search_is_Some b ref) as [j ->];
      [by apply (live_wf_bucket index i); [|lia|]|].
    simpl.
    assert (bk_data b ≠ ref) as Hb'.
    { apply Hne.
      - eapply list_elem_of_lookup_2, live_lookup; [done|lia].
      - apply _val_comp_eq in Hz. done. }
    destruct (Z.eqb_spec ref (bk_data b)) as [->|_]; [done|].
    by rewrite orb_true_r. }
  intros Hwf Hs Hne. split; [by apply Hgen|].
  intros Hnone ref. apply Hgen; [done..|].
  intros b Hb Hv. by destruct (Hnone b Hb).
Qed.

Lemma index_delete_leaves_the_index_witness :
  _index_delete three_buckets (S4Str "a") 4128 = Some (0, three_buckets).
Proof.
  destruct three_buckets_wf_sorted as [Hwf Hs].
  destruct (index_delete_leaves_the_index three_buckets (S4Str "a") 4128
              Hwf Hs) as [H _]; [|exact H].
  intros b Hb Hv.
  unfold three_buckets, live in Hb; simpl in Hb.
  repeat (apply elem_of_cons in Hb as [->|Hb]; [by vm_compute|]).
  by apply elem_of_nil in Hb.
Defined.

(** *** The order of the occurrences of a bucket *)

(** The occurrences in use of a bucket are in descending order of their
    refs, the order [_data_search] searches along; equal refs may
    follow one another. *)
Definition descending (b : index_t) : Prop :=
  StronglySorted (λ r s, s ≤ r) (refs b).

(** What [_data_search] finds in such a bucket: an occurrence of the
    ref, or else the place where the refs turn from greater to less. *)
Definition data_search_result (b : index_t) (data : Z) (j : Z) : Prop :=
  0 ≤ j ≤ bk_size b
  ∧ (refs b !! Z.to_nat j = Some data
     ∨ ((∀ k r, (k < Z.to_nat j)%nat → refs b !! k = Some r → data < r)
        ∧ (∀ k r, (Z.to_nat j ≤ k)%nat → refs b !! k = Some r → r < data))).

Lemma refs_cell b m c :
  0 ≤ m < bk_size b → cell (bk_cells b) m = Some c →
  refs b !! Z.to_nat m = Some (od_data c).
Proof.
  intros Hm Hc. apply cell_Some in Hc as [_ Hc].
  unfold refs, occurrences.
  rewrite list_lookup_fmap, lookup_take_lt by lia. by rewrite Hc.
Qed.

Lemma _data_search_loop_spec b data :
  wf_bucket b → descending b →
  ∀ fuel lo hi,
    0 ≤ lo ≤ hi → hi ≤ bk_size b → hi - lo ≤ Z.of_nat fuel →
    (∀ k r, (k < Z.to_nat lo)%nat → refs b !! k = Some r → data < r) →
    (∀ k r, (Z.to_nat hi ≤ k)%nat → refs b !! k = Some r → r < data) →
    ∃ j, _data_search_loop fuel (bk_cells b) data lo hi = Some j
         ∧ data_search_result b data j.
Proof.
  intros (Hsz & Hal & Hlen) Hdesc.
  induction fuel as [|fuel IH]; intros lo hi Hlo Hhi Hfuel Hbefore Hafter.
  - simpl. destruct (Z.gtb_spec (hi - lo) 0); [lia|].
    assert (hi = lo) as -> by lia.
    exists lo. split; [done|]. split; [lia|]. by right.
  - simpl. destruct (Z.gtb_spec (hi - lo) 0) as [Hgt|Hle].
    2:{ assert (hi = lo) as -> by lia.
        exists lo. split; [done|]. split; [lia|]. by right. }
    assert (Hm : lo ≤ (hi + lo) ÷ 2 < hi).
    { rewrite Z.quot_div_nonneg by lia.
      split; [apply Z.div_le_lower_bound|apply Z.div_lt_upper_bound]; lia. }
    set (m := (hi + lo) ÷ 2) in *.
    destruct (cell_is_Some (bk_cells b) m) as [c Hc]; [lia|].
    rewrite Hc. simpl.
    pose proof (refs_cell b m c ltac:(lia) Hc) as Hrm.
    destruct (Z.eqb_spec data (od_data c)) as [Heq|Hne].
    { exists m. split; [done|]. split; [lia|]. left. by rewrite Heq. }
    destruct (Z.ltb_spec data (od_data c)) as [Hlt|Hge].
    + apply IH; [lia..| |done].
      intros k r Hk Hr.
      destruct (decide (k = Z.to_nat m)) as [->|Hkm]; [congruence|].
      pose proof (StronglySorted_lookup _ _ k (Z.to_nat m) r (od_data c)
                    Hdesc ltac:(lia) Hr Hrm). simpl in *. lia.
    + apply IH; [lia..|done|].
      intros k r Hk Hr.
      destruct (decide (k = Z.to_nat m)) as [->|Hkm].
      { assert (r = od_data c) by congruence. lia. }
      pose proof (StronglySorted_lookup _ _ (Z.to_nat m) k (od_data c) r
                    Hdesc ltac:(lia) Hrm Hr). simpl in *. lia.
Qed.

Lemma _data_search_spec b data :
  wf_bucket b → descending b →
  ∃ j, _data_search b data = Some j ∧ data_search_result b data j.
Proof.
  intros Hwb Hdesc. unfold _data_search.
  pose proof Hwb as (Hsz & _).
  apply _data_search_loop_spec; [done..|lia|lia|lia| |].
  - intros k r Hk. simpl in Hk. lia.
  - intros k r Hk Hr. apply lookup_lt_Some in Hr.
    unfold refs, occurrences in Hr.
    rewrite length_fmap, length_take in Hr. lia.
Qed.

(** When the bucket holds the ref, [_data_search] finds an occurrence
    of it. *)
Lemma _data_search_found b data j :
  data_search_result b data j → data ∈ refs b →
  refs b !! Z.to_nat j = Some data.
Proof.
  intros (Hj & [Hf|[Hbefore Hafter]]) Hin; [done|].
  apply list_elem_of_lookup in Hin as (k & Hk).
  destruct (Nat.lt_ge_cases k (Z.to_nat j)) as [Hlt|Hge].
  - pose proof (Hbefore k data Hlt Hk). lia.
  - pose proof (Hafter k data Hge Hk). lia.
Qed.

Lemma descending_insert b data j :
  descending b → data_search_result b data j →
  StronglySorted (λ r s, s ≤ r)
    (take (Z.to_nat j) (refs b) ++ data :: drop (Z.to_nat j) (refs b)).
Proof.
  intros Hdesc (Hj & Hcase).
  apply StronglySorted_insert_at; [done| |].
  - intros k r Hk Hr. destruct Hcase as [Hf|[Hbefore _]].
    + apply (StronglySorted_lookup _ _ k (Z.to_nat j) r data Hdesc Hk Hr Hf).
    + pose proof (Hbefore k r Hk Hr). lia.
  - intros k r Hk Hr. destruct Hcase as [Hf|[_ Hafter]].
    + destruct (decide (k = Z.to_nat j)) as [->|Hne].
      * assert (r = data) by congruence. lia.
      * apply (StronglySorted_lookup _ _ (Z.to_nat j) k data r Hdesc
                 ltac:(lia) Hf Hr).
    + pose proof (Hafter k r Hk Hr). lia.
Qed.

(** X11. [_index_insert] keeps the occurrences of every bucket in
    descending order of their refs, the order along which
    [_data_search] halves the bucket, whatever the heap holds. *)
Theorem index_insert_keeps_occurrences_descending
    h index val new_data ret index' :
  wf index → sorted index → Forall descending (live index) →
  _index_insert h index val new_data = Some (ret, index') →
  Forall descending (live index').
Proof.
  intros Hwf Hs Hdesc H.
  destruct (_index_insert_cases _ _ _ _ _ _ Hwf Hs H)
    as (i & index1 & Hi & Hwf1 & Hadd & Hcase).
  assert (Hdesc1 : Forall descending (live index1)).
  { destruct Hcase as [[-> _]|(_ & _ & ->)]; [done|].
    apply Forall_app. split; [by apply Forall_take|].
    apply Forall_cons. split; [|by apply Forall_drop].
    unfold descending, refs, occurrences. simpl. constructor. }
  destruct (refs_after _ _ _ _ _ _ Hwf1 Hi Hadd)
    as (b & b' & j & Hb & -> & Hval & Hds & Hj & Hrefs).
  apply Forall_insert; [done|].
  assert (Hbd : descending b).
  { rewrite Forall_forall in Hdesc1. apply Hdesc1.
    by eapply list_elem_of_lookup_2. }
  assert (Hwb : wf_bucket b).
  { destruct Hwf1 as (_ & _ & _ & Hbs). rewrite Forall_forall in Hbs.
    apply Hbs. by eapply list_elem_of_lookup_2. }
  destruct (_data_search_spec b new_data Hwb Hbd) as (j' & Hds' & Hres).
  assert (j' = j) as -> by congruence.
  unfold descending.
  destruct Hrefs as [->|[-> _]]; [|done].
  by apply descending_insert.
Qed.

Lemma three_buckets_descending : Forall descending (live three_buckets).
Proof.
  unfold three_buckets, live; simpl.
  repeat constructor.
Qed.

Lemma index_insert_keeps_occurrences_descending_witness :
  ∃ index', _index_insert (zero_heap 20480) three_buckets (S4Str "a") 4200
            = Some (1, index')
            ∧ Forall descending (live index').
Proof.
  destruct three_buckets_wf_sorted as [Hwf Hs].
  eexists. split; [by vm_compute|].
  eapply (index_insert_keeps_occurrences_descending
            (zero_heap 20480) three_buckets (S4Str "a") 4200 1 _ Hwf Hs
            three_buckets_descending).
  by vm_compute.
Defined.

(** [add_occurrence] stays inside the block when the cell at the
    position found is a cell of the block. *)
Lemma add_occurrence_defined h index i new_data b j :
  wf index → 0 ≤ i < ix_size index →
  cell (ix_data index) i = Some b → _data_search b new_data = Some j →
  j < bk_alloc b →
  is_Some (add_occurrence h index i new_data).
Proof.
  intros Hwf Hi Hb Hj Hjl. pose proof (wf_sizes _ Hwf) as Hsizes.
  unfold add_occurrence. rewrite Hb. simpl. rewrite Hj. simpl.
  pose proof (live_wf_bucket _ _ _ Hwf Hi Hb) as Hwb.
  apply _data_search_range in Hj; [|apply Hwb].
  destruct Hwb as (Hbsz & Hbal & Hblen).
  assert (Hst : ∀ b', is_Some (store (ix_data index) i b' ≫= λ data',
    Some (1, {| ix_size := ix_size index; ix_alloc := ix_alloc index;
                ix_data := data' |}))).
  { intros b'. destruct (store_is_Some (ix_data index) i b') as [d ->];
      [lia|done]. }
  destruct (if j >=? ix_size index then true else _) eqn:Habsent.
  - set (cells0 := if bk_size b >=? bk_alloc b
                   then realloc (fresh_cells h) (bk_cells b)
                          (if bk_size b >=? bk_alloc b
                           then bk_alloc b * 2 else bk_alloc b)
                   else bk_cells b).
    assert (Hfit : bk_size b + 1 ≤ Z.of_nat (length cells0)).
    { unfold cells0. destruct (Z.geb_spec (bk_size b) (bk_alloc b)).
      - rewrite length_realloc. lia.
      - lia. }
    clearbody cells0.
    destruct (memmove_is_Some cells0 (j + 1) j (bk_size b - j))
      as [cells1 Hmv]; try lia.
    rewrite Hmv. simpl.
    apply memmove_Some in Hmv as (_ & _ & _ & _ & _ & ->).
    match goal with |- is_Some ((store ?l ?i ?x ≫= _) ≫= _) =>
      destruct (store_is_Some l i x) as [cells2 ->] end.
    { rewrite !length_app, !length_take, !length_drop. lia. }
    simpl. apply Hst.
  - destruct (cell_is_Some (bk_cells b) j) as [c Hc]; [lia|].
    rewrite Hc. simpl.
    destruct (store_is_Some (bk_cells b) j
      {| od_data := od_data c; od_count := od_count c + 1 |})
      as [cells' ->]; [lia|].
    simpl. apply Hst.
Qed.

(** X12. Inserting again a relation the index holds under the value. In a
    well-formed sorted index whose buckets have their occurrences in
    descending order, [_data_search] finds an occurrence of the ref, at
    a position [j], and [_index_insert] returns 1 after changing that
    bucket only: when [j] is less than the number of buckets of the
    index, the count of the occurrence at [j] is one more and nothing
    else has changed; otherwise a second occurrence of the ref, with
    count 1, has been entered at [j]. *)
Theorem index_insert_again h index val new_data :
  wf index → sorted index → Forall descending (live index) →
  holds index val new_data →
  ∃ i b j c index' b',
    live index !! i = Some b ∧ bk_val b = val
    ∧ _data_search b new_data = Some j
    ∧ occurrences b !! Z.to_nat j = Some c ∧ od_data c = new_data
    ∧ _index_insert h index val new_data = Some (1, index')
    ∧ live index' = <[i := b']> (live index)
    ∧ bk_val b' = val
    ∧ occurrences b'
      = if j <? ix_size index
        then <[Z.to_nat j := {| od_data := new_data;
                                od_count := od_count c + 1 |}]>
               (occurrences b)
        else take (Z.to_nat j) (occurrences b)
             ++ {| od_data := new_data; od_count := 1 |}
                :: drop (Z.to_nat j) (occurrences b).
Proof.
  intros Hwf Hs Hdesc Hholds.
  apply holds_refs in Hholds as (b & Hb & Hv & Hin).
  destruct (bsearch_lower_bound index val Hwf Hs) as (i & Hbs & Hi & _ & Hat).
  pose proof (Hat b Hb Hv) as Hlb.
  pose proof (live_cell _ _ _ Hlb) as [Hcb Hlt].
  rewrite Z2Nat.id in Hcb, Hlt by lia.
  assert (Hwb : wf_bucket b) by (apply (live_wf_bucket index i); [done|lia|done]).
  assert (Hbd : descending b).
  { rewrite Forall_forall in Hdesc. by apply Hdesc. }
  destruct (_data_search_spec b new_data Hwb Hbd) as (j & Hds & Hres).
  pose proof (_data_search_found _ _ _ Hres Hin) as Hfound.
  pose proof (lookup_lt_Some _ _ _ Hfound) as Hjlt.
  unfold refs, occurrences in Hjlt. rewrite length_fmap, length_take in Hjlt.
  destruct Hres as [Hj _].
  unfold refs in Hfound. rewrite list_lookup_fmap in Hfound.
  destruct (occurrences b !! Z.to_nat j) as [c|] eqn:Hc; [|done].
  injection Hfound as Hd.
  assert (Hcell : cell (bk_cells b) j = Some c).
  { apply cell_Some. split; [lia|]. unfold occurrences in Hc.
    by rewrite lookup_take_lt in Hc by lia. }
  assert (Hmiss : no_bucket_at index (_val_comp val) i = Some false).
  { unfold no_bucket_at. destruct (Z.geb_spec i (ix_size index)); [lia|].
    rewrite Hcb. simpl. rewrite Hv.
    by rewrite (proj2 (_val_comp_eq val val) eq_refl). }
  assert (Hins : _index_insert h index val new_data
                 = add_occurrence h index i new_data).
  { unfold _index_insert. rewrite Hbs. simpl. by rewrite Hmiss. }
  destruct (add_occurrence_defined h index i new_data b j Hwf
              ltac:(lia) Hcb Hds) as [[ret index'] Hadd].
  { destruct Hwb as (? & ? & ?). lia. }
  assert (Hir : 0 ≤ i < ix_size index) by lia.
  destruct (add_occurrence_live _ _ _ _ _ _ Hwf Hir Hadd)
    as (b0 & b' & j0 & Hb0 & Hlive & Hval & Hds0 & _ & Hcase).
  assert (b0 = b) as -> by congruence.
  assert (j0 = j) as -> by congruence.
  destruct (add_occurrence_spec _ _ _ _ _ _ Hwf Hir Hadd) as (-> & _).
  exists (Z.to_nat i), b, j, c, index', b'.
  split; [done|]. split; [done|]. split; [done|]. split; [done|].
  split; [done|]. split; [by rewrite Hins|]. split; [done|].
  split; [congruence|].
  destruct Hcase as [[Hocc Hwhy]|(Hjs & c' & Hc' & _ & Hocc)].
  - destruct Hwhy as [Hge|Hne].
    + destruct (Z.ltb_spec j (ix_size index)); [lia|done].
    + rewrite Hcell in Hne. simpl in Hne. congruence.
  - destruct (Z.ltb_spec j (ix_size index)); [|lia].
    assert (c' = c) as -> by congruence.
    rewrite Hocc. destruct (Z.ltb_spec j (bk_size b)); [done|lia].
Qed.

Lemma index_insert_again_witness :
  ∃ i b j c index' b',
    live two_relations !! i = Some b ∧ bk_val b = S4Int 5
    ∧ _data_search b 30 = Some j
    ∧ occurrences b !! Z.to_nat j = Some c ∧ od_data c = 30
    ∧ _index_insert (zero_heap 12288) two_relations (S4Int 5) 30
      = Some (1, index')
    ∧ live index' = <[i := b']> (live two_relations)
    ∧ bk_val b' = S4Int 5
    ∧ occurrences b'
      = if j <? ix_size two_relations
        then <[Z.to_nat j := {| od_data := 30; od_count := od_count c + 1 |}]>
               (occurrences b)
        else take (Z.to_nat j) (occurrences b)
             ++ {| od_data := 30; od_count := 1 |}
                :: drop (Z.to_nat j) (occurrences b).
Proof.
  apply (index_insert_again (zero_heap 12288) two_relations (S4Int 5) 30).
  - unfold wf, two_relations, live; simpl.
    repeat split; try lia.
    repeat constructor; unfold wf_bucket; simpl; lia.
  - unfold sorted, two_relations, live; simpl. repeat constructor.
  - unfold two_relations, live, descending, refs, occurrences; simpl.
    apply Forall_cons. split; [|apply Forall_nil_2].
    apply SSorted_cons; [apply SSorted_cons; [apply SSorted_nil|]|].
    all: repeat (apply Forall_cons; split); try apply Forall_nil_2.
    simpl. lia.
  - eexists _, {| od_data := 30; od_count := 1 |}.
    unfold two_relations, live, occurrences; simpl.
    split; [apply list_elem_of_here|]. split; [done|].
    split; [apply list_elem_of_here|done].
Defined.

End Index.

(** ** The write-ahead log ([src/lib/log.c]) *)

Module Log.

Import Index.

(** *** Types and constants *)

(** [log_type_t]: the type field of a record is the 32-bit value found
    in the file, which need not be one of the enumerators. *)
Definition LOG_ENTRY_ADD : Z := 0xaddadd.
Definition LOG_ENTRY_DEL : Z := 0xde1e7e.
Definition LOG_ENTRY_WRAP : Z := 0x123123.
Definition LOG_ENTRY_INIT : Z := 0x87654321.
Definition LOG_ENTRY_BEGIN : Z := 0x1.
Definition LOG_ENTRY_END : Z := 0x2.
Definition LOG_ENTRY_WRITING : Z := 0x3.
Definition LOG_ENTRY_CHECKPOINT : Z := 0x4.

Definition LOG_SIZE : Z := 2 * 1024 * 1024.

(** Modelled from the spec: the typedef of [log_number_t], which is in
    [s4_priv.h] and not among the sources. The specification makes the
    log counter a 64-bit number ([log_header = {u32 type, u64 counter}]):
    an unsigned integer of 8 bytes, whose arithmetic wraps around at
    [2^64]. *)
Definition sizeof_log_number_t : Z := 8.

Definition to_log_number (z : Z) : Z := z mod 2 ^ 64.

Definition sizeof_int32_t : Z := 4.

(** [struct log_header]: a 4-byte type and the 8-byte counter at its
    natural alignment. *)
Record log_header := mk_log_header {
  lh_type : Z;
  lh_num : Z
}.

Definition sizeof_log_header : Z := 16.

(** [struct mod_header]: five [int32_t]. *)
Record mod_header := mk_mod_header {
  ka_len : Z;
  va_len : Z;
  kb_len : Z;
  vb_len : Z;
  s_len : Z
}.

Definition sizeof_mod_header : Z := 20.

(** *** The log file *)

(** What one [fwrite] call hands to the file. *)
Inductive item :=
| ILogHeader (hdr : log_header)
| IModHeader (mhdr : mod_header)
| IBytes (s : string) (len : Z)
| IInt32 (i : Z)
| ILogNumber (n : Z).

Definition item_size (it : item) : Z :=
  match it with
  | ILogHeader _ => sizeof_log_header
  | IModHeader _ => sizeof_mod_header
  | IBytes _ len => len
  | IInt32 _ => sizeof_int32_t
  | ILogNumber _ => sizeof_log_number_t
  end.

(** The [FILE] of the log: the bytes the file holds when the call at
    hand starts, the file position, and the writes made since, each with
    the offset it was made at. No function of [log.c] reads what it has
    written in the same call. *)
Record FILE := mk_FILE {
  f_bytes : list Z;
  f_pos : Z;
  f_writes : list (Z * item)
}.

Definition fwrite (it : item) (f : FILE) : FILE :=
  {| f_bytes := f_bytes f;
     f_pos := f_pos f + item_size it;
     f_writes := f_writes f ++ [(f_pos f, it)] |}.

Definition rewind (f : FILE) : FILE :=
  {| f_bytes := f_bytes f; f_pos := 0; f_writes := f_writes f |}.

Definition ftell (f : FILE) : Z := f_pos f.

(** [struct s4_log_data_St] *)
Record s4_log_data_t := mk_log_data {
  logfile : option FILE;
  log_users : Z;
  last_checkpoint : Z;
  last_synced : Z;
  last_logpoint : Z;
  next_logpoint : Z
}.

Definition set_logfile (f : option FILE) (d : s4_log_data_t) : s4_log_data_t :=
  {| logfile := f; log_users := log_users d;
     last_checkpoint := last_checkpoint d; last_synced := last_synced d;
     last_logpoint := last_logpoint d; next_logpoint := next_logpoint d |}.

Definition set_last_checkpoint (n : Z) (d : s4_log_data_t) : s4_log_data_t :=
  {| logfile := logfile d; log_users := log_users d;
     last_checkpoint := n; last_synced := last_synced d;
     last_logpoint := last_logpoint d; next_logpoint := next_logpoint d |}.

Definition set_last_synced (n : Z) (d : s4_log_data_t) : s4_log_data_t :=
  {| logfile := logfile d; log_users := log_users d;
     last_checkpoint := last_checkpoint d; last_synced := n;
     last_logpoint := last_logpoint d; next_logpoint := next_logpoint d |}.

Definition set_last_logpoint (n : Z) (d : s4_log_data_t) : s4_log_data_t :=
  {| logfile := logfile d; log_users := log_users d;
     last_checkpoint := last_checkpoint d; last_synced := last_synced d;
     last_logpoint := n; next_logpoint := next_logpoint d |}.

Definition set_next_logpoint (n : Z) (d : s4_log_data_t) : s4_log_data_t :=
  {| logfile := logfile d; log_users := log_users d;
     last_checkpoint := last_checkpoint d; last_synced := last_synced d;
     last_logpoint := last_logpoint d; next_logpoint := n |}.

(** Modelled from the spec: the operation lists of [oplist.c], which is
    not among the sources. An oplist is the ordered list of its
    operations, tagged ADD, DEL or WRITING; an ADD or DEL carries the
    five fields of a relation. *)
Inductive op :=
| OpAdd (key_a : string) (val_a : s4_val_t) (key_b : string)
        (val_b : s4_val_t) (src : string)
| OpDel (key_a : string) (val_a : s4_val_t) (key_b : string)
        (val_b : s4_val_t) (src : string)
| OpWriting.

Definition oplist_t : Type := list op.

(** The part of [s4_t] the log works on: the log data, the operations
    [_oplist_execute] has applied to the store, in order, and the number
    of times [_start_sync] has woken the sync thread. *)
Record s4_t := mk_s4 {
  log_data : s4_log_data_t;
  applied : list op;
  sync_wakeups : Z
}.

Definition with_log_data (f : s4_log_data_t → s4_log_data_t) (s4 : s4_t)
    : s4_t :=
  {| log_data := f (log_data s4); applied := applied s4;
     sync_wakeups := sync_wakeups s4 |}.

(** What [s4->log_data->logfile] has been handed since the call began. *)
Definition writes (s4 : s4_t) : list (Z * item) :=
  match logfile (log_data s4) with
  | Some f => f_writes f
  | None => []
  end.

(** [fwrite (..., s4->log_data->logfile)] on an open log file. *)
Definition log_fwrite (it : item) (s4 : s4_t) : s4_t :=
  with_log_data (λ d, set_logfile (fwrite it <$> logfile d) d) s4.

(** *** Writing *)

Definition strlen (s : string) : Z := Z.of_nat (String.length s).

Definition _get_size (hdr : mod_header) : Z :=
  let ret := sizeof_mod_header in
  let ret := ret + (ka_len hdr + kb_len hdr + s_len hdr) in
  let ret := if va_len hdr =? -1 then ret + sizeof_int32_t
             else ret + va_len hdr in
  let ret := if vb_len hdr =? -1 then ret + sizeof_int32_t
             else ret + vb_len hdr in
  ret.

Definition _write_str (str : string) (len : Z) (s4 : s4_t) : s4_t :=
  log_fwrite (IBytes str len) s4.

Definition _write_val (val : s4_val_t) (len : Z) (s4 : s4_t) : s4_t :=
  if len =? -1 then
    match val with
    | S4Int i => log_fwrite (IInt32 i) s4
    | S4Str _ => log_fwrite (IInt32 0) s4
    end
  else
    match val with
    | S4Str s => _write_str s len s4
    | S4Int _ => _write_str EmptyString len s4
    end.

Definition _get_val_len (val : s4_val_t) : Z :=
  match val with
  | S4Str s => strlen s
  | S4Int _ => -1
  end.

(** The size [_estimate_size] counts for one operation. The sums are
    those of the C code as long as they stay within [int]. *)
Definition op_estimate (o : op) : Z :=
  let size := sizeof_log_header in
  match o with
  | OpAdd key_a val_a key_b val_b src
  | OpDel key_a val_a key_b val_b src =>
      let size := size + sizeof_mod_header in
      let size := size + (strlen key_a + strlen key_a + strlen src) in
      size + (_get_val_len val_a + _get_val_len val_b)
  | OpWriting => size
  end.

(** The loop of [_estimate_size], on [ret], [largest] and [*writing]. *)
Fixpoint _estimate_size_loop (list : oplist_t) (ret largest writing : Z)
    : Z * Z * Z :=
  match list with
  | [] => (ret, largest, writing)
  | o :: list' =>
      let size := op_estimate o in
      let writing := match o with OpWriting => 1 | _ => writing end in
      _estimate_size_loop list' (ret + size) (Z.max size largest) writing
  end.

(** [_estimate_size]: the estimate and the value left in [*writing]. *)
Definition _estimate_size (list : oplist_t) (writing : Z) : Z * Z :=
  let '(ret, largest, writing) := _estimate_size_loop list 0 0 writing in
  if ret =? 0 then (0, writing)
  else (ret + (3 * sizeof_log_header + largest), writing).

Definition _log_write_header (hdr : log_header) (size : Z) (s4 : s4_t)
    : s4_t :=
  match logfile (log_data s4) with
  | None => s4
  | Some f =>
      let pos := next_logpoint (log_data s4) mod LOG_SIZE in
      let round := next_logpoint (log_data s4) / LOG_SIZE in
      let wrap := to_log_number (pos + size)
                  >? LOG_SIZE - sizeof_log_header * 2 in
      let f := if wrap
               then rewind (fwrite (ILogHeader
                      {| lh_type := LOG_ENTRY_WRAP;
                         lh_num := to_log_number (pos + round * LOG_SIZE) |}) f)
               else f in
      let pos := if wrap then 0 else pos in
      let round := if wrap then to_log_number (round + 1) else round in
      let hdr := {| lh_type := lh_type hdr;
                    lh_num := to_log_number (pos + round * LOG_SIZE) |} in
      let f := fwrite (ILogHeader hdr) f in
      with_log_data
        (λ d, set_next_logpoint
                (to_log_number (ftell f + round * LOG_SIZE + size))
                (set_last_logpoint (next_logpoint d)
                   (set_logfile (Some f) d))) s4
  end.

Definition _log_mod (type : Z) (key_a : string) (val_a : s4_val_t)
    (key_b : string) (val_b : s4_val_t) (src : string) (s4 : s4_t) : s4_t :=
  match logfile (log_data s4) with
  | None => s4
  | Some _ =>
      let lhdr := {| lh_type := type; lh_num := 0 |} in
      let mhdr := {| ka_len := strlen key_a; kb_len := strlen key_b;
                     s_len := strlen src;
                     va_len := _get_val_len val_a;
                     vb_len := _get_val_len val_b |} in
      let size := _get_size mhdr in
      let s4 := _log_write_header lhdr size s4 in
      let s4 := log_fwrite (IModHeader mhdr) s4 in
      let s4 := _write_str key_a (ka_len mhdr) s4 in
      let s4 := _write_val val_a (va_len mhdr) s4 in
      let s4 := _write_str key_b (kb_len mhdr) s4 in
      let s4 := _write_val val_b (vb_len mhdr) s4 in
      _write_str src (s_len mhdr) s4
  end.

Definition _log_simple (type : Z) (s4 : s4_t) : s4_t :=
  _log_write_header {| lh_type := type; lh_num := 0 |} 0 s4.

(** [_log_checkpoint], for a database with an open log file. *)
Definition _log_checkpoint (s4 : s4_t) : s4_t :=
  let hdr := {| lh_type := LOG_ENTRY_CHECKPOINT; lh_num := 0 |} in
  let s4 := _log_simple LOG_ENTRY_BEGIN s4 in
  let s4 := _log_write_header hdr sizeof_int32_t s4 in
  let s4 := log_fwrite (ILogNumber (last_synced (log_data s4))) s4 in
  let s4 := with_log_data (λ d, set_last_checkpoint (last_synced d) d) s4 in
  _log_simple LOG_ENTRY_END s4.

(** Modelled from the spec: [_start_sync], which is not among the
    sources; it signals the background sync thread. *)
Definition _start_sync (s4 : s4_t) : s4_t :=
  {| log_data := log_data s4; applied := applied s4;
     sync_wakeups := sync_wakeups s4 + 1 |}.

(** The body of the loop of [_log_write] for one operation. *)
Definition log_op (o : op) (s4 : s4_t) : s4_t :=
  match o with
  | OpAdd key_a val_a key_b val_b src =>
      _log_mod LOG_ENTRY_ADD key_a val_a key_b val_b src s4
  | OpDel key_a val_a key_b val_b src =>
      _log_mod LOG_ENTRY_DEL key_a val_a key_b val_b src s4
  | OpWriting => _log_simple LOG_ENTRY_WRITING s4
  end.

(** [_log_write], for the oplist [list] of the database [s4]: the value
    returned and the database after the call. *)
Definition _log_write (list : oplist_t) (s4 : s4_t) : Z * s4_t :=
  let '(size, writing) := _estimate_size list 0 in
  match logfile (log_data s4) with
  | None => (1, s4)
  | Some _ =>
      if size =? 0 then (1, s4) else
      let s4 := if writing =? 0 then s4
                else with_log_data
                       (λ d, set_last_synced (last_logpoint d) d) s4 in
      if to_log_number (next_logpoint (log_data s4) + size)
         >? to_log_number (last_checkpoint (log_data s4) + LOG_SIZE)
      then (writing, s4)
      else
        let s4 := _log_simple LOG_ENTRY_BEGIN s4 in
        let s4 := foldl (λ s4 o, log_op o s4) s4 list in
        let s4 := _log_simple LOG_ENTRY_END s4 in
        let s4 := if last_synced (log_data s4)
                     >? to_log_number (last_checkpoint (log_data s4)
                                       + LOG_SIZE ÷ 2)
                  then _start_sync s4 else s4 in
        (1, s4)
  end.

(** *** The refusal of [_log_write] *)

(** The oplist holds a WRITING marker. *)
Definition has_writing (list : oplist_t) : bool :=
  existsb (λ o, match o with OpWriting => true | _ => false end) list.

(** The log is full for an estimate [size]: the test of line 364. *)
Definition log_full (s4 : s4_t) (size : Z) : Prop :=
  to_log_number (next_logpoint (log_data s4) + size)
  > to_log_number (last_checkpoint (log_data s4) + LOG_SIZE).

Lemma _estimate_size_loop_writing list : ∀ ret largest writing,
  (_estimate_size_loop list ret largest writing).2
  = if has_writing list then 1 else writing.
Proof.
  induction list as [|o list IH]; intros ret largest writing; simpl; [done|].
  rewrite IH. destruct o; simpl; try done. by destruct (has_writing list).
Qed.

Lemma _estimate_size_writing list :
  (_estimate_size list 0).2 = if has_writing list then 1 else 0.
Proof.
  unfold _estimate_size.
  pose proof (_estimate_size_loop_writing list 0 0 0) as H.
  destruct (_estimate_size_loop list 0 0 0) as [[ret largest] writing].
  simpl in H. by destruct (ret =? 0).
Qed.

(** A database with an open, empty log file and the header fields
    given. *)
Definition db_at (pos : Z) (checkpoint synced logpoint next : Z) : s4_t :=
  {| log_data := {| logfile := Some {| f_bytes := []; f_pos := pos;
                                       f_writes := [] |};
                    log_users := 1;
                    last_checkpoint := checkpoint; last_synced := synced;
                    last_logpoint := logpoint; next_logpoint := next |};
     applied := []; sync_wakeups := 0 |}.

(** C4, as the code has it. On a database with an open log file, for an
    oplist whose estimate is not zero and for which the log is full,
    [_log_write] hands nothing to the file and leaves [next_logpoint],
    [last_logpoint] and [last_checkpoint] as they are; it returns 0,
    failure, when the oplist holds no WRITING marker; when it holds one,
    it returns 1 and [last_synced] has been set to [last_logpoint]. *)
Theorem log_write_refusal (list : oplist_t) (s4 : s4_t) (f : FILE) :
  logfile (log_data s4) = Some f →
  (_estimate_size list 0).1 ≠ 0 →
  log_full s4 (_estimate_size list 0).1 →
  let r := _log_write list s4 in
  logfile (log_data r.2) = Some f
  ∧ writes r.2 = writes s4
  ∧ next_logpoint (log_data r.2) = next_logpoint (log_data s4)
  ∧ last_logpoint (log_data r.2) = last_logpoint (log_data s4)
  ∧ last_checkpoint (log_data r.2) = last_checkpoint (log_data s4)
  ∧ applied r.2 = applied s4
  ∧ (has_writing list = false →
       r.1 = 0 ∧ last_synced (log_data r.2) = last_synced (log_data s4))
  ∧ (has_writing list = true →
       r.1 = 1 ∧ last_synced (log_data r.2) = last_logpoint (log_data s4)).
Proof.
  intros Hf Hsize Hfull. unfold log_full in Hfull.
  pose proof (_estimate_size_writing list) as Hw.
  unfold _log_write, writes.
  destruct (_estimate_size list 0) as [size writing]. simpl in *.
  rewrite Hf. destruct (Z.eqb_spec size 0) as [|_]; [done|].
  subst writing. destruct (has_writing list); simpl.
  - destruct (Z.gtb_spec
      (to_log_number (next_logpoint (log_data s4) + size))
      (to_log_number (last_checkpoint (log_data s4) + LOG_SIZE)));
      [|lia].
    simpl. rewrite Hf. done.
  - destruct (Z.gtb_spec
      (to_log_number (next_logpoint (log_data s4) + size))
      (to_log_number (last_checkpoint (log_data s4) + LOG_SIZE)));
      [|lia].
    simpl. rewrite Hf. done.
Qed.

Lemma log_write_refusal_witness :
  (_log_write [OpAdd "entry" (S4Str "a") "property" (S4Str "b") "1"]
     (db_at 0 0 0 0 LOG_SIZE)).1 = 0.
Proof.
  refine (proj1 (proj1 (proj2 (proj2 (proj2 (proj2 (proj2 (proj2
    (log_write_refusal
       [OpAdd "entry" (S4Str "a") "property" (S4Str "b") "1"]
       (db_at 0 0 0 0 LOG_SIZE) _ eq_refl _ _))))))) eq_refl)).
  - by vm_compute.
  - by vm_compute.
Defined.

(** C4, as it is stated, fails for the oplist the sync thread logs: the
    log is full for it, and [_log_write] returns 1. *)
Lemma log_write_refusal_returns_success :
  log_full (db_at 0 0 0 0 LOG_SIZE) (_estimate_size [OpWriting] 0).1
  ∧ (_log_write [OpWriting] (db_at 0 0 0 0 LOG_SIZE)).1 = 1
  ∧ (_log_write [OpWriting] (db_at 0 0 0 0 LOG_SIZE)).1 ≠ 0.
Proof. by vm_compute. Qed.

(** *** The estimate against what is written *)

(** The number of bytes handed to the file between two states. *)
Definition bytes_appended (s4 s4' : s4_t) : Z :=
  foldr (λ w n, item_size w.2 + n) 0
    (drop (length (writes s4)) (writes s4')).

(** An ADD whose second key is longer than its first, with int values. *)
Definition long_key_b : string :=
  "a much longer key than the first one, sixty-six bytes in length...".

Definition under_estimated : oplist_t :=
  [OpAdd "a" (S4Int 1) long_key_b (S4Int 2) "s"].

(** The log 122 bytes short of [last_checkpoint + LOG_SIZE], the file
    position in step with [next_logpoint]. *)
Definition nearly_full : s4_t :=
  db_at 878 1000 (LOG_SIZE + 862) (LOG_SIZE + 862) (LOG_SIZE + 878).

(** C5, on the code as it is. [_estimate_size] counts the first key
    twice and the second key not at all, and counts -1 for an int value,
    which takes 4 bytes in the log: for [under_estimated] it returns 122
    while [_log_write] hands 144 bytes to the file. On [nearly_full] the
    write is accepted and leaves [next_logpoint] 22 bytes past
    [last_checkpoint + LOG_SIZE]. *)
Theorem estimate_size_below_bytes_written :
  (_estimate_size under_estimated 0).1 = 122
  ∧ ¬ log_full nearly_full 122
  ∧ (_log_write under_estimated nearly_full).1 = 1
  ∧ bytes_appended nearly_full (_log_write under_estimated nearly_full).2
    = 144
  ∧ next_logpoint (log_data (_log_write under_estimated nearly_full).2)
    = last_checkpoint (log_data nearly_full) + LOG_SIZE + 22.
Proof. by vm_compute. Qed.

(** *** Counters and file offsets *)

(** A header handed to the file sits at the offset its counter names. *)
Definition counter_at_offset (w : Z * item) : Prop :=
  match w.2 with
  | ILogHeader hdr => lh_num hdr mod LOG_SIZE = w.1
  | _ => True
  end.

(** The file position is the one [next_logpoint] names. *)
Definition in_step (s4 : s4_t) : Prop :=
  ∃ f, logfile (log_data s4) = Some f
       ∧ f_pos f = next_logpoint (log_data s4) mod LOG_SIZE.

Lemma to_log_number_mod z : to_log_number z mod LOG_SIZE = z mod LOG_SIZE.
Proof.
  unfold to_log_number. apply Z.mod_mod_divide.
  exists (2 ^ 43). reflexivity.
Qed.

(** When the file position is in step, [_log_write_header] puts the
    header, and the WRAP header before it if there is one, at the offsets
    their counters name. *)
Lemma _log_write_header_counters hdr size s4 :
  in_step s4 →
  Forall counter_at_offset (writes s4) →
  Forall counter_at_offset (writes (_log_write_header hdr size s4)).
Proof.
  intros (f & Hf & Hpos) Hall. unfold writes, _log_write_header in *.
  rewrite Hf in *. simpl.
  set (pos := next_logpoint (log_data s4) mod LOG_SIZE) in *.
  set (round := next_logpoint (log_data s4) / LOG_SIZE) in *.
  assert (Hrange : 0 ≤ pos < LOG_SIZE) by (apply Z.mod_pos_bound; done).
  destruct (to_log_number (pos + size) >? LOG_SIZE - sizeof_log_header * 2);
    simpl.
  - rewrite <- app_assoc. apply Forall_app. split; [done|].
    repeat constructor; unfold counter_at_offset; simpl.
    + rewrite to_log_number_mod, Z.mod_add by done.
      rewrite Z.mod_small; lia.
    + rewrite to_log_number_mod, Z.add_0_l. by apply Z.mod_mul.
  - apply Forall_app. split; [done|].
    repeat constructor; unfold counter_at_offset; simpl.
    rewrite to_log_number_mod, Z.mod_add by done.
    rewrite Z.mod_small; lia.
Qed.

(** *** Where the counters do name the offsets *)

(** The records at their counters so far, and the file position [ahead]
    bytes short of the one [next_logpoint] names: the state between a
    header and the end of its payload. *)
Definition on_track (ahead : Z) (s4 : s4_t) : Prop :=
  Forall counter_at_offset (writes s4)
  ∧ ∃ f, logfile (log_data s4) = Some f
         ∧ 0 ≤ ahead ∧ f_pos f + ahead < LOG_SIZE
         ∧ f_pos f + ahead = next_logpoint (log_data s4) mod LOG_SIZE.

Lemma on_track_in_step s4 : on_track 0 s4 → in_step s4.
Proof.
  intros (_ & f & Hf & _ & _ & Hpos). exists f. split; [done|].
  by rewrite Z.add_0_r in Hpos.
Qed.

Lemma on_track_fwrite it ahead s4 :
  on_track (ahead + item_size it) s4 → 0 ≤ ahead → 0 ≤ item_size it →
  (∀ hdr, it ≠ ILogHeader hdr) →
  on_track ahead (log_fwrite it s4).
Proof.
  intros (Hall & f & Hf & H0 & Hlt & Hpos) Hahead Hsize Hnot.
  unfold on_track, writes, log_fwrite in *. simpl. rewrite Hf in *. simpl.
  split.
  - apply Forall_app. split; [done|]. repeat constructor.
    unfold counter_at_offset. simpl. destruct it; try done.
    by destruct (Hnot hdr).
  - eexists. split; [reflexivity|]. simpl. lia.
Qed.

Lemma mod_round a r s :
  to_log_number (a + r * LOG_SIZE + s) mod LOG_SIZE = (a + s) mod LOG_SIZE.
Proof.
  rewrite to_log_number_mod.
  replace (a + r * LOG_SIZE + s) with (a + s + r * LOG_SIZE) by lia.
  by apply Z.mod_add.
Qed.

(** A header for a payload that fits in the log keeps the records on
    track. *)
Lemma on_track_header hdr size s4 :
  on_track 0 s4 → 0 ≤ size ≤ LOG_SIZE - sizeof_log_header * 2 →
  on_track size (_log_write_header hdr size s4).
Proof.
  intros Htrack Hsize.
  pose proof (_log_write_header_counters hdr size s4
    (on_track_in_step _ Htrack) (proj1 Htrack)) as Hall.
  split; [done|]. clear Hall.
  destruct Htrack as (_ & f & Hf & _ & Hlt & Hpos).
  rewrite Z.add_0_r in Hpos, Hlt.
  unfold _log_write_header. rewrite Hf.
  set (pos := next_logpoint (log_data s4) mod LOG_SIZE) in *.
  set (round := next_logpoint (log_data s4) / LOG_SIZE) in *.
  assert (Hrange : 0 ≤ pos < LOG_SIZE) by (apply Z.mod_pos_bound; done).
  assert (Hsmall : to_log_number (pos + size) = pos + size).
  { unfold to_log_number. apply Z.mod_small.
    unfold LOG_SIZE, sizeof_log_header in *. lia. }
  rewrite Hsmall.
  destruct (Z.gtb_spec (pos + size) (LOG_SIZE - sizeof_log_header * 2));
    simpl; eexists; (split; [reflexivity|]); simpl;
    unfold ftell; simpl; rewrite mod_round;
    (split; [lia|]);
    (rewrite Z.mod_small; unfold LOG_SIZE, sizeof_log_header in *; lia).
Qed.

(** The bytes the payload of an operation takes in the log. *)
Definition payload_size (o : op) : Z :=
  match o with
  | OpAdd key_a val_a key_b val_b src
  | OpDel key_a val_a key_b val_b src =>
      _get_size {| ka_len := strlen key_a; kb_len := strlen key_b;
                   s_len := strlen src;
                   va_len := _get_val_len val_a;
                   vb_len := _get_val_len val_b |}
  | OpWriting => 0
  end.

Lemma strlen_nonneg s : 0 ≤ strlen s.
Proof. unfold strlen. lia. Qed.

Lemma val_size_nonneg val :
  0 ≤ (if _get_val_len val =? -1 then sizeof_int32_t else _get_val_len val).
Proof.
  destruct val as [i|s]; simpl; [done|].
  pose proof (strlen_nonneg s).
  destruct (Z.eqb_spec (strlen s) (-1)); lia.
Qed.

Lemma on_track_write_val val ahead s4 :
  on_track
    (ahead + (if _get_val_len val =? -1 then sizeof_int32_t
              else _get_val_len val)) s4 →
  0 ≤ ahead →
  on_track ahead (_write_val val (_get_val_len val) s4).
Proof.
  intros Htrack Hahead. unfold _write_val.
  destruct val as [i|s]; simpl in *.
  - by apply (on_track_fwrite (IInt32 i)).
  - pose proof (strlen_nonneg s).
    destruct (Z.eqb_spec (strlen s) (-1)); [lia|].
    by apply (on_track_fwrite (IBytes s (strlen s))).
Qed.

Lemma on_track_log_mod type key_a val_a key_b val_b src s4 :
  on_track 0 s4 →
  payload_size (OpAdd key_a val_a key_b val_b src)
    ≤ LOG_SIZE - sizeof_log_header * 2 →
  on_track 0 (_log_mod type key_a val_a key_b val_b src s4).
Proof.
  intros Htrack Hfit. unfold _log_mod.
  destruct (logfile (log_data s4)) eqn:Hf; [|done].
  pose proof (strlen_nonneg key_a). pose proof (strlen_nonneg key_b).
  pose proof (strlen_nonneg src).
  pose proof (val_size_nonneg val_a) as Hla.
  pose proof (val_size_nonneg val_b) as Hlb.
  cbv zeta. simpl ka_len. simpl kb_len. simpl s_len. simpl va_len.
  simpl vb_len.
  unfold payload_size in Hfit.
  set (size := _get_size _) in *.
  assert (Hsize : size
    = 0 + strlen src
      + (if _get_val_len val_b =? -1 then sizeof_int32_t
         else _get_val_len val_b)
      + strlen key_b
      + (if _get_val_len val_a =? -1 then sizeof_int32_t
         else _get_val_len val_a)
      + strlen key_a + sizeof_mod_header).
  { unfold size, _get_size. simpl. repeat case_match; lia. }
  apply (on_track_fwrite (IBytes src (strlen src))); [|done..].
  simpl item_size.
  apply on_track_write_val; [|lia].
  apply (on_track_fwrite (IBytes key_b (strlen key_b))); [|lia|done..].
  simpl item_size.
  apply on_track_write_val; [|lia].
  apply (on_track_fwrite (IBytes key_a (strlen key_a))); [|lia|done..].
  simpl item_size.
  apply (on_track_fwrite (IModHeader _)); [|lia|done..].
  simpl item_size. rewrite <- Hsize.
  apply on_track_header; [done|].
  unfold sizeof_mod_header in Hsize. lia.
Qed.

Lemma on_track_log_simple type s4 :
  on_track 0 s4 → on_track 0 (_log_simple type s4).
Proof.
  intros H. apply on_track_header; [done|].
  unfold LOG_SIZE, sizeof_log_header. lia.
Qed.

Lemma on_track_log_op o s4 :
  on_track 0 s4 →
  payload_size o ≤ LOG_SIZE - sizeof_log_header * 2 →
  on_track 0 (log_op o s4).
Proof.
  intros Htrack Hfit. destruct o; simpl.
  - by apply on_track_log_mod.
  - by apply on_track_log_mod.
  - by apply on_track_log_simple.
Qed.

Lemma on_track_last_synced n s4 :
  on_track 0 s4 → on_track 0 (with_log_data (set_last_synced n) s4).
Proof. done. Qed.

(** When the file position is in step and every payload fits in the
    log, every header [_log_write] hands to the file sits at the offset
    its counter names, and the file position is in step again after the
    call. *)
Lemma _log_write_on_track list s4 :
  on_track 0 s4 →
  Forall (λ o, payload_size o ≤ LOG_SIZE - sizeof_log_header * 2) list →
  on_track 0 (_log_write list s4).2.
Proof.
  intros Htrack Hfit. unfold _log_write.
  destruct (_estimate_size list 0) as [size writing].
  destruct (logfile (log_data s4)) eqn:Hf; [|done].
  destruct (size =? 0); [done|].
  set (s4a := if writing =? 0 then s4 else _).
  assert (Ha : on_track 0 s4a).
  { unfold s4a. destruct (writing =? 0); [done|].
    by apply (on_track_last_synced (last_logpoint (log_data s4))). }
  clearbody s4a.
  destruct (_ >? _); [done|].
  apply on_track_log_simple with (type := LOG_ENTRY_BEGIN) in Ha.
  assert (Hops : ∀ s, on_track 0 s →
            on_track 0 (foldl (λ s4 o, log_op o s4) s list)).
  { clear Ha. induction Hfit as [|o list Ho Hfit IH]; intros s Hs; simpl;
      [done|].
    apply IH. by apply on_track_log_op. }
  apply Hops in Ha.
  apply on_track_log_simple with (type := LOG_ENTRY_END) in Ha.
  simpl. by destruct (_ >? _).
Qed.

(** The log [_log_open] leaves when it creates the file. *)
Definition created_log : s4_t := _log_simple LOG_ENTRY_INIT (db_at 0 0 0 0 0).

(** C3, on the code as it is. [_log_checkpoint] announces 4 bytes,
    [sizeof (int32_t)], after the CHECKPOINT header and writes the 8
    bytes of a [log_number_t]: on the log just created, the END record
    that follows carries the counter 52 and is written at offset 56. The
    BEGIN and CHECKPOINT headers before it sit at their counters. *)
Theorem checkpoint_end_record_off_its_counter :
  in_step created_log
  ∧ writes (_log_checkpoint created_log)
    = [(0, ILogHeader {| lh_type := LOG_ENTRY_INIT; lh_num := 0 |});
       (16, ILogHeader {| lh_type := LOG_ENTRY_BEGIN; lh_num := 16 |});
       (32, ILogHeader {| lh_type := LOG_ENTRY_CHECKPOINT; lh_num := 32 |});
       (48, ILogNumber 0);
       (56, ILogHeader {| lh_type := LOG_ENTRY_END; lh_num := 52 |})]
  ∧ ¬ Forall counter_at_offset (writes (_log_checkpoint created_log)).
Proof.
  split; [|split].
  - eexists. split; [reflexivity|]. by vm_compute.
  - by vm_compute.
  - intros H. rewrite Forall_forall in H.
    specialize (H (56, ILogHeader {| lh_type := LOG_ENTRY_END; lh_num := 52 |})).
    unfold counter_at_offset in H. simpl in H.
    assert (52 mod LOG_SIZE = 56) as Habs; [|by vm_compute in Habs].
    apply H. vm_compute.
    do 4 apply list_elem_of_further. apply list_elem_of_here.
Qed.

(** A string of [2^n] times the bytes of [s]. *)
Fixpoint doubled (n : nat) (s : string) : string :=
  match n with
  | O => s
  | S n' => let t := doubled n' s in (t ++ t)%string
  end.

(** An ADD whose second key, of 2 MiB, is larger than the log. *)
Definition oversized : oplist_t :=
  [OpAdd "a" (S4Int 1) (doubled 21 "x") (S4Int 2) "s"].

(** The headers among the writes. *)
Definition headers (ws : list (Z * item)) : list (Z * log_header) :=
  omap (λ w, match w.2 with
             | ILogHeader hdr => Some (w.1, hdr)
             | _ => None
             end) ws.

(** The second key is not in the estimate: [_log_write] accepts
    [oversized] on the log just created with an estimate of 122 bytes,
    and the END record after the payload, which is longer than the log,
    carries the counter 4194350 and is written at offset 2097198. *)
Lemma oversized_record_moves_end_off_its_counter :
  (_estimate_size oversized 0).1 = 122
  ∧ headers (writes (_log_write oversized created_log).2)
    = [(0, {| lh_type := LOG_ENTRY_INIT; lh_num := 0 |});
       (16, {| lh_type := LOG_ENTRY_BEGIN; lh_num := 16 |});
       (32, {| lh_type := LOG_ENTRY_WRAP; lh_num := 32 |});
       (0, {| lh_type := LOG_ENTRY_ADD; lh_num := LOG_SIZE |});
       (2097198, {| lh_type := LOG_ENTRY_END; lh_num := 4194350 |})]
  ∧ 4194350 mod LOG_SIZE ≠ 2097198.
Proof. by vm_compute. Qed.

(** *** Reading the log back *)

(** [fseek (file, pos, SEEK_SET)] to an offset that is not negative. *)
Definition fseek (pos : Z) (f : FILE) : FILE :=
  {| f_bytes := f_bytes f; f_pos := pos; f_writes := f_writes f |}.

(** [fread] of [n] bytes: the bytes, when the file holds that many from
    the file position on; otherwise the read falls short, giving the
    bytes that are left, and stops at the end of the file. *)
Definition fread (n : Z) (f : FILE) : (option (list Z) * list Z) * FILE :=
  let rest := drop (Z.to_nat (f_pos f)) (f_bytes f) in
  if n <=? Z.of_nat (length rest)
  then (Some (take (Z.to_nat n) rest), take (Z.to_nat n) rest,
        {| f_bytes := f_bytes f; f_pos := f_pos f + n;
           f_writes := f_writes f |})
  else (None, rest,
        {| f_bytes := f_bytes f; f_pos := f_pos f + Z.of_nat (length rest);
           f_writes := f_writes f |}).

(** The value of bytes in little-endian order. *)
Fixpoint le_bytes (bs : list Z) : Z :=
  match bs with
  | [] => 0
  | b :: bs' => b + 256 * le_bytes bs'
  end.

Definition decode_uint (n : nat) (bs : list Z) : Z := le_bytes (take n bs).

Definition decode_int32 (bs : list Z) : Z :=
  let u := decode_uint 4 bs in
  if u >=? 2 ^ 31 then u - 2 ^ 32 else u.

Definition decode_log_header (bs : list Z) : log_header :=
  {| lh_type := decode_uint 4 bs; lh_num := decode_uint 8 (drop 8 bs) |}.

Definition decode_mod_header (bs : list Z) : mod_header :=
  {| ka_len := decode_int32 bs;
     va_len := decode_int32 (drop 4 bs);
     kb_len := decode_int32 (drop 8 bs);
     vb_len := decode_int32 (drop 12 bs);
     s_len := decode_int32 (drop 16 bs) |}.

(** The C string in a buffer that ends with a NUL: the bytes up to the
    first NUL. *)
Fixpoint cstring (bs : list Z) : string :=
  match bs with
  | [] => EmptyString
  | b :: bs' =>
      if b =? 0 then EmptyString
      else String (Ascii.ascii_of_N (Z.to_N b)) (cstring bs')
  end.

(** Modelled from the spec: [_string_lookup], [_string_lookup_val] and
    [_int_lookup_val] of the string table, which is not among the
    sources. Interning hands back the constant string or value with the
    content given; it does not fail. *)
Definition _string_lookup (str : string) : option string := Some str.
Definition _string_lookup_val (str : string) : option s4_val_t :=
  Some (S4Str str).
Definition _int_lookup_val (i : Z) : option s4_val_t := Some (S4Int i).

(** [_read_str]: the string, or [None] for [NULL], and the file after
    the read. *)
Definition _read_str (len : Z) (f : FILE) : option string * FILE :=
  if (len <? 0) || (len >? LOG_SIZE) then (None, f)
  else
    let '(r, _, f) := fread len f in
    match r with
    | None => (None, f)
    | Some bs => (_string_lookup (cstring bs), f)
    end.

(** [_read_val]. The read of an int is not checked: when it falls short
    [i] keeps what the stack held, for which the model takes the bytes
    that were read. *)
Definition _read_val (len : Z) (f : FILE) : option s4_val_t * FILE :=
  if len =? -1 then
    let '(_, bs, f) := fread sizeof_int32_t f in
    (_int_lookup_val (decode_int32 bs), f)
  else
    let '(str, f) := _read_str len f in
    (match str with
     | Some s => _string_lookup_val s
     | None => None
     end, f).

(** [_read_mod]: the value returned, the oplist and the file after the
    call. The read of the [mod_header] is not checked either. *)
Definition _read_mod (list : option oplist_t) (type : Z) (f : FILE)
    : Z * option oplist_t * FILE :=
  match list with
  | None => (0, list, f)
  | Some ops =>
      let '(_, bs, f) := fread sizeof_mod_header f in
      let mhdr := decode_mod_header bs in
      let '(key_a, f) := _read_str (ka_len mhdr) f in
      let '(val_a, f) := _read_val (va_len mhdr) f in
      let '(key_b, f) := _read_str (kb_len mhdr) f in
      let '(val_b, f) := _read_val (vb_len mhdr) f in
      let '(src, f) := _read_str (s_len mhdr) f in
      match key_a, val_a, key_b, val_b, src with
      | Some key_a, Some val_a, Some key_b, Some val_b, Some src =>
          if type =? LOG_ENTRY_ADD
          then (1, Some (ops ++ [OpAdd key_a val_a key_b val_b src]), f)
          else if type =? LOG_ENTRY_DEL
          then (1, Some (ops ++ [OpDel key_a val_a key_b val_b src]), f)
          else (1, Some ops, f)
      | _, _, _, _, _ => (0, Some ops, f)
      end
  end.

(** Modelled from the spec: [_oplist_execute (oplist, 0)], which is not
    among the sources; it applies the operations of the oplist to the
    store, in order, without logging them again. *)
Definition _oplist_execute (oplist : oplist_t) (s4 : s4_t) : s4_t :=
  {| log_data := log_data s4; applied := applied s4 ++ oplist;
     sync_wakeups := sync_wakeups s4 |}.

(** The variables of the loop of [_log_redo]. *)
Record redo_t := mk_redo {
  r_s4 : s4_t;
  r_file : FILE;
  r_pos : Z;
  r_round : Z;
  r_new_checkpoint : Z;
  r_new_synced : Z;
  r_last_valid_logpoint : Z;
  r_oplist : option oplist_t;
  r_invalid_entry : Z
}.

(** A record the loop has taken: its logpoint, the file offset its
    header was read at and the rotation at that time, the header, and
    the operation [_read_mod] has put in the oplist, if any. *)
Record event := mk_event {
  ev_logpoint : Z;
  ev_offset : Z;
  ev_round : Z;
  ev_hdr : log_header;
  ev_op : option op
}.

(** The [switch] on the type of the record, lines 532 to 585, on a state
    whose [last_logpoint] has been set for the record. *)
Definition redo_switch (hdr : log_header) (st : redo_t)
    : option op * redo_t :=
  let type := lh_type hdr in
  if type =? LOG_ENTRY_WRAP then
    (None, {| r_s4 := r_s4 st; r_file := rewind (r_file st);
              r_pos := r_pos st; r_round := to_log_number (r_round st + 1);
              r_new_checkpoint := r_new_checkpoint st;
              r_new_synced := r_new_synced st;
              r_last_valid_logpoint := r_last_valid_logpoint st;
              r_oplist := r_oplist st;
              r_invalid_entry := r_invalid_entry st |})
  else if (type =? LOG_ENTRY_DEL) || (type =? LOG_ENTRY_ADD) then
    let '(ret, oplist, f) := _read_mod (r_oplist st) type (r_file st) in
    (if ret =? 0 then None
     else match oplist with
          | Some ops => last ops
          | None => None
          end,
     {| r_s4 := r_s4 st; r_file := f;
        r_pos := r_pos st; r_round := r_round st;
        r_new_checkpoint := r_new_checkpoint st;
        r_new_synced := r_new_synced st;
        r_last_valid_logpoint := r_last_valid_logpoint st;
        r_oplist := oplist;
        r_invalid_entry := if ret =? 0 then 1 else r_invalid_entry st |})
  else if type =? LOG_ENTRY_CHECKPOINT then
    let '(_, bs, f) := fread sizeof_log_number_t (r_file st) in
    (None, {| r_s4 := r_s4 st; r_file := f;
              r_pos := r_pos st; r_round := r_round st;
              r_new_checkpoint := decode_uint 8 bs;
              r_new_synced := r_new_synced st;
              r_last_valid_logpoint := r_last_valid_logpoint st;
              r_oplist := r_oplist st;
              r_invalid_entry := r_invalid_entry st |})
  else if type =? LOG_ENTRY_WRITING then
    (None, {| r_s4 := r_s4 st; r_file := r_file st;
              r_pos := r_pos st; r_round := r_round st;
              r_new_checkpoint := r_new_checkpoint st;
              r_new_synced := last_logpoint (log_data (r_s4 st));
              r_last_valid_logpoint := r_last_valid_logpoint st;
              r_oplist := r_oplist st;
              r_invalid_entry := r_invalid_entry st |})
  else if type =? LOG_ENTRY_BEGIN then
    (None, {| r_s4 := r_s4 st; r_file := r_file st;
              r_pos := r_pos st; r_round := r_round st;
              r_new_checkpoint := to_log_number (-1);
              r_new_synced := to_log_number (-1);
              r_last_valid_logpoint := r_last_valid_logpoint st;
              r_oplist := Some [];
              r_invalid_entry := r_invalid_entry st |})
  else if type =? LOG_ENTRY_END then
    match r_oplist st with
    | None => (None, st)
    | Some ops =>
        let s4 := _oplist_execute ops (r_s4 st) in
        let s4 :=
          if negb (r_new_checkpoint st =? to_log_number (-1)) then
            with_log_data
              (λ d, set_last_synced (r_new_checkpoint st)
                      (set_last_checkpoint (r_new_checkpoint st) d)) s4
          else if negb (r_new_synced st =? to_log_number (-1)) then
            with_log_data (set_last_synced (r_new_synced st)) s4
          else s4 in
        (None, {| r_s4 := s4; r_file := r_file st;
                  r_pos := r_pos st; r_round := r_round st;
                  r_new_checkpoint := r_new_checkpoint st;
                  r_new_synced := r_new_synced st;
                  r_last_valid_logpoint := last_logpoint (log_data s4);
                  r_oplist := None;
                  r_invalid_entry := r_invalid_entry st |})
    end
  else if type =? LOG_ENTRY_INIT then (None, st)
  else
    (None, {| r_s4 := r_s4 st; r_file := r_file st;
              r_pos := r_pos st; r_round := r_round st;
              r_new_checkpoint := r_new_checkpoint st;
              r_new_synced := r_new_synced st;
              r_last_valid_logpoint := r_last_valid_logpoint st;
              r_oplist := r_oplist st;
              r_invalid_entry := 1 |}).

(** One turn of the loop of [_log_redo], lines 526 to 589: [None] when
    the condition of the loop fails, otherwise the record taken and the
    variables after the body. *)
Definition redo_step (st0 : redo_t) : option (event * redo_t) :=
  let st := st0 in
  if negb (r_invalid_entry st =? 0) then None else
  let '(r, _, f) := fread sizeof_log_header (r_file st) in
  match r with
  | None => None
  | Some bs =>
      let hdr := decode_log_header bs in
      let expected := to_log_number (r_pos st + r_round st * LOG_SIZE) in
      if lh_num hdr =? expected then
        let logpoint := next_logpoint (log_data (r_s4 st)) in
        let st :=
          {| r_s4 := with_log_data (set_last_logpoint logpoint) (r_s4 st);
             r_file := f; r_pos := r_pos st; r_round := r_round st;
             r_new_checkpoint := r_new_checkpoint st;
             r_new_synced := r_new_synced st;
             r_last_valid_logpoint := r_last_valid_logpoint st;
             r_oplist := r_oplist st;
             r_invalid_entry := r_invalid_entry st |} in
        let '(o, st) := redo_switch hdr st in
        let pos := ftell (r_file st) in
        Some ({| ev_logpoint := logpoint;
                 ev_offset := f_pos (r_file st0); ev_round := r_round st0;
                 ev_hdr := hdr; ev_op := o |},
              {| r_s4 := with_log_data
                           (set_next_logpoint
                              (to_log_number (pos + r_round st * LOG_SIZE)))
                           (r_s4 st);
                 r_file := r_file st; r_pos := pos; r_round := r_round st;
                 r_new_checkpoint := r_new_checkpoint st;
                 r_new_synced := r_new_synced st;
                 r_last_valid_logpoint := r_last_valid_logpoint st;
                 r_oplist := r_oplist st;
                 r_invalid_entry := r_invalid_entry st |})
      else None
  end.

(** The loop, for at most [fuel] turns: the variables it ends with and
    the records it has taken, in order. *)
Fixpoint redo_loop (fuel : nat) (st : redo_t) : list event * redo_t :=
  match fuel with
  | O => ([], st)
  | S fuel' =>
      match redo_step st with
      | None => ([], st)
      | Some (ev, st') =>
          let '(evs, st'') := redo_loop fuel' st' in (ev :: evs, st'')
      end
  end.

(** Turns that are enough for the loop to end by its own condition on a
    file of the length given: between two WRAP records the file position
    grows, and the record at offset 0 stops the third pass. *)
Definition redo_fuel (f : FILE) : nat := 2 * length (f_bytes f) + 6.

(** Modelled from the spec: [_reread_file], which is in [s4.c] and not
    among the sources; the database is read again from the snapshot,
    which takes the log back to the checkpoint of the snapshot. It is a
    parameter of [_log_redo]. *)
Definition reread_t : Type := s4_t → s4_t.

(** [_log_redo], lines 500 to 512: [None] when the header at
    [last_logpoint] cannot be read (the function returns 0), otherwise
    the database as the scan finds it, read again when the header there
    is not the one last written. *)
Definition redo_start (_reread_file : reread_t) (s4 : s4_t) : option s4_t :=
  match logfile (log_data s4) with
  | None => None
  | Some f =>
      let pos := last_logpoint (log_data s4) mod LOG_SIZE in
      let '(r, _, f) := fread sizeof_log_header (fseek pos f) in
      match r with
      | None => None
      | Some bs =>
          let hdr := decode_log_header bs in
          let s4 := with_log_data (set_logfile (Some f)) s4 in
          Some (if negb (lh_num hdr =? last_logpoint (log_data s4))
                then _reread_file s4 else s4)
      end
  end.

(** Lines 514 to 521: the variables the loop starts with. *)
Definition redo_init (s4 : s4_t) (f : FILE) : redo_t :=
  let last_valid_logpoint := last_logpoint (log_data s4) in
  let next := to_log_number (last_logpoint (log_data s4)
                             + sizeof_log_header) in
  let s4 := with_log_data (set_next_logpoint next) s4 in
  let pos := next mod LOG_SIZE in
  let round := next / LOG_SIZE in
  {| r_s4 := s4; r_file := fseek pos f; r_pos := pos; r_round := round;
     r_new_checkpoint := to_log_number (-1);
     r_new_synced := to_log_number (-1);
     r_last_valid_logpoint := last_valid_logpoint;
     r_oplist := None; r_invalid_entry := 0 |}.

(** Lines 591 to 601: the database the function leaves. *)
Definition redo_finish (st : redo_t) : s4_t :=
  let last := r_last_valid_logpoint st in
  let next := to_log_number (last + sizeof_log_header) in
  let f := fseek (next mod LOG_SIZE) (r_file st) in
  with_log_data
    (λ d, set_logfile (Some f)
            (set_next_logpoint next (set_last_logpoint last d)))
    (r_s4 st).

(** [_log_redo], for a database with an open log file: the value
    returned, the database after the call, and the records the loop has
    taken. *)
Definition _log_redo (_reread_file : reread_t) (s4 : s4_t)
    : Z * s4_t * list event :=
  match redo_start _reread_file s4 with
  | None => (0, s4, [])
  | Some s4 =>
      match logfile (log_data s4) with
      | None => (0, s4, [])
      | Some f =>
          let '(evs, st) := redo_loop (redo_fuel f) (redo_init s4 f) in
          (1, redo_finish st, evs)
      end
  end.

(** *** What recovery is to do, in the words of the specification *)

(** The record types of the log. *)
Definition known_type (t : Z) : bool :=
  (t =? LOG_ENTRY_ADD) || (t =? LOG_ENTRY_DEL) || (t =? LOG_ENTRY_WRAP)
  || (t =? LOG_ENTRY_INIT) || (t =? LOG_ENTRY_BEGIN) || (t =? LOG_ENTRY_END)
  || (t =? LOG_ENTRY_WRITING) || (t =? LOG_ENTRY_CHECKPOINT).

(** Replaying one record: the oplist of the transaction that is open, if
    one is, the logpoint of the last transaction an END record has
    terminated, and the operations applied to the store. BEGIN opens a
    transaction, ADD and DEL buffer their operation in the open
    transaction, END applies the buffered operations and makes its
    logpoint the last valid one; nothing else touches them. *)
Definition replay_step (s : option oplist_t * Z * list op) (ev : event)
    : option oplist_t * Z * list op :=
  let '(txn, logpoint, store) := s in
  let t := lh_type (ev_hdr ev) in
  if t =? LOG_ENTRY_BEGIN then (Some [], logpoint, store)
  else if t =? LOG_ENTRY_END then
    match txn with
    | Some ops => (None, ev_logpoint ev, store ++ ops)
    | None => (None, logpoint, store)
    end
  else if (t =? LOG_ENTRY_ADD) || (t =? LOG_ENTRY_DEL) then
    (match txn, ev_op ev with
     | Some ops, Some o => Some (ops ++ [o])
     | _, _ => txn
     end, logpoint, store)
  else (txn, logpoint, store).

Definition replay (s : option oplist_t * Z * list op) (evs : list event)
    : option oplist_t * Z * list op :=
  foldl replay_step s evs.

(** *** The file position during the scan *)

Lemma fread_spec n f r bs f' :
  fread n f = (r, bs, f') →
  0 ≤ n →
  f_bytes f' = f_bytes f ∧ f_pos f ≤ f_pos f'
  ∧ (r ≠ None → f_pos f' = f_pos f + n
                ∧ f_pos f + n ≤ Z.of_nat (length (f_bytes f)) ∨ n = 0).
Proof.
  unfold fread. intros H Hn.
  destruct (Z.leb_spec n
    (Z.of_nat (length (drop (Z.to_nat (f_pos f)) (f_bytes f))))) as [Hle|Hgt];
    injection H as <- <- <-; simpl.
  - split; [done|]. split; [lia|]. intros _.
    rewrite length_drop in Hle. 
    destruct (decide (n = 0)) as [->|Hn0]; [by right|]. left.
    split; [done|]. lia.
  - split; [done|]. split; [lia|]. done.
Qed.

(** The file a read leaves holds the same bytes, at a position that has
    not moved back. *)
Definition advanced (f f' : FILE) : Prop :=
  f_bytes f' = f_bytes f ∧ f_pos f ≤ f_pos f'.

Lemma advanced_refl f : advanced f f.
Proof. split; [done|lia]. Qed.

Lemma advanced_trans f g h : advanced f g → advanced g h → advanced f h.
Proof. intros [? ?] [? ?]. split; [congruence|lia]. Qed.

Lemma fread_advanced n f r bs f' :
  fread n f = (r, bs, f') → 0 ≤ n → advanced f f'.
Proof. intros H Hn. destruct (fread_spec _ _ _ _ _ H Hn) as (? & ? & _). by split. Qed.

Lemma _read_str_advanced len f r f' :
  _read_str len f = (r, f') → advanced f f'.
Proof.
  unfold _read_str. destruct (Z.ltb_spec len 0); simpl.
  { intros [= <- <-]. apply advanced_refl. }
  destruct (len >? LOG_SIZE).
  { intros [= <- <-]. apply advanced_refl. }
  destruct (fread len f) as [[r0 bs] f0] eqn:Hfr.
  apply fread_advanced in Hfr; [|done].
  destruct r0; intros [= <- <-]; done.
Qed.

Lemma _read_val_advanced len f r f' :
  _read_val len f = (r, f') → advanced f f'.
Proof.
  unfold _read_val. destruct (len =? -1).
  - destruct (fread sizeof_int32_t f) as [[r0 bs] f0] eqn:Hfr.
    apply fread_advanced in Hfr; [|done]. by intros [= <- <-].
  - destruct (_read_str len f) as [str f0] eqn:Hs.
    apply _read_str_advanced in Hs. by intros [= <- <-].
Qed.

(** What [_read_mod] returns: 0 with the oplist as it was, or 1 with
    one more operation at the end of the oplist. *)
Lemma _read_mod_spec list type f ret list' f' :
  _read_mod list type f = (ret, list', f') →
  (type = LOG_ENTRY_ADD ∨ type = LOG_ENTRY_DEL) →
  advanced f f'
  ∧ ((ret = 0 ∧ list' = list)
     ∨ (ret = 1 ∧ ∃ ops o, list = Some ops ∧ list' = Some (ops ++ [o]))).
Proof.
  unfold _read_mod. intros H Htype. destruct list as [ops|].
  2:{ injection H as <- <- <-. split; [apply advanced_refl|by left]. }
  destruct (fread sizeof_mod_header f) as [[r0 bs] f0] eqn:H0.
  apply fread_advanced in H0; [|done].
  destruct (_read_str _ f0) as [key_a f1] eqn:H1.
  apply _read_str_advanced in H1.
  destruct (_read_val _ f1) as [val_a f2] eqn:H2.
  apply _read_val_advanced in H2.
  destruct (_read_str _ f2) as [key_b f3] eqn:H3.
  apply _read_str_advanced in H3.
  destruct (_read_val _ f3) as [val_b f4] eqn:H4.
  apply _read_val_advanced in H4.
  destruct (_read_str _ f4) as [src f5] eqn:H5.
  apply _read_str_advanced in H5.
  assert (Hadv : advanced f f5).
  { repeat (eapply advanced_trans; [eassumption|]). apply advanced_refl. }
  destruct key_a, val_a, key_b, val_b, src;
    try (injection H as <- <- <-; split; [done|by left]).
  destruct Htype as [-> | ->]; simpl in H; injection H as <- <- <-;
    (split; [done|right; split; [done|eauto]]).
Qed.

(** *** One record *)

Lemma redo_switch_spec hdr st o st2 off rd :
  redo_switch hdr st = (o, st2) →
  f_bytes (r_file st2) = f_bytes (r_file st)
  ∧ (lh_type hdr = LOG_ENTRY_WRAP →
       f_pos (r_file st2) = 0 ∧ r_round st2 = to_log_number (r_round st + 1))
  ∧ (lh_type hdr ≠ LOG_ENTRY_WRAP →
       r_round st2 = r_round st ∧ f_pos (r_file st) ≤ f_pos (r_file st2))
  ∧ (known_type (lh_type hdr) = false → r_invalid_entry st2 ≠ 0)
  ∧ (r_oplist st2, r_last_valid_logpoint st2, applied (r_s4 st2))
    = replay_step
        (r_oplist st, r_last_valid_logpoint st, applied (r_s4 st))
        {| ev_logpoint := last_logpoint (log_data (r_s4 st));
           ev_offset := off; ev_round := rd; ev_hdr := hdr; ev_op := o |}.
Proof.
  unfold redo_switch, replay_step, known_type. simpl ev_hdr. simpl ev_op.
  simpl ev_logpoint.
  destruct (Z.eqb_spec (lh_type hdr) LOG_ENTRY_WRAP) as [->|Hwrap].
  { intros [= <- <-]. simpl. repeat split; try done; try lia. }
  assert (Hmod : lh_type hdr = LOG_ENTRY_DEL ∨ lh_type hdr = LOG_ENTRY_ADD →
    (let '(ret, oplist, f) :=
       _read_mod (r_oplist st) (lh_type hdr) (r_file st) in
     (if ret =? 0 then None
      else match oplist with Some ops => last ops | None => None end,
      {| r_s4 := r_s4 st; r_file := f; r_pos := r_pos st;
         r_round := r_round st; r_new_checkpoint := r_new_checkpoint st;
         r_new_synced := r_new_synced st;
         r_last_valid_logpoint := r_last_valid_logpoint st;
         r_oplist := oplist;
         r_invalid_entry := if ret =? 0 then 1 else r_invalid_entry st |}))
    = (o, st2) →
    f_bytes (r_file st2) = f_bytes (r_file st)
    ∧ (r_round st2 = r_round st ∧ f_pos (r_file st) ≤ f_pos (r_file st2))
    ∧ (r_oplist st2, r_last_valid_logpoint st2, applied (r_s4 st2))
      = (match r_oplist st, o with
         | Some ops, Some o => Some (ops ++ [o])
         | _, _ => r_oplist st
         end, r_last_valid_logpoint st, applied (r_s4 st))).
  { intros Htype.
    destruct (_read_mod (r_oplist st) (lh_type hdr) (r_file st))
      as [[ret oplist] f] eqn:Hrm.
    apply _read_mod_spec in Hrm as ([Hb Hp] & Hcases); [|tauto].
    intros [= <- <-]. simpl. split; [done|]. split; [done|].
    destruct Hcases as [[-> ->]|(-> & ops & o' & -> & ->)]; simpl.
    - by destruct (r_oplist st).
    - by rewrite last_snoc. }
  destruct (Z.eqb_spec (lh_type hdr) LOG_ENTRY_DEL) as [Hdel|Hdel].
  { simpl. intros H. apply Hmod in H as (Hb & Hr & Hrep); [|by left].
    rewrite Hdel. simpl. rewrite Hrep. repeat split; try done; apply Hr. }
  destruct (Z.eqb_spec (lh_type hdr) LOG_ENTRY_ADD) as [Hadd|Hadd].
  { simpl. intros H. apply Hmod in H as (Hb & Hr & Hrep); [|by right].
    rewrite Hadd. simpl. rewrite Hrep. repeat split; try done; apply Hr. }
  clear Hmod. simpl.
  destruct (Z.eqb_spec (lh_type hdr) LOG_ENTRY_CHECKPOINT) as [Hc|Hc].
  { destruct (fread sizeof_log_number_t (r_file st)) as [[r bs] f] eqn:Hfr.
    apply fread_advanced in Hfr as [Hb Hp]; [|done].
    intros [= <- <-]. simpl. rewrite Hc. simpl. repeat split; done. }
  destruct (Z.eqb_spec (lh_type hdr) LOG_ENTRY_WRITING) as [Hw|Hw].
  { intros [= <- <-]. simpl. rewrite Hw. simpl. repeat split; try done; try lia. }
  destruct (Z.eqb_spec (lh_type hdr) LOG_ENTRY_BEGIN) as [Hbeg|Hbeg].
  { intros [= <- <-]. simpl. repeat split; try done; try lia. }
  destruct (Z.eqb_spec (lh_type hdr) LOG_ENTRY_END) as [He|He].
  { destruct (r_oplist st) as [ops|] eqn:Hops.
    - intros [= <- <-]. simpl. repeat split; try done; try lia.
      all: destruct (negb _); [done|]; by destruct (negb _).
    - intros [= <- <-]. simpl. rewrite Hops. repeat split; try done; try lia. }
  destruct (Z.eqb_spec (lh_type hdr) LOG_ENTRY_INIT) as [Hi|Hi].
  { intros [= <- <-]. simpl. repeat split; try done; try lia. }
  intros [= <- <-]. simpl. repeat split; try done; try lia.
Qed.

(** The variable [pos] is the file position whenever the condition of
    the loop is evaluated. *)
Definition at_pos (st : redo_t) : Prop := r_pos st = f_pos (r_file st).

Lemma redo_step_spec st ev st1 :
  redo_step st = Some (ev, st1) → at_pos st →
  r_invalid_entry st = 0
  ∧ ev_logpoint ev = next_logpoint (log_data (r_s4 st))
  ∧ ev_offset ev = f_pos (r_file st) ∧ ev_round ev = r_round st
  ∧ (∃ bs f', fread sizeof_log_header (r_file st) = (Some bs, bs, f')
              ∧ ev_hdr ev = decode_log_header bs)
  ∧ lh_num (ev_hdr ev)
    = to_log_number (ev_offset ev + ev_round ev * LOG_SIZE)
  ∧ f_pos (r_file st) + sizeof_log_header
    ≤ Z.of_nat (length (f_bytes (r_file st)))
  ∧ at_pos st1
  ∧ f_bytes (r_file st1) = f_bytes (r_file st)
  ∧ (lh_type (ev_hdr ev) = LOG_ENTRY_WRAP →
       f_pos (r_file st1) = 0
       ∧ r_round st1 = to_log_number (r_round st + 1))
  ∧ (lh_type (ev_hdr ev) ≠ LOG_ENTRY_WRAP →
       r_round st1 = r_round st
       ∧ f_pos (r_file st) + sizeof_log_header ≤ f_pos (r_file st1))
  ∧ (known_type (lh_type (ev_hdr ev)) = false → r_invalid_entry st1 ≠ 0)
  ∧ (r_oplist st1, r_last_valid_logpoint st1, applied (r_s4 st1))
    = replay_step
        (r_oplist st, r_last_valid_logpoint st, applied (r_s4 st)) ev.
Proof.
  unfold redo_step, at_pos. intros H Hpos.
  destruct (Z.eqb_spec (r_invalid_entry st) 0) as [Hinv|]; [|done].
  simpl in H.
  destruct (fread sizeof_log_header (r_file st)) as [[r bs0] f0] eqn:Hfr.
  destruct r as [bs|]; [|done].
  destruct (fread_spec _ _ _ _ _ Hfr ltac:(done)) as (Hb0 & Hp0 & Hfull).
  destruct (Hfull ltac:(done)) as [[Hp0' Hlen]|?]; [|done].
  assert (bs0 = bs) as ->.
  { unfold fread in Hfr. destruct (_ <=? _); by simplify_eq. }
  cbv zeta in H.
  destruct (_ =? _) eqn:Hnum in H; [|done]. apply Z.eqb_eq in Hnum.
  match type of H with
  | (let '(_, _) := redo_switch ?h ?s in _) = _ =>
      destruct (redo_switch h s) as [o st2] eqn:Hsw;
      apply (redo_switch_spec h s o st2 (f_pos (r_file st)) (r_round st))
        in Hsw as (Hb2 & Hwrap & Hnowrap & Hunknown & Hrep)
  end.
  injection H as <- <-. simpl in *.
  split; [done|]. split; [done|]. split; [done|]. split; [done|].
  split; [by exists bs, f0|].
  split; [by rewrite <- Hpos|]. split; [done|]. split; [done|].
  split; [congruence|]. split; [done|].
  split; [intros Hne; destruct (Hnowrap Hne); split; [done|lia]|].
  split; [done|]. exact Hrep.
Qed.

(** *** The records the loop takes *)

(** The header of a record taken is the one the file holds at the
    offset of the record, and its counter is that offset plus the
    rotation times [LOG_SIZE]. *)
Definition taken_from (bytes : list Z) (ev : event) : Prop :=
  ev_hdr ev
  = decode_log_header
      (take (Z.to_nat sizeof_log_header)
         (drop (Z.to_nat (ev_offset ev)) bytes))
  ∧ ev_offset ev + sizeof_log_header ≤ Z.of_nat (length bytes)
  ∧ lh_num (ev_hdr ev)
    = to_log_number (ev_offset ev + ev_round ev * LOG_SIZE).

(** No record follows one of unknown type. *)
Definition unknown_is_last (evs : list event) : Prop :=
  ∀ i ev, evs !! i = Some ev → (S i < length evs)%nat →
    known_type (lh_type (ev_hdr ev)) = true.

Lemma fread_Some_bytes n f bs bs' f' :
  fread n f = (Some bs, bs', f') →
  bs = take (Z.to_nat n) (drop (Z.to_nat (f_pos f)) (f_bytes f)).
Proof. unfold fread. destruct (_ <=? _); by intros [= <- <- <-]. Qed.

Lemma redo_step_invalid st :
  r_invalid_entry st ≠ 0 → redo_step st = None.
Proof.
  intros H. unfold redo_step.
  by destruct (Z.eqb_spec (r_invalid_entry st) 0).
Qed.

Lemma redo_loop_spec : ∀ fuel st evs st',
  redo_loop fuel st = (evs, st') → at_pos st →
  at_pos st'
  ∧ f_bytes (r_file st') = f_bytes (r_file st)
  ∧ Forall (taken_from (f_bytes (r_file st))) evs
  ∧ unknown_is_last evs
  ∧ (r_oplist st', r_last_valid_logpoint st', applied (r_s4 st'))
    = replay (r_oplist st, r_last_valid_logpoint st, applied (r_s4 st)) evs.
Proof.
  induction fuel as [|fuel IH]; intros st evs st' H Hpos; simpl in H.
  { injection H as <- <-. repeat split; try done.
    all: intros i ev Hi; by rewrite lookup_nil in Hi. }
  destruct (redo_step st) as [[ev st1]|] eqn:Hstep.
  2:{ injection H as <- <-. repeat split; try done.
      all: intros i ev Hi; by rewrite lookup_nil in Hi. }
  destruct (redo_loop fuel st1) as [evs1 st2] eqn:Hloop.
  injection H as <- <-.
  destruct (redo_step_spec _ _ _ Hstep Hpos)
    as (_ & _ & Hoff & _ & (bs & f' & Hfr & Hhdr) & Hnum & Hlen & Hpos1 & Hb1
        & _ & _ & Hunknown & Hrep).
  destruct (IH _ _ _ Hloop Hpos1) as (Hpos2 & Hb2 & Htaken & Hlast & Hrep2).
  split; [done|]. split; [congruence|]. split; [|split].
  - constructor; [|by rewrite <- Hb1].
    unfold taken_from. rewrite Hoff.
    split; [|split; [done|by rewrite <- Hoff]].
    by rewrite Hhdr, (fread_Some_bytes _ _ _ _ _ Hfr).
  - intros [|i] ev' Hi Hlt; simpl in *.
    + injection Hi as <-.
      destruct (known_type (lh_type (ev_hdr ev))) eqn:Hk; [done|].
      exfalso. specialize (Hunknown eq_refl).
      destruct fuel; simpl in Hloop.
      * injection Hloop as <- _. simpl in Hlt. lia.
      * rewrite (redo_step_invalid _ Hunknown) in Hloop.
        injection Hloop as <- _. simpl in Hlt. lia.
    + apply (Hlast i); [done|lia].
  - rewrite Hrep2, Hrep. reflexivity.
Qed.

(** *** The loop ends *)







(** *** Recovery *)




(** *** Where the scan ends *)

























(** The bytes an item takes in the file, on a little-endian machine:
    integers least significant byte first, the counter of a header at
    its natural alignment after four bytes of padding. *)
Fixpoint le_encode (n : nat) (z : Z) : list Z :=
  match n with
  | O => []
  | S n' => z mod 256 :: le_encode n' (z / 256)
  end.

Fixpoint string_bytes (s : string) : list Z :=
  match s with
  | EmptyString => []
  | String c s' => Z.of_N (Ascii.N_of_ascii c) :: string_bytes s'
  end.

Definition item_bytes (it : item) : list Z :=
  match it with
  | ILogHeader hdr =>
      le_encode 4 (lh_type hdr) ++ [0; 0; 0; 0] ++ le_encode 8 (lh_num hdr)
  | IModHeader h =>
      le_encode 4 (ka_len h) ++ le_encode 4 (va_len h)
      ++ le_encode 4 (kb_len h) ++ le_encode 4 (vb_len h)
      ++ le_encode 4 (s_len h)
  | IBytes s len => take (Z.to_nat len) (string_bytes s)
  | IInt32 i => le_encode 4 i
  | ILogNumber n => le_encode 8 n
  end.


(** A transaction that was committed, and the log of a process that died
    while it was writing the next one: the BEGIN and the ADD of that one
    are in the file, its END is not. *)
Definition committed_ops : oplist_t :=
  [OpAdd "entry" (S4Str "a") "property" (S4Int 7) "1";
   OpDel "entry" (S4Int 1) "property" (S4Str "xy") "src"].










(** *** Oplists with nothing to write *)

Lemma op_estimate_min o : 16 ≤ op_estimate o.
Proof.
  destruct o as [ka va kb vb s|ka va kb vb s|]; simpl;
    unfold sizeof_log_header, sizeof_mod_header;
    try (pose proof (strlen_nonneg ka); pose proof (strlen_nonneg s);
         destruct va, vb; simpl;
         repeat match goal with
                | |- context [strlen ?x] =>
                    lazymatch goal with
                    | _ : 0 ≤ strlen x |- _ => fail
                    | _ => pose proof (strlen_nonneg x)
                    end
                end); lia.
Qed.

Lemma _estimate_size_loop_min list : ∀ ret largest writing,
  0 ≤ ret → 0 ≤ largest →
  let r := _estimate_size_loop list ret largest writing in
  ret + 16 * Z.of_nat (length list) ≤ r.1.1
  ∧ largest ≤ r.1.2
  ∧ (list ≠ [] → 16 ≤ r.1.2).
Proof.
  induction list as [|o list IH]; intros ret largest writing Hret Hl; simpl.
  - split; [lia|]. split; [lia|done].
  - pose proof (op_estimate_min o) as Ho.
    destruct (IH (ret + op_estimate o) (Z.max (op_estimate o) largest)
                (match o with OpWriting => 1 | _ => writing end))
      as (H1 & H2 & _); [lia..|].
    split; [lia|]. split; [lia|]. intros _. lia.
Qed.

Lemma _estimate_size_min list :
  list ≠ [] → 80 ≤ (_estimate_size list 0).1.
Proof.
  intros Hne. unfold _estimate_size.
  destruct (_estimate_size_loop_min list 0 0 0) as (H1 & _ & H3); [lia..|].
  specialize (H3 Hne).
  destruct (_estimate_size_loop list 0 0 0) as [[ret largest] writing].
  simpl in *.
  assert (1 ≤ Z.of_nat (length list)) by (destruct list; [done|simpl; lia]).
  destruct (Z.eqb_spec ret 0); simpl; unfold sizeof_log_header; lia.
Qed.

(** X13. [_estimate_size] is zero for the empty oplist only, and at least
    80 for any other; [_log_write] returns 1 and leaves the database as
    it is, with nothing handed to the log, when there is nothing to do:
    the oplist is empty, or the database has no log file. *)
Theorem log_write_with_nothing_to_write (list : oplist_t) (s4 : s4_t) :
  ((_estimate_size list 0).1 = 0 ↔ list = [])
  ∧ (list ≠ [] → 80 ≤ (_estimate_size list 0).1)
  ∧ _log_write [] s4 = (1, s4)
  ∧ (logfile (log_data s4) = None → _log_write list s4 = (1, s4)).
Proof.
  pose proof (_estimate_size_min list) as Hmin.
  split; [|split; [done|split]].
  - split.
    + intros Hz. destruct list as [|o list]; [done|].
      specialize (Hmin ltac:(done)). lia.
    + by intros ->.
  - unfold _log_write. simpl. by destruct (logfile (log_data s4)).
  - intros Hf. unfold _log_write. rewrite Hf.
    by destruct (_estimate_size list 0).
Qed.

(** *** Records [_read_mod] turns down *)

(** A length [_read_str] turns down. *)
Definition bad_length (len : Z) : Prop := len < 0 ∨ LOG_SIZE < len.

Lemma _read_str_bad len f :
  bad_length len → _read_str len f = (None, f).
Proof.
  intros Hbad. unfold _read_str.
  destruct (Z.ltb_spec len 0); [done|].
  destruct (Z.gtb_spec len LOG_SIZE); [done|].
  unfold bad_length in Hbad. lia.
Qed.

Lemma _read_val_bad len f :
  len ≠ -1 → bad_length len → (_read_val len f).1 = None.
Proof.
  intros Hne Hbad. unfold _read_val.
  destruct (Z.eqb_spec len (-1)); [done|].
  by rewrite _read_str_bad.
Qed.

(** X14. [_read_mod] takes no operation from a record it cannot read in
    full. It returns 0 and leaves the oplist as it is when no
    transaction is open ([list] is [NULL]), and when one of the five
    lengths of the [mod_header] read from the file is negative (other
    than the -1 that marks an int value) or greater than [LOG_SIZE]; in
    [_log_redo] such a record sets [invalid_entry], which ends the
    scan. *)
Theorem read_mod_turns_down_bad_lengths
    (ops : oplist_t) (type : Z) (f : FILE) :
  let mhdr := decode_mod_header (fread sizeof_mod_header f).1.2 in
  bad_length (ka_len mhdr) ∨ bad_length (kb_len mhdr)
  ∨ bad_length (s_len mhdr)
  ∨ (va_len mhdr ≠ -1 ∧ bad_length (va_len mhdr))
  ∨ (vb_len mhdr ≠ -1 ∧ bad_length (vb_len mhdr)) →
  _read_mod None type f = (0, None, f)
  ∧ (_read_mod (Some ops) type f).1 = (0, Some ops)
  ∧ ∀ hdr st, lh_type hdr = LOG_ENTRY_ADD ∨ lh_type hdr = LOG_ENTRY_DEL →
      r_oplist st = Some ops → r_file st = f →
      r_invalid_entry (redo_switch hdr st).2 = 1
      ∧ r_s4 (redo_switch hdr st).2 = r_s4 st
      ∧ r_oplist (redo_switch hdr st).2 = Some ops.
Proof.
  intros mhdr Hbad. split; [done|].
  assert (Hmod : ∀ t, (_read_mod (Some ops) t f).1 = (0, Some ops)).
  { intros t. unfold _read_mod.
    destruct (fread sizeof_mod_header f) as [[r bs] f1] eqn:Hf1.
    simpl in mhdr. fold mhdr.
    destruct (_read_str (ka_len mhdr) f1) as [key_a f2] eqn:H2.
    destruct (_read_val (va_len mhdr) f2) as [val_a f3] eqn:H3.
    destruct (_read_str (kb_len mhdr) f3) as [key_b f4] eqn:H4.
    destruct (_read_val (vb_len mhdr) f4) as [val_b f5] eqn:H5.
    destruct (_read_str (s_len mhdr) f5) as [src f6] eqn:H6.
    destruct Hbad as [Hb|[Hb|[Hb|[[Hn Hb]|[Hn Hb]]]]].
    - rewrite _read_str_bad in H2 by done. injection H2 as <- <-. done.
    - rewrite _read_str_bad in H4 by done. injection H4 as <- <-.
      by destruct key_a, val_a.
    - rewrite _read_str_bad in H6 by done. injection H6 as <- <-.
      by destruct key_a, val_a, key_b, val_b.
    - pose proof (_read_val_bad _ f2 Hn Hb) as Hv. rewrite H3 in Hv.
      simpl in Hv. subst val_a. by destruct key_a.
    - pose proof (_read_val_bad _ f4 Hn Hb) as Hv. rewrite H5 in Hv.
      simpl in Hv. subst val_b. by destruct key_a, val_a, key_b. }
  split; [apply Hmod|].
  intros hdr st Htype Hops Hfile. unfold redo_switch.
  assert (Hw : (lh_type hdr =? LOG_ENTRY_WRAP) = false).
  { apply Z.eqb_neq. destruct Htype as [-> | ->]; done. }
  assert (Hd : (lh_type hdr =? LOG_ENTRY_DEL) || (lh_type hdr =? LOG_ENTRY_ADD)
               = true).
  { destruct Htype as [-> | ->]; done. }
  rewrite Hw, Hd, Hops, Hfile.
  specialize (Hmod (lh_type hdr)).
  destruct (_read_mod (Some ops) (lh_type hdr) f) as [[ret oplist] f'].
  simpl in Hmod. injection Hmod as -> ->. done.
Qed.

Lemma read_mod_turns_down_bad_lengths_witness :
  (_read_mod (Some [OpWriting]) LOG_ENTRY_ADD
     {| f_bytes := le_encode 4 (-5) ++ repeat 0 16%nat; f_pos := 0;
        f_writes := [] |}).1
  = (0, Some [OpWriting]).
Proof.
  refine (proj1 (proj2 (read_mod_turns_down_bad_lengths [OpWriting]
    LOG_ENTRY_ADD
    {| f_bytes := le_encode 4 (-5) ++ repeat 0 16%nat; f_pos := 0;
       f_writes := [] |} _))).
  left. left. by vm_compute.
Defined.

(** *** The counters move forward *)

Lemma div_mod_LOG_SIZE n :
  n mod LOG_SIZE + n / LOG_SIZE * LOG_SIZE = n.
Proof. pose proof (Z.div_mod n LOG_SIZE ltac:(done)). lia. Qed.

(** A header for a payload that fits in the log moves [last_logpoint]
    to the old [next_logpoint] and [next_logpoint] past the header and
    its payload, and past the rest of the file when the record wraps. *)
Lemma header_advances hdr size s4 :
  on_track 0 s4 → 0 ≤ size ≤ LOG_SIZE - sizeof_log_header * 2 →
  0 ≤ next_logpoint (log_data s4) →
  next_logpoint (log_data s4) + 2 * LOG_SIZE < 2 ^ 64 →
  let s4' := _log_write_header hdr size s4 in
  last_logpoint (log_data s4') = next_logpoint (log_data s4)
  ∧ next_logpoint (log_data s4) + sizeof_log_header + size
    ≤ next_logpoint (log_data s4')
    ≤ next_logpoint (log_data s4) + 2 * LOG_SIZE
  ∧ last_checkpoint (log_data s4') = last_checkpoint (log_data s4)
  ∧ last_synced (log_data s4') = last_synced (log_data s4).
Proof.
  intros (_ & f & Hf & _ & Hlt & Hpos) Hsize Hnn Hbound.
  rewrite Z.add_0_r in Hpos, Hlt.
  pose proof (div_mod_LOG_SIZE (next_logpoint (log_data s4))) as Hdm.
  unfold _log_write_header. rewrite Hf.
  set (pos := next_logpoint (log_data s4) mod LOG_SIZE) in *.
  set (round := next_logpoint (log_data s4) / LOG_SIZE) in *.
  assert (Hrange : 0 ≤ pos < LOG_SIZE) by (apply Z.mod_pos_bound; done).
  assert (Hround : 0 ≤ round) by (apply Z.div_pos; [done|done]).
  assert (Hsmall : to_log_number (pos + size) = pos + size).
  { unfold to_log_number. apply Z.mod_small.
    unfold LOG_SIZE, sizeof_log_header in *. lia. }
  rewrite Hsmall.
  destruct (Z.gtb_spec (pos + size) (LOG_SIZE - sizeof_log_header * 2));
    simpl; unfold ftell; simpl.
  - assert (Hr1 : to_log_number (round + 1) = round + 1).
    { unfold to_log_number. apply Z.mod_small.
      unfold LOG_SIZE in *. nia. }
    rewrite Hr1.
    assert (Hn : to_log_number
                   (0 + sizeof_log_header + (round + 1) * LOG_SIZE + size)
                 = sizeof_log_header + (round + 1) * LOG_SIZE + size).
    { unfold to_log_number. apply Z.mod_small.
      unfold LOG_SIZE, sizeof_log_header in *. nia. }
    rewrite Hn. unfold LOG_SIZE, sizeof_log_header in *. lia.
  - assert (Hn : to_log_number
                   (f_pos f + sizeof_log_header + round * LOG_SIZE + size)
                 = f_pos f + sizeof_log_header + round * LOG_SIZE + size).
    { unfold to_log_number. apply Z.mod_small.
      unfold LOG_SIZE, sizeof_log_header in *. nia. }
    rewrite Hn. unfold LOG_SIZE, sizeof_log_header in *. lia.
Qed.

(** The four counters of the log. *)
Definition counters (s4 : s4_t) : Z * Z * Z * Z :=
  (last_checkpoint (log_data s4), last_synced (log_data s4),
   last_logpoint (log_data s4), next_logpoint (log_data s4)).

Lemma counters_log_fwrite it s4 : counters (log_fwrite it s4) = counters s4.
Proof. done. Qed.

Lemma counters_write_val val len s4 :
  counters (_write_val val len s4) = counters s4.
Proof. unfold _write_val. by destruct (len =? -1), val. Qed.

Lemma counters_log_mod type key_a val_a key_b val_b src s4 :
  counters (_log_mod type key_a val_a key_b val_b src s4)
  = counters
      (_log_write_header {| lh_type := type; lh_num := 0 |}
         (payload_size (OpAdd key_a val_a key_b val_b src)) s4).
Proof.
  unfold _log_mod.
  destruct (logfile (log_data s4)) eqn:Hf.
  - cbv zeta. unfold _write_str.
    by rewrite counters_log_fwrite, counters_write_val, counters_log_fwrite,
      counters_write_val, !counters_log_fwrite.
  - unfold _log_write_header. by rewrite Hf.
Qed.

Lemma payload_size_nonneg o : 0 ≤ payload_size o.
Proof.
  destruct o as [ka va kb vb s|ka va kb vb s|]; simpl; [| |done];
    unfold _get_size; simpl;
    pose proof (strlen_nonneg ka); pose proof (strlen_nonneg kb);
    pose proof (strlen_nonneg s);
    unfold sizeof_mod_header, sizeof_int32_t;
    destruct va as [?|sa], vb as [?|sb]; simpl;
    try pose proof (strlen_nonneg sa); try pose proof (strlen_nonneg sb);
    repeat case_match; lia.
Qed.

(** The payload of every operation of the oplist fits in the log. *)
Definition fits (o : op) : Prop :=
  payload_size o ≤ LOG_SIZE - sizeof_log_header * 2.

Lemma log_op_advances o s4 :
  on_track 0 s4 → fits o →
  0 ≤ next_logpoint (log_data s4) →
  next_logpoint (log_data s4) + 2 * LOG_SIZE < 2 ^ 64 →
  let s4' := log_op o s4 in
  last_logpoint (log_data s4') = next_logpoint (log_data s4)
  ∧ next_logpoint (log_data s4) + sizeof_log_header + payload_size o
    ≤ next_logpoint (log_data s4')
    ≤ next_logpoint (log_data s4) + 2 * LOG_SIZE
  ∧ last_checkpoint (log_data s4') = last_checkpoint (log_data s4)
  ∧ last_synced (log_data s4') = last_synced (log_data s4).
Proof.
  intros Htrack Hfit Hnn Hbound.
  pose proof (payload_size_nonneg o) as Hp.
  destruct o as [ka va kb vb s|ka va kb vb s|]; simpl.
  - pose proof (counters_log_mod LOG_ENTRY_ADD ka va kb vb s s4) as Hc.
    injection Hc as -> -> -> ->.
    by apply header_advances.
  - pose proof (counters_log_mod LOG_ENTRY_DEL ka va kb vb s s4) as Hc.
    injection Hc as -> -> -> ->.
    by apply header_advances.
  - apply header_advances; [done| |done..].
    unfold LOG_SIZE, sizeof_log_header. lia.
Qed.

Lemma log_ops_advance list : ∀ s4,
  on_track 0 s4 → Forall fits list →
  0 ≤ next_logpoint (log_data s4) →
  next_logpoint (log_data s4) + 2 * LOG_SIZE * Z.of_nat (length list)
    < 2 ^ 64 →
  let s4' := foldl (λ s4 o, log_op o s4) s4 list in
  on_track 0 s4'
  ∧ next_logpoint (log_data s4)
      + foldr (λ o n, sizeof_log_header + payload_size o + n) 0 list
    ≤ next_logpoint (log_data s4')
    ≤ next_logpoint (log_data s4) + 2 * LOG_SIZE * Z.of_nat (length list)
  ∧ last_checkpoint (log_data s4') = last_checkpoint (log_data s4)
  ∧ last_synced (log_data s4') = last_synced (log_data s4).
Proof.
  induction list as [|o list IH]; intros s4 Htrack Hfit Hnn Hbound.
  - simpl. split; [done|]. lia.
  - apply Forall_cons in Hfit as [Ho Hfit].
    rewrite length_cons, Nat2Z.inj_succ in Hbound.
    destruct (log_op_advances o s4 Htrack Ho Hnn) as (_ & Hn & Hc & Hs);
      [unfold LOG_SIZE in *; lia|].
    pose proof (payload_size_nonneg o) as Hp.
    destruct (IH (log_op o s4)) as (Ht' & Hn' & Hc' & Hs').
    { by apply on_track_log_op. }
    { done. }
    { unfold sizeof_log_header in *. lia. }
    { unfold LOG_SIZE in *. lia. }
    cbn [foldl foldr length]. rewrite Nat2Z.inj_succ.
    split; [done|]. split; [|split; congruence].
    unfold LOG_SIZE in *. lia.
Qed.

(** The bytes the records of an oplist take in the log, the BEGIN and
    END headers around them included. *)
Definition transaction_size (list : oplist_t) : Z :=
  sizeof_log_header
  + foldr (λ o n, sizeof_log_header + payload_size o + n) 0 list
  + sizeof_log_header.

(** X15. The counters of the log move forward only. From a state whose
    file position is in step with [next_logpoint], for an oplist whose
    payloads fit in the log, and as long as the counter stays below
    [2^64], [_log_write] never moves [next_logpoint] back; when it
    writes the oplist, [next_logpoint] moves on by the size of the
    records written at least, [last_logpoint], which names the END
    record (or the WRAP record before it), lies between the old and the
    new [next_logpoint], the file position is in step again and every
    header is at the offset its counter names. [last_checkpoint] is
    left as it is. *)
Theorem log_write_moves_the_counters_forward (list : oplist_t) (s4 : s4_t) :
  on_track 0 s4 → Forall fits list →
  0 ≤ next_logpoint (log_data s4) →
  next_logpoint (log_data s4)
    + 2 * LOG_SIZE * (Z.of_nat (length list) + 2) < 2 ^ 64 →
  let s4' := (_log_write list s4).2 in
  on_track 0 s4'
  ∧ next_logpoint (log_data s4) ≤ next_logpoint (log_data s4')
  ∧ last_checkpoint (log_data s4') = last_checkpoint (log_data s4)
  ∧ (writes s4' = writes s4
     ∨ (next_logpoint (log_data s4) + transaction_size list
          ≤ next_logpoint (log_data s4')
        ∧ next_logpoint (log_data s4) < last_logpoint (log_data s4')
          < next_logpoint (log_data s4'))).
Proof.
  intros Htrack Hfit Hnn Hbound.
  assert (Hfoldr : 0 ≤ foldr (λ o n, sizeof_log_header + payload_size o + n)
                         0 list).
  { clear. induction list as [|o list IH]; [done|].
    cbn [foldr]. pose proof (payload_size_nonneg o).
    unfold sizeof_log_header in *. lia. }
  pose proof (_log_write_on_track list s4 Htrack Hfit) as Htrack'.
  split; [done|]. clear Htrack'.
  unfold _log_write.
  destruct (_estimate_size list 0) as [size writing].
  destruct (logfile (log_data s4)) eqn:Hf; [|simpl; split; [lia|by auto]].
  destruct (size =? 0); [simpl; split; [lia|by auto]|].
  set (s4a := if writing =? 0 then s4 else _).
  assert (Ha : on_track 0 s4a
               ∧ next_logpoint (log_data s4a) = next_logpoint (log_data s4)
               ∧ last_checkpoint (log_data s4a)
                 = last_checkpoint (log_data s4)
               ∧ writes s4a = writes s4).
  { unfold s4a. destruct (writing =? 0); [done|].
    split; [|done].
    by apply (on_track_last_synced (last_logpoint (log_data s4))). }
  clearbody s4a. destruct Ha as (Ha & Hna & Hca & Hwa).
  destruct (_ >? _); [simpl; split; [lia|by auto]|].
  rewrite <- Hna in *. rewrite <- Hca. clear Hna Hca.
  destruct (header_advances {| lh_type := LOG_ENTRY_BEGIN; lh_num := 0 |}
              0 s4a Ha) as (_ & Hn1 & Hc1 & _);
    [unfold LOG_SIZE, sizeof_log_header; lia|done
    |unfold LOG_SIZE in *; lia|].
  pose proof (on_track_log_simple LOG_ENTRY_BEGIN _ Ha) as Ht1.
  fold (_log_simple LOG_ENTRY_BEGIN s4a) in Hn1, Hc1.
  set (s1 := _log_simple LOG_ENTRY_BEGIN s4a) in *.
  destruct (log_ops_advance list s1 Ht1 Hfit) as (Ht2 & Hn2 & Hc2 & _);
    [unfold sizeof_log_header in *; lia|unfold LOG_SIZE in *; lia|].
  set (s2 := foldl (λ s4 o, log_op o s4) s1 list) in *.
  destruct (header_advances {| lh_type := LOG_ENTRY_END; lh_num := 0 |}
              0 s2 Ht2) as (Hl3 & Hn3 & Hc3 & _);
    [unfold LOG_SIZE, sizeof_log_header; lia
    |unfold sizeof_log_header in *; lia
    |unfold LOG_SIZE in *; lia|].
  fold (_log_simple LOG_ENTRY_END s2) in Hl3, Hn3, Hc3.
  set (s3 := _log_simple LOG_ENTRY_END s2) in *.
  assert (Hres : next_logpoint (log_data s4a) ≤ next_logpoint (log_data s3)
    ∧ last_checkpoint (log_data s3) = last_checkpoint (log_data s4a)
    ∧ next_logpoint (log_data s4a) + transaction_size list
      ≤ next_logpoint (log_data s3)
    ∧ next_logpoint (log_data s4a) < last_logpoint (log_data s3)
      < next_logpoint (log_data s3)).
  { unfold transaction_size, sizeof_log_header in *.
    split; [lia|]. split; [congruence|]. lia. }
  destruct Hres as (H1 & H2 & H3 & H4).
  destruct (_ >? _); simpl; (split; [done|]); (split; [done|]); by right.
Qed.

Lemma log_write_moves_the_counters_forward_witness :
  next_logpoint (log_data created_log)
  ≤ next_logpoint (log_data (_log_write committed_ops created_log).2).
Proof.
  refine (proj1 (proj2 (log_write_moves_the_counters_forward committed_ops
    created_log _ _ _ _))).
  - split; [by repeat constructor|].
    eexists. split; [reflexivity|]. by vm_compute.
  - repeat constructor; by vm_compute.
  - by vm_compute.
  - by vm_compute.
Defined.

(** *** From the writer to the reader *)

(** **** Bytes and values *)

Lemma length_le_encode n : ∀ z, length (le_encode n z) = n.
Proof. induction n as [|n IH]; intros z; simpl; [done|]. by rewrite IH. Qed.

Lemma le_bytes_le_encode n : ∀ z, le_bytes (le_encode n z) = z mod 256 ^ Z.of_nat n.
Proof.
  induction n as [|n IH]; intros z.
  - simpl. by rewrite Z.mod_1_r.
  - cbn [le_encode le_bytes]. rewrite IH, Nat2Z.inj_succ, Z.pow_succ_r by lia.
    rewrite Z.rem_mul_r by lia. lia.
Qed.

Lemma decode_uint_le_encode n z rest :
  0 ≤ z < 256 ^ Z.of_nat n →
  decode_uint n (le_encode n z ++ rest) = z.
Proof.
  intros Hz. unfold decode_uint.
  rewrite take_app_length' by (by rewrite length_le_encode).
  rewrite le_bytes_le_encode. by apply Z.mod_small.
Qed.

Lemma decode_int32_le_encode i rest :
  is_int i → decode_int32 (le_encode 4 i ++ rest) = i.
Proof.
  intros [Hlo Hhi]. unfold INT_MIN, INT_MAX in *. unfold decode_int32, decode_uint.
  rewrite take_app_length' by (by rewrite length_le_encode).
  rewrite le_bytes_le_encode.
  change (256 ^ Z.of_nat 4) with (2 ^ 32).
  destruct (Z_lt_le_dec i 0) as [Hneg|Hpos].
  - replace (i mod 2 ^ 32) with (i + 2 ^ 32).
    + destruct (Z.geb_spec (i + 2 ^ 32) (2 ^ 31)); lia.
    + apply (Z.mod_unique _ _ (-1)); lia.
  - rewrite Z.mod_small by lia.
    destruct (Z.geb_spec i (2 ^ 31)); lia.
Qed.

(** The headers the writer makes: a type among the enumerators, a
    counter below [2^64]. *)
Lemma decode_log_header_bytes type num rest :
  0 ≤ type < 2 ^ 32 → 0 ≤ num < 2 ^ 64 →
  decode_log_header
    (item_bytes (ILogHeader {| lh_type := type; lh_num := num |}) ++ rest)
  = {| lh_type := type; lh_num := num |}.
Proof.
  intros Ht Hn. unfold decode_log_header, item_bytes. simpl lh_type. simpl lh_num.
  rewrite <- !app_assoc. f_equal.
  - apply decode_uint_le_encode. by change (256 ^ Z.of_nat 4) with (2 ^ 32).
  - rewrite drop_app_ge by (rewrite length_le_encode; lia).
    rewrite length_le_encode. cbn [Nat.sub app drop].
    apply decode_uint_le_encode. by change (256 ^ Z.of_nat 8) with (2 ^ 64).
Qed.

Lemma drop_le_encode n k z rest :
  (n ≤ k)%nat → drop k (le_encode n z ++ rest) = drop (k - n) rest.
Proof.
  intros Hk. rewrite drop_app_ge by (rewrite length_le_encode; lia).
  by rewrite length_le_encode.
Qed.

Lemma decode_mod_header_bytes mhdr rest :
  is_int (ka_len mhdr) → is_int (va_len mhdr) → is_int (kb_len mhdr) →
  is_int (vb_len mhdr) → is_int (s_len mhdr) →
  decode_mod_header (item_bytes (IModHeader mhdr) ++ rest) = mhdr.
Proof.
  intros H1 H2 H3 H4 H5. destruct mhdr as [ka va kb vb s].
  cbn [ka_len va_len kb_len vb_len s_len] in *.
  unfold decode_mod_header, item_bytes.
  cbn [ka_len va_len kb_len vb_len s_len].
  rewrite <- !app_assoc.
  repeat (rewrite drop_le_encode by lia; cbn [Nat.sub]; rewrite ?drop_0).
  by rewrite !decode_int32_le_encode by done.
Qed.

(** A C string holds no NUL before its end. *)
Fixpoint nul_free (s : string) : Prop :=
  match s with
  | EmptyString => True
  | String c s' => c ≠ Ascii.zero ∧ nul_free s'
  end.

Lemma length_string_bytes s : Z.of_nat (length (string_bytes s)) = strlen s.
Proof.
  unfold strlen. induction s as [|c s IH]; simpl; [done|]. lia.
Qed.

Lemma cstring_string_bytes s : nul_free s → cstring (string_bytes s) = s.
Proof.
  induction s as [|c s IH]; simpl; [done|]. intros [Hc Hs].
  destruct (Z.eqb_spec (Z.of_N (Ascii.N_of_ascii c)) 0) as [Hz|Hnz].
  - exfalso. apply Hc. apply N_of_ascii_inj. simpl. lia.
  - rewrite N2Z.id, Ascii.ascii_N_embedding, IH by done. done.
Qed.

(** **** Reading back what was written *)

(** What the file holds from the file position on. *)
Definition remaining (f : FILE) : list Z :=
  drop (Z.to_nat (f_pos f)) (f_bytes f).

(** The file [f'] is [f] after [n] more bytes have been read, with [tl]
    still to read. *)
Definition read_on (f f' : FILE) (n : Z) (tl : list Z) : Prop :=
  remaining f' = tl ∧ f_pos f' = f_pos f + n ∧ f_bytes f' = f_bytes f.

Lemma fread_remaining n f bs tl :
  0 ≤ f_pos f → remaining f = bs ++ tl → Z.of_nat (length bs) = n →
  ∃ f', fread n f = (Some bs, bs, f') ∧ read_on f f' n tl.
Proof.
  intros Hpos Hrem Hlen. unfold fread. fold (remaining f). rewrite Hrem.
  rewrite length_app.
  destruct (Z.leb_spec n (Z.of_nat (length bs + length tl))); [|lia].
  rewrite take_app_length' by lia.
  eexists. split; [reflexivity|].
  unfold read_on, remaining in *. simpl. split; [|done].
  rewrite Z2Nat.inj_add by lia. rewrite <- drop_drop, Hrem.
  rewrite drop_app_length' by lia. done.
Qed.

(** The values the log can carry: an int of 32 bits, or a C string. *)
Definition storable_val (val : s4_val_t) : Prop :=
  match val with
  | S4Int i => is_int i
  | S4Str s => nul_free s
  end.

(** The item [_write_val] hands to the file for a value. *)
Definition val_item (val : s4_val_t) : item :=
  match val with
  | S4Int i => IInt32 i
  | S4Str s => IBytes s (strlen s)
  end.

Definition val_size (val : s4_val_t) : Z :=
  if _get_val_len val =? -1 then sizeof_int32_t else _get_val_len val.

Lemma item_bytes_string s : item_bytes (IBytes s (strlen s)) = string_bytes s.
Proof.
  unfold item_bytes. apply take_ge.
  pose proof (length_string_bytes s). lia.
Qed.

Lemma _read_str_bytes s f tl :
  0 ≤ f_pos f → nul_free s → strlen s ≤ LOG_SIZE →
  remaining f = item_bytes (IBytes s (strlen s)) ++ tl →
  ∃ f', _read_str (strlen s) f = (Some s, f') ∧ read_on f f' (strlen s) tl.
Proof.
  intros Hpos Hnul Hlen Hrem. rewrite item_bytes_string in Hrem.
  unfold _read_str. pose proof (strlen_nonneg s).
  destruct (Z.ltb_spec (strlen s) 0); [lia|].
  destruct (Z.gtb_spec (strlen s) LOG_SIZE); [lia|]. simpl.
  destruct (fread_remaining (strlen s) f _ _ Hpos Hrem
              (length_string_bytes s)) as (f' & -> & Hon).
  exists f'. split; [|done]. unfold _string_lookup.
  by rewrite cstring_string_bytes.
Qed.

Lemma _read_val_bytes val f tl :
  0 ≤ f_pos f → storable_val val → val_size val ≤ LOG_SIZE →
  remaining f = item_bytes (val_item val) ++ tl →
  ∃ f', _read_val (_get_val_len val) f = (Some val, f')
        ∧ read_on f f' (val_size val) tl.
Proof.
  intros Hpos Hval Hlen Hrem. unfold _read_val, val_size in *.
  destruct val as [i|s]; cbn [_get_val_len val_item storable_val] in *.
  - change (-1 =? -1) with true. cbv iota. unfold item_bytes in Hrem.
    destruct (fread_remaining sizeof_int32_t f _ _ Hpos Hrem)
      as (f' & -> & Hon); [by rewrite length_le_encode|].
    exists f'. split; [|done]. unfold _int_lookup_val.
    rewrite <- (app_nil_r (le_encode 4 i)).
    by rewrite decode_int32_le_encode.
  - pose proof (strlen_nonneg s).
    destruct (Z.eqb_spec (strlen s) (-1)); [lia|].
    destruct (_read_str_bytes s f tl Hpos Hval Hlen Hrem) as (f' & -> & Hon).
    by exists f'.
Qed.

Lemma read_on_trans f g h n m tl tl' :
  read_on f g n tl → read_on g h m tl' → read_on f h (n + m) tl'.
Proof.
  intros (_ & Hp & Hb) (Hr & Hp' & Hb'). unfold read_on.
  split; [done|]. split; [lia|congruence].
Qed.

(** The operations the log can carry. *)
Definition storable (o : op) : Prop :=
  match o with
  | OpAdd key_a val_a key_b val_b src
  | OpDel key_a val_a key_b val_b src =>
      nul_free key_a ∧ storable_val val_a ∧ nul_free key_b
      ∧ storable_val val_b ∧ nul_free src
  | OpWriting => True
  end.

(** The items [_log_mod] hands to the file after the header of the
    record. *)
Definition mod_items (key_a : string) (val_a : s4_val_t) (key_b : string)
    (val_b : s4_val_t) (src : string) : list item :=
  [IModHeader {| ka_len := strlen key_a; kb_len := strlen key_b;
                 s_len := strlen src; va_len := _get_val_len val_a;
                 vb_len := _get_val_len val_b |};
   IBytes key_a (strlen key_a); val_item val_a;
   IBytes key_b (strlen key_b); val_item val_b;
   IBytes src (strlen src)].

Definition items_bytes (its : list item) : list Z :=
  concat (map item_bytes its).

Lemma payload_size_eq ka va kb vb s :
  payload_size (OpAdd ka va kb vb s)
  = sizeof_mod_header + strlen ka + val_size va + strlen kb + val_size vb
    + strlen s.
Proof.
  unfold payload_size, _get_size, val_size. simpl.
  repeat case_match; lia.
Qed.

Lemma val_size_pos val : 0 ≤ val_size val.
Proof. apply val_size_nonneg. Qed.

Lemma _read_mod_bytes ops type ka va kb vb s f tl :
  0 ≤ f_pos f →
  storable (OpAdd ka va kb vb s) →
  payload_size (OpAdd ka va kb vb s) ≤ LOG_SIZE →
  remaining f = items_bytes (mod_items ka va kb vb s) ++ tl →
  ∃ f', _read_mod (Some ops) type f
        = (1, Some (if type =? LOG_ENTRY_ADD
                    then ops ++ [OpAdd ka va kb vb s]
                    else if type =? LOG_ENTRY_DEL
                         then ops ++ [OpDel ka va kb vb s]
                         else ops), f')
        ∧ read_on f f' (payload_size (OpAdd ka va kb vb s)) tl.
Proof.
  intros Hpos (Hka & Hva & Hkb & Hvb & Hs) Hsize Hrem.
  rewrite payload_size_eq in *.
  pose proof (strlen_nonneg ka). pose proof (strlen_nonneg kb).
  pose proof (strlen_nonneg s).
  pose proof (val_size_pos va). pose proof (val_size_pos vb).
  assert (Hint : ∀ n, 0 ≤ n ≤ LOG_SIZE → is_int n).
  { intros n Hn. unfold is_int, INT_MIN, INT_MAX, LOG_SIZE in *. lia. }
  assert (Hvint : ∀ val, val_size val ≤ LOG_SIZE → is_int (_get_val_len val)).
  { intros [i|str] Hv; simpl.
    - unfold is_int, INT_MIN, INT_MAX. lia.
    - unfold val_size in Hv. simpl in Hv. pose proof (strlen_nonneg str).
      destruct (Z.eqb_spec (strlen str) (-1)); [lia|]. apply Hint. lia. }
  unfold sizeof_mod_header in *.
  unfold items_bytes, mod_items in Hrem. cbn [map concat] in Hrem.
  rewrite app_nil_r, <- !app_assoc in Hrem.
  unfold _read_mod.
  destruct (fread_remaining sizeof_mod_header f _ _ Hpos Hrem)
    as (f1 & -> & Hon1).
  { unfold item_bytes. rewrite !length_app, !length_le_encode. done. }
  rewrite <- (app_nil_r (item_bytes (IModHeader _))).
  rewrite decode_mod_header_bytes; cbn [ka_len va_len kb_len vb_len s_len];
    [|apply Hint; lia|apply Hvint; lia|apply Hint; lia|apply Hvint; lia
     |apply Hint; lia].
  destruct Hon1 as (Hr1 & Hp1 & Hb1). unfold sizeof_mod_header in Hp1.
  destruct (_read_str_bytes ka f1 _ ltac:(lia) Hka ltac:(lia) Hr1)
    as (f2 & -> & Hr2 & Hp2 & Hb2).
  destruct (_read_val_bytes va f2 _ ltac:(lia) Hva ltac:(lia) Hr2)
    as (f3 & -> & Hr3 & Hp3 & Hb3).
  destruct (_read_str_bytes kb f3 _ ltac:(lia) Hkb ltac:(lia) Hr3)
    as (f4 & -> & Hr4 & Hp4 & Hb4).
  destruct (_read_val_bytes vb f4 _ ltac:(lia) Hvb ltac:(lia) Hr4)
    as (f5 & -> & Hr5 & Hp5 & Hb5).
  destruct (_read_str_bytes s f5 _ ltac:(lia) Hs ltac:(lia) Hr5)
    as (f6 & -> & Hr6 & Hp6 & Hb6).
  exists f6. split.
  - by destruct (type =? LOG_ENTRY_ADD), (type =? LOG_ENTRY_DEL).
  - unfold read_on. split; [done|]. split; [lia|congruence].
Qed.

(** **** The scan over records written one after the other *)

(** The scan of [_log_redo] is at the offset [p] of the first rotation,
    with [txn] for the oplist of the open transaction, and has [tl]
    still to read. *)
Definition scanning (st : redo_t) (p : Z) (txn : option oplist_t)
    (tl : list Z) : Prop :=
  r_pos st = p ∧ f_pos (r_file st) = p ∧ r_round st = 0
  ∧ r_invalid_entry st = 0
  ∧ next_logpoint (log_data (r_s4 st)) = p
  ∧ r_oplist st = txn
  ∧ remaining (r_file st) = tl
  ∧ 0 ≤ p ∧ p + sizeof_log_header < 2 ^ 64.

(** The record the scan takes at [p]. *)
Definition taken (p : Z) (type : Z) (o : option op) : event :=
  {| ev_logpoint := p; ev_offset := p; ev_round := 0;
     ev_hdr := {| lh_type := type; lh_num := p |}; ev_op := o |}.

Definition header_bytes (type p : Z) : list Z :=
  item_bytes (ILogHeader {| lh_type := type; lh_num := p |}).

Lemma length_header_bytes type p :
  Z.of_nat (length (header_bytes type p)) = sizeof_log_header.
Proof.
  unfold header_bytes, item_bytes.
  by rewrite !length_app, !length_le_encode.
Qed.

(** Reading the header of a record at [p]. *)
Lemma read_header st p txn type tl :
  scanning st p txn (header_bytes type p ++ tl) →
  0 ≤ type < 2 ^ 32 →
  ∃ f', fread sizeof_log_header (r_file st)
        = (Some (header_bytes type p), header_bytes type p, f')
    ∧ read_on (r_file st) f' sizeof_log_header tl
    ∧ decode_log_header (header_bytes type p)
      = {| lh_type := type; lh_num := p |}
    ∧ to_log_number (r_pos st + r_round st * LOG_SIZE) = p.
Proof.
  intros (Hp & Hfp & Hr & Hv & Hn & Ht & Hrem & Hp0 & Hp64) Htype.
  destruct (fread_remaining sizeof_log_header (r_file st) _ _
              ltac:(lia) Hrem (length_header_bytes type p)) as (f' & Hf & Hon).
  exists f'. split; [done|]. split; [done|]. split.
  - rewrite <- (app_nil_r (header_bytes type p)).
    apply decode_log_header_bytes; [done|]. unfold sizeof_log_header in *. lia.
  - rewrite Hp, Hr. unfold to_log_number. rewrite Z.mod_small; [lia|].
    unfold sizeof_log_header in *. lia.
Qed.

Lemma to_log_number_small p :
  0 ≤ p < 2 ^ 64 → to_log_number p = p.
Proof. intros Hp. unfold to_log_number. by apply Z.mod_small. Qed.

(** A BEGIN, WRITING or INIT record. *)
Lemma redo_step_simple st p txn type tl :
  scanning st p txn (header_bytes type p ++ tl) →
  type = LOG_ENTRY_BEGIN ∨ type = LOG_ENTRY_WRITING ∨ type = LOG_ENTRY_INIT →
  p + 2 * sizeof_log_header < 2 ^ 64 →
  ∃ st', redo_step st = Some (taken p type None, st')
    ∧ scanning st' (p + sizeof_log_header)
        (if type =? LOG_ENTRY_BEGIN then Some [] else txn) tl
    ∧ f_bytes (r_file st') = f_bytes (r_file st).
Proof.
  intros Hsc Htype Hroom.
  destruct (read_header st p txn type tl Hsc) as (f' & Hf & Hon & Hdec & Hexp).
  { destruct Htype as [->|[->| ->]]; done. }
  destruct Hsc as (Hp & Hfp & Hr & Hv & Hn & Ht & Hrem & Hp0 & Hp64).
  destruct Hon as (Hr' & Hp' & Hb').
  unfold redo_step. rewrite Hv. cbn [Z.eqb negb]. rewrite Hf, Hdec, Hexp.
  cbn [lh_num lh_type]. rewrite Z.eqb_refl.
  unfold redo_switch. cbn [lh_type].
  rewrite Hn, Hfp, Hr.
  destruct Htype as [->|[->| ->]]; cbn -[to_log_number];
    unfold ftell; rewrite Hp', Hfp, Z.mul_0_l, Z.add_0_r;
    rewrite to_log_number_small by (unfold sizeof_log_header in *; lia);
    (eexists; split; [reflexivity|]);
    unfold scanning; cbn -[to_log_number];
    rewrite ?Hp', ?Hfp; repeat split; try done;
    unfold sizeof_log_header in *; lia.
Qed.

(** An END record. *)
Lemma redo_step_end st p txn tl :
  scanning st p txn (header_bytes LOG_ENTRY_END p ++ tl) →
  p + 2 * sizeof_log_header < 2 ^ 64 →
  ∃ st', redo_step st = Some (taken p LOG_ENTRY_END None, st')
    ∧ scanning st' (p + sizeof_log_header) None tl
    ∧ f_bytes (r_file st') = f_bytes (r_file st).
Proof.
  intros Hsc Hroom.
  destruct (read_header st p txn LOG_ENTRY_END tl Hsc)
    as (f' & Hf & Hon & Hdec & Hexp); [done|].
  destruct Hsc as (Hp & Hfp & Hr & Hv & Hn & Ht & Hrem & Hp0 & Hp64).
  destruct Hon as (Hr' & Hp' & Hb').
  unfold redo_step. rewrite Hv. cbn [Z.eqb negb]. rewrite Hf, Hdec, Hexp.
  cbn [lh_num lh_type]. rewrite Z.eqb_refl.
  unfold redo_switch. cbn [lh_type].
  rewrite Hn, Hfp, Hr.
  change (LOG_ENTRY_END =? LOG_ENTRY_WRAP) with false.
  change ((LOG_ENTRY_END =? LOG_ENTRY_DEL) || (LOG_ENTRY_END =? LOG_ENTRY_ADD))
    with false.
  change (LOG_ENTRY_END =? LOG_ENTRY_CHECKPOINT) with false.
  change (LOG_ENTRY_END =? LOG_ENTRY_WRITING) with false.
  change (LOG_ENTRY_END =? LOG_ENTRY_BEGIN) with false.
  change (LOG_ENTRY_END =? LOG_ENTRY_END) with true.
  cbv iota. cbn [r_oplist]. rewrite Ht.
  destruct txn as [ops|]; cbn -[to_log_number];
    unfold ftell; rewrite Hp', Hfp, Z.mul_0_l, Z.add_0_r;
    rewrite (to_log_number_small (p + sizeof_log_header))
      by (unfold sizeof_log_header in *; lia);
    (eexists; split; [reflexivity|]);
    unfold scanning; cbn -[to_log_number];
    rewrite ?Hp', ?Hfp; repeat split; try done;
    unfold sizeof_log_header in *; lia.
Qed.

(** An ADD or DEL record inside a transaction. *)
Lemma redo_step_mod st p ops type ka va kb vb s tl :
  scanning st p (Some ops)
    (header_bytes type p ++ items_bytes (mod_items ka va kb vb s) ++ tl) →
  type = LOG_ENTRY_ADD ∨ type = LOG_ENTRY_DEL →
  storable (OpAdd ka va kb vb s) →
  payload_size (OpAdd ka va kb vb s) ≤ LOG_SIZE →
  p + 2 * LOG_SIZE < 2 ^ 64 →
  let o := if type =? LOG_ENTRY_ADD then OpAdd ka va kb vb s
           else OpDel ka va kb vb s in
  ∃ st', redo_step st = Some (taken p type (Some o), st')
    ∧ scanning st'
        (p + sizeof_log_header + payload_size (OpAdd ka va kb vb s))
        (Some (ops ++ [o])) tl
    ∧ f_bytes (r_file st') = f_bytes (r_file st).
Proof.
  intros Hsc Htype Hst Hsize Hroom o.
  destruct (read_header st p (Some ops) type _ Hsc)
    as (f' & Hf & Hon & Hdec & Hexp).
  { destruct Htype as [-> | ->]; done. }
  destruct Hsc as (Hp & Hfp & Hr & Hv & Hn & Ht & Hrem & Hp0 & Hp64).
  destruct Hon as (Hr' & Hp' & Hb').
  destruct (_read_mod_bytes ops type ka va kb vb s f' tl)
    as (f'' & Hmod & Hr'' & Hp'' & Hb''); [unfold sizeof_log_header in *; lia|done..|].
  pose proof (payload_size_nonneg (OpAdd ka va kb vb s)) as Hnn.
  unfold redo_step. rewrite Hv. cbn [Z.eqb negb]. rewrite Hf, Hdec, Hexp.
  cbn [lh_num lh_type]. rewrite Z.eqb_refl.
  unfold redo_switch. cbn [lh_type r_oplist r_file].
  rewrite Hn, Hfp, Hr, Ht, Hmod.
  assert (Hw : (type =? LOG_ENTRY_WRAP) = false)
    by (destruct Htype as [-> | ->]; done).
  assert (Hd : (type =? LOG_ENTRY_DEL) || (type =? LOG_ENTRY_ADD) = true)
    by (destruct Htype as [-> | ->]; done).
  rewrite Hw, Hd. cbn -[to_log_number].
  unfold ftell. rewrite Hp'', Hp', Hfp, Z.mul_0_l, Z.add_0_r.
  rewrite (to_log_number_small (p + sizeof_log_header + _))
    by (unfold sizeof_log_header, LOG_SIZE in *; lia).
  assert (Hlast : last (if type =? LOG_ENTRY_ADD
                        then ops ++ [OpAdd ka va kb vb s]
                        else if type =? LOG_ENTRY_DEL
                             then ops ++ [OpDel ka va kb vb s] else ops)
                  = Some o
                  ∧ (if type =? LOG_ENTRY_ADD
                     then ops ++ [OpAdd ka va kb vb s]
                     else if type =? LOG_ENTRY_DEL
                          then ops ++ [OpDel ka va kb vb s] else ops)
                    = ops ++ [o]).
  { unfold o. destruct Htype as [-> | ->]; cbn; by rewrite last_snoc. }
  destruct Hlast as [Hlast Hops]. rewrite Hlast, Hops.
  eexists. split; [reflexivity|].
  unfold scanning; cbn -[to_log_number payload_size].
  rewrite ?Hp'', ?Hp', ?Hfp. repeat split; try done; try congruence;
    unfold payload_size, sizeof_log_header, LOG_SIZE in *; lia.
Qed.

(** Turns of the loop of [_log_redo], one after the other. *)
Inductive redo_steps : redo_t → list event → redo_t → Prop :=
| redo_steps_nil st : redo_steps st [] st
| redo_steps_cons st ev st1 evs st2 :
    redo_step st = Some (ev, st1) → redo_steps st1 evs st2 →
    redo_steps st (ev :: evs) st2.

Lemma redo_steps_app st evs st1 evs' st2 :
  redo_steps st evs st1 → redo_steps st1 evs' st2 →
  redo_steps st (evs ++ evs') st2.
Proof.
  induction 1 as [|st ev sta evs stb Hstep _ IH]; intros H2; [done|].
  simpl. econstructor; [done|]. by apply IH.
Qed.

Lemma redo_loop_steps st evs st' :
  redo_steps st evs st' → redo_step st' = None →
  ∀ fuel, (length evs ≤ fuel)%nat → redo_loop fuel st = (evs, st').
Proof.
  induction 1 as [st|st ev sta evs stb Hstep _ IH]; intros Hend fuel Hfuel.
  - destruct fuel; simpl; [done|]. by rewrite Hend.
  - destruct fuel as [|fuel]; simpl in *; [lia|].
    rewrite Hstep, (IH Hend fuel) by lia. done.
Qed.

(** The scan goes from [p] to [p'] over the events [evs]. *)
Definition scans (st : redo_t) (p : Z) (evs : list event)
    (p' : Z) (txn' : option oplist_t) (tl' : list Z) : Prop :=
  ∃ st', redo_steps st evs st' ∧ scanning st' p' txn' tl'
         ∧ f_bytes (r_file st') = f_bytes (r_file st)
         ∧ sizeof_log_header * Z.of_nat (length evs) ≤ p' - p.

Lemma scans_step st p ev st1 p1 evs p' txn' tl' :
  redo_step st = Some (ev, st1) →
  f_bytes (r_file st1) = f_bytes (r_file st) →
  p + sizeof_log_header ≤ p1 →
  scans st1 p1 evs p' txn' tl' →
  scans st p (ev :: evs) p' txn' tl'.
Proof.
  intros Hstep Hb Hp (st' & Hsteps & Hsc & Hb' & Hlen).
  exists st'. split; [by econstructor|]. split; [done|].
  split; [congruence|]. rewrite length_cons, Nat2Z.inj_succ.
  unfold sizeof_log_header in *. lia.
Qed.

(** The records of the operations of an oplist. *)
Definition op_type (o : op) : Z :=
  match o with
  | OpAdd _ _ _ _ _ => LOG_ENTRY_ADD
  | OpDel _ _ _ _ _ => LOG_ENTRY_DEL
  | OpWriting => LOG_ENTRY_WRITING
  end.

Definition op_items (o : op) : list item :=
  match o with
  | OpAdd key_a val_a key_b val_b src
  | OpDel key_a val_a key_b val_b src =>
      mod_items key_a val_a key_b val_b src
  | OpWriting => []
  end.

(** The operation the reader takes from the record of an operation. *)
Definition op_read (o : op) : option op :=
  match o with
  | OpWriting => None
  | _ => Some o
  end.

Definition op_size (o : op) : Z := sizeof_log_header + payload_size o.

(** The bytes of the record of [o] written at the counter [p], and of
    the records of the operations of an oplist written from [p] on. *)
Definition op_bytes (p : Z) (o : op) : list Z :=
  header_bytes (op_type o) p ++ items_bytes (op_items o).

Fixpoint ops_bytes (p : Z) (ops : list op) : list Z :=
  match ops with
  | [] => []
  | o :: ops' => op_bytes p o ++ ops_bytes (p + op_size o) ops'
  end.

Fixpoint ops_events (p : Z) (ops : list op) : list event :=
  match ops with
  | [] => []
  | o :: ops' =>
      taken p (op_type o) (op_read o) :: ops_events (p + op_size o) ops'
  end.

Definition ops_size (ops : list op) : Z :=
  foldr (λ o n, op_size o + n) 0 ops.

(** The operations of an oplist that change the store. *)
Definition mods (ops : list op) : list op := omap op_read ops.

Lemma op_size_bounds o : sizeof_log_header ≤ op_size o.
Proof. unfold op_size. pose proof (payload_size_nonneg o). lia. Qed.

Lemma ops_size_nonneg ops : 0 ≤ ops_size ops.
Proof.
  induction ops as [|o ops IH]; simpl; [done|].
  pose proof (op_size_bounds o). unfold sizeof_log_header in *.
  unfold ops_size in *. simpl. lia.
Qed.

Lemma scans_ops ops : ∀ st p pre tl,
  scanning st p (Some pre) (ops_bytes p ops ++ tl) →
  Forall storable ops →
  p + ops_size ops + 2 * LOG_SIZE < 2 ^ 64 →
  ops_size ops ≤ LOG_SIZE →
  scans st p (ops_events p ops) (p + ops_size ops)
    (Some (pre ++ mods ops)) tl.
Proof.
  induction ops as [|o ops IH]; intros st p pre tl Hsc Hst Hroom Hsize.
  - simpl in *. exists st. unfold ops_size, mods. simpl.
    rewrite Z.add_0_r, app_nil_r.
    split; [constructor|]. split; [done|]. split; [done|]. simpl. lia.
  - apply Forall_cons in Hst as [Ho Hst].
    pose proof (ops_size_nonneg ops) as Hnn.
    pose proof (op_size_bounds o) as Hob.
    assert (Hsz : ops_size (o :: ops) = op_size o + ops_size ops) by done.
    rewrite Hsz in *.
    cbn [ops_bytes ops_events] in *. unfold op_bytes in Hsc.
    rewrite <- !app_assoc in Hsc.
    assert (Hnext : ∃ st1, redo_step st
                      = Some (taken p (op_type o) (op_read o), st1)
              ∧ scanning st1 (p + op_size o)
                  (Some (pre ++ mods [o])) (ops_bytes (p + op_size o) ops ++ tl)
              ∧ f_bytes (r_file st1) = f_bytes (r_file st)).
    { destruct o as [ka va kb vb s|ka va kb vb s|]; cbn [op_type op_items] in *.
      - destruct (redo_step_mod st p pre LOG_ENTRY_ADD ka va kb vb s _ Hsc)
          as (st1 & Hstep & Hsc1 & Hb1); [by left|done| | |].
        + unfold op_size, payload_size, sizeof_log_header in *. simpl in *. lia.
        + unfold LOG_SIZE, sizeof_log_header in *. lia.
        + exists st1. split; [exact Hstep|]. split; [|exact Hb1].
          replace (p + sizeof_log_header + payload_size (OpAdd ka va kb vb s))
            with (p + op_size (OpAdd ka va kb vb s)) in Hsc1
            by (unfold op_size; lia).
          exact Hsc1.
      - destruct (redo_step_mod st p pre LOG_ENTRY_DEL ka va kb vb s _ Hsc)
          as (st1 & Hstep & Hsc1 & Hb1); [by right|done| | |].
        + unfold op_size, payload_size, sizeof_log_header in *. simpl in *. lia.
        + unfold LOG_SIZE, sizeof_log_header in *. lia.
        + exists st1. split; [exact Hstep|]. split; [|exact Hb1].
          replace (p + sizeof_log_header + payload_size (OpAdd ka va kb vb s))
            with (p + op_size (OpAdd ka va kb vb s)) in Hsc1
            by (unfold op_size; lia).
          exact Hsc1.
      - unfold items_bytes in Hsc. simpl in Hsc.
        destruct (redo_step_simple st p (Some pre) LOG_ENTRY_WRITING _ Hsc)
          as (st1 & Hstep & Hsc1 & Hb1); [by right; left| |].
        + unfold LOG_SIZE, sizeof_log_header in *. lia.
        + exists st1. split; [done|]. split; [|done].
          unfold op_size, mods. simpl. rewrite Z.add_0_r, app_nil_r.
          exact Hsc1. }
    destruct Hnext as (st1 & Hstep & Hsc1 & Hb1).
    apply (scans_step st p _ st1 (p + op_size o)); [exact Hstep|exact Hb1|lia|].
    assert (Hmods : pre ++ mods (o :: ops) = (pre ++ mods [o]) ++ mods ops).
    { unfold mods. simpl. destruct (op_read o); simpl;
        by rewrite <- ?app_assoc, ?app_nil_r. }
    rewrite Hmods, Z.add_assoc.
    apply IH; [exact Hsc1|exact Hst|lia|unfold sizeof_log_header in *; lia].
Qed.

(** The records of a transaction written from the counter [p] on: a
    BEGIN record, the records of the operations, an END record. *)
Definition transaction_bytes (p : Z) (ops : list op) : list Z :=
  header_bytes LOG_ENTRY_BEGIN p
  ++ ops_bytes (p + sizeof_log_header) ops
  ++ header_bytes LOG_ENTRY_END (p + sizeof_log_header + ops_size ops).

Definition transaction_events (p : Z) (ops : list op) : list event :=
  taken p LOG_ENTRY_BEGIN None
  :: ops_events (p + sizeof_log_header) ops
  ++ [taken (p + sizeof_log_header + ops_size ops) LOG_ENTRY_END None].

Lemma transaction_size_eq ops :
  transaction_size ops = sizeof_log_header + ops_size ops + sizeof_log_header.
Proof. reflexivity. Qed.

Lemma scans_app st p evs p1 txn1 tl1 evs' p' txn' tl' :
  scans st p evs p1 txn1 tl1 →
  (∀ st1, scanning st1 p1 txn1 tl1 → scans st1 p1 evs' p' txn' tl') →
  scans st p (evs ++ evs') p' txn' tl'.
Proof.
  intros (st1 & Hsteps & Hsc & Hb & Hlen) Hnext.
  destruct (Hnext st1 Hsc) as (st2 & Hsteps' & Hsc' & Hb' & Hlen').
  exists st2. split; [by eapply redo_steps_app|]. split; [done|].
  split; [congruence|]. rewrite length_app, Nat2Z.inj_add.
  unfold sizeof_log_header in *. lia.
Qed.

Lemma scans_transaction st p txn ops tl :
  scanning st p txn (transaction_bytes p ops ++ tl) →
  Forall storable ops →
  p + transaction_size ops + 2 * LOG_SIZE < 2 ^ 64 →
  transaction_size ops ≤ LOG_SIZE →
  scans st p (transaction_events p ops) (p + transaction_size ops) None tl.
Proof.
  intros Hsc Hst Hroom Hsize. rewrite transaction_size_eq in *.
  pose proof (ops_size_nonneg ops) as Hnn.
  unfold transaction_bytes in Hsc. rewrite <- !app_assoc in Hsc.
  destruct (redo_step_simple st p txn LOG_ENTRY_BEGIN _ Hsc)
    as (st1 & Hstep & Hsc1 & Hb1); [by left| |].
  { unfold LOG_SIZE, sizeof_log_header in *. lia. }
  change (LOG_ENTRY_BEGIN =? LOG_ENTRY_BEGIN) with true in Hsc1. cbv iota in Hsc1.
  unfold transaction_events. rewrite !Z.add_assoc.
  apply (scans_step st p _ st1 (p + sizeof_log_header));
    [exact Hstep|exact Hb1|lia|].
  apply (scans_app st1 _ _ (p + sizeof_log_header + ops_size ops)
           (Some ([] ++ mods ops))
           (header_bytes LOG_ENTRY_END (p + sizeof_log_header + ops_size ops)
            ++ tl)).
  - apply scans_ops; [exact Hsc1|exact Hst|..];
      unfold LOG_SIZE, sizeof_log_header in *; lia.
  - intros st2 Hsc2.
    destruct (redo_step_end st2 _ _ _ Hsc2) as (st3 & Hstep3 & Hsc3 & Hb3).
    { unfold LOG_SIZE, sizeof_log_header in *. lia. }
    apply (scans_step st2 _ _ st3
             (p + sizeof_log_header + ops_size ops + sizeof_log_header));
      [exact Hstep3|exact Hb3|lia|].
    exists st3. split; [constructor|]. split; [exact Hsc3|].
    split; [done|]. simpl. lia.
Qed.

(** The records of a sequence of transactions, none of them empty,
    written from the counter [p] on. *)
Fixpoint log_bytes (p : Z) (lists : list oplist_t) : list Z :=
  match lists with
  | [] => []
  | ops :: lists' =>
      transaction_bytes p ops ++ log_bytes (p + transaction_size ops) lists'
  end.

Fixpoint log_events (p : Z) (lists : list oplist_t) : list event :=
  match lists with
  | [] => []
  | ops :: lists' =>
      transaction_events p ops
      ++ log_events (p + transaction_size ops) lists'
  end.

Definition log_size (lists : list oplist_t) : Z :=
  foldr (λ ops n, transaction_size ops + n) 0 lists.

Lemma transaction_size_bounds ops :
  2 * sizeof_log_header ≤ transaction_size ops.
Proof.
  rewrite transaction_size_eq. pose proof (ops_size_nonneg ops). lia.
Qed.

Lemma log_size_nonneg lists : 0 ≤ log_size lists.
Proof.
  induction lists as [|ops lists IH]; [done|].
  pose proof (transaction_size_bounds ops).
  unfold log_size in *. cbn [foldr]. unfold sizeof_log_header in *. lia.
Qed.

Lemma scans_log lists : ∀ st p txn tl,
  scanning st p txn (log_bytes p lists ++ tl) →
  Forall (Forall storable) lists →
  p + log_size lists + 2 * LOG_SIZE < 2 ^ 64 →
  log_size lists ≤ LOG_SIZE →
  scans st p (log_events p lists) (p + log_size lists)
    (if lists is [] then txn else None) tl.
Proof.
  induction lists as [|ops lists IH]; intros st p txn tl Hsc Hst Hroom Hsize.
  - simpl in *. exists st. unfold log_size. simpl. rewrite Z.add_0_r.
    split; [constructor|]. split; [done|]. split; [done|]. simpl. lia.
  - apply Forall_cons in Hst as [Hops Hst].
    pose proof (log_size_nonneg lists) as Hnn.
    pose proof (transaction_size_bounds ops) as Htb.
    assert (Hsz : log_size (ops :: lists)
                  = transaction_size ops + log_size lists) by done.
    rewrite Hsz in *. cbn [log_bytes log_events] in *.
    rewrite <- app_assoc in Hsc.
    apply (scans_app st _ _ (p + transaction_size ops) None
             (log_bytes (p + transaction_size ops) lists ++ tl)).
    + apply (scans_transaction st p txn ops _ Hsc Hops);
        unfold LOG_SIZE, sizeof_log_header in *; lia.
    + intros st1 Hsc1. rewrite Z.add_assoc.
      assert ((if lists is [] then None else None) = @None oplist_t) as Hn
        by (by destruct lists).
      rewrite <- Hn.
      apply (IH st1 _ None _ Hsc1 Hst);
        unfold LOG_SIZE, sizeof_log_header in *; lia.
Qed.

(** **** The replay of the events of a log *)

Lemma replay_ops_events ops : ∀ p pre lp store,
  replay (Some pre, lp, store) (ops_events p ops)
  = (Some (pre ++ mods ops), lp, store).
Proof.
  induction ops as [|o ops IH]; intros p pre lp store.
  - unfold mods. simpl. by rewrite app_nil_r.
  - unfold replay in *. cbn [ops_events foldl].
    assert (Hstep : replay_step (Some pre, lp, store)
                      (taken p (op_type o) (op_read o))
                    = (Some (pre ++ mods [o]), lp, store)).
    { destruct o; unfold mods; simpl; by rewrite ?app_nil_r. }
    rewrite Hstep, IH. unfold mods. simpl.
    destruct (op_read o); simpl; by rewrite <- ?app_assoc, ?app_nil_r.
Qed.

Lemma replay_app s evs evs' : replay s (evs ++ evs') = replay (replay s evs) evs'.
Proof. unfold replay. by rewrite foldl_app. Qed.

Lemma replay_transaction_events p ops txn lp store :
  replay (txn, lp, store) (transaction_events p ops)
  = (None, p + sizeof_log_header + ops_size ops, store ++ mods ops).
Proof.
  unfold transaction_events.
  change (taken p LOG_ENTRY_BEGIN None :: ?l)
    with ([taken p LOG_ENTRY_BEGIN None] ++ l).
  rewrite !replay_app.
  assert (Hb : replay (txn, lp, store) [taken p LOG_ENTRY_BEGIN None]
               = (Some [], lp, store)) by done.
  rewrite Hb, replay_ops_events. done.
Qed.

Lemma replay_log_events lists : ∀ p txn lp store,
  lp + sizeof_log_header = p →
  let r := replay (txn, lp, store) (log_events p lists) in
  r.1.1 = (if lists is [] then txn else None)
  ∧ r.1.2 + sizeof_log_header = p + log_size lists
  ∧ r.2 = store ++ concat (map mods lists).
Proof.
  induction lists as [|ops lists IH]; intros p txn lp store Hlp.
  - unfold replay, log_size. simpl. rewrite app_nil_r. split; [done|].
    split; [lia|done].
  - cbn [log_events]. rewrite replay_app, replay_transaction_events.
    destruct (IH (p + transaction_size ops) None
                (p + sizeof_log_header + ops_size ops) (store ++ mods ops))
      as (H1 & H2 & H3).
    { rewrite transaction_size_eq. lia. }
    cbv zeta. split; [|split].
    + rewrite H1. by destruct lists.
    + rewrite H2. unfold log_size. cbn [foldr]. lia.
    + rewrite H3. cbn [map concat]. by rewrite app_assoc.
Qed.

(** **** What the writer leaves in the file *)

(** The bytes [bs] written at the offset [off] of a file that holds
    [old]; a write past the end of the file leaves zeroes in
    between. *)
Definition write_at (old : list Z) (off : Z) (bs : list Z) : list Z :=
  take (Z.to_nat off) (old ++ replicate (Z.to_nat off - length old) 0)
  ++ bs ++ drop (Z.to_nat off + length bs) old.

Lemma write_at_app bs tl it :
  write_at (bs ++ tl) (Z.of_nat (length bs)) it
  = bs ++ it ++ drop (length it) tl.
Proof.
  unfold write_at. rewrite Nat2Z.id, <- app_assoc, take_app_length.
  do 2 f_equal. by rewrite drop_app_add'.
Qed.

(** The content of the file once the writes made since the call began
    have reached it. *)
Definition file_content (f : FILE) : list Z :=
  foldl (λ old w, write_at old w.1 (item_bytes w.2)) (f_bytes f) (f_writes f).

(** The writer has written [bs] from the start of a file that held
    [old], without wrapping, and has announced [ahead] more bytes for
    the record at hand. *)
Definition streamed (old : list Z) (ahead : Z) (s4 : s4_t) (bs : list Z)
    : Prop :=
  ∃ f, logfile (log_data s4) = Some f
    ∧ f_bytes f = old
    ∧ file_content f = bs ++ drop (length bs) old
    ∧ f_pos f = Z.of_nat (length bs)
    ∧ next_logpoint (log_data s4) = Z.of_nat (length bs) + ahead
    ∧ last_checkpoint (log_data s4) = 0.

Lemma streamed_fwrite old ahead s4 bs it :
  streamed old ahead s4 bs →
  Z.of_nat (length (item_bytes it)) = item_size it →
  streamed old (ahead - item_size it) (log_fwrite it s4) (bs ++ item_bytes it).
Proof.
  intros (f & Hf & Hold & Hcontent & Hpos & Hnext & Hcp) Hsize.
  unfold streamed, log_fwrite. cbn [log_data with_log_data logfile set_logfile
    next_logpoint last_checkpoint]. rewrite Hf. cbn [fmap option_fmap option_map].
  eexists. split; [reflexivity|].
  unfold fwrite. cbn [f_bytes f_pos f_writes].
  split; [done|]. split; [|split; [|split; [|done]]].
  - unfold file_content in *. cbn [f_bytes f_writes]. rewrite foldl_app.
    cbn [foldl fst snd]. rewrite Hcontent, Hpos, write_at_app, drop_drop.
    by rewrite <- app_assoc, length_app.
  - rewrite length_app. lia.
  - rewrite length_app. lia.
Qed.

Lemma streamed_header old s4 bs hdr size :
  streamed old 0 s4 bs →
  0 ≤ size → Z.of_nat (length bs) + size ≤ LOG_SIZE - sizeof_log_header * 2 →
  0 ≤ lh_type hdr < 2 ^ 32 →
  let s4' := _log_write_header hdr size s4 in
  streamed old size s4' (bs ++ header_bytes (lh_type hdr) (Z.of_nat (length bs)))
  ∧ last_logpoint (log_data s4') = Z.of_nat (length bs).
Proof.
  intros (f & Hf & Hold & Hcontent & Hpos & Hnext & Hcp) Hsize Hroom Htype.
  rewrite Z.add_0_r in Hnext.
  unfold _log_write_header. rewrite Hf, Hnext.
  assert (Hlen : 0 ≤ Z.of_nat (length bs)) by lia.
  assert (Hmod : Z.of_nat (length bs) mod LOG_SIZE = Z.of_nat (length bs)).
  { apply Z.mod_small. unfold LOG_SIZE, sizeof_log_header in *. lia. }
  assert (Hdiv : Z.of_nat (length bs) / LOG_SIZE = 0).
  { apply Z.div_small. unfold LOG_SIZE, sizeof_log_header in *. lia. }
  rewrite Hmod, Hdiv.
  rewrite (to_log_number_small (Z.of_nat (length bs) + size))
    by (unfold LOG_SIZE, sizeof_log_header in *; lia).
  destruct (Z.gtb_spec (Z.of_nat (length bs) + size)
              (LOG_SIZE - sizeof_log_header * 2)); [lia|].
  cbv beta iota zeta. rewrite Z.mul_0_l, !Z.add_0_r.
  rewrite (to_log_number_small (Z.of_nat (length bs)))
    by (unfold LOG_SIZE, sizeof_log_header in *; lia).
  unfold ftell, fwrite. cbn [f_pos item_size lh_type].
  rewrite Hpos.
  rewrite to_log_number_small
    by (unfold LOG_SIZE, sizeof_log_header in *; lia).
  split; [|done].
  pose proof (length_header_bytes (lh_type hdr) (Z.of_nat (length bs))) as Hhb.
  unfold streamed. cbn [log_data with_log_data logfile set_logfile
    set_last_logpoint set_next_logpoint next_logpoint last_checkpoint].
  eexists. split; [reflexivity|]. cbn [f_bytes f_pos f_writes].
  split; [done|]. split; [|split; [|split; [|done]]].
  - unfold file_content in *. cbn [f_bytes f_writes]. rewrite foldl_app.
    cbn [foldl fst snd]. rewrite Hcontent, write_at_app, drop_drop.
    by rewrite <- app_assoc, length_app.
  - rewrite length_app. lia.
  - rewrite length_app. lia.
Qed.

Lemma _write_val_item val s4 :
  _write_val val (_get_val_len val) s4 = log_fwrite (val_item val) s4.
Proof.
  unfold _write_val. destruct val as [i|s]; simpl; [done|].
  pose proof (strlen_nonneg s).
  destruct (Z.eqb_spec (strlen s) (-1)); [lia|done].
Qed.

Lemma length_val_item val :
  Z.of_nat (length (item_bytes (val_item val))) = item_size (val_item val)
  ∧ item_size (val_item val) = val_size val.
Proof.
  destruct val as [i|s]; unfold val_size; cbn [val_item _get_val_len item_size].
  - split; [|done]. unfold item_bytes. by rewrite length_le_encode.
  - rewrite item_bytes_string, length_string_bytes. split; [done|].
    pose proof (strlen_nonneg s).
    destruct (Z.eqb_spec (strlen s) (-1)); [lia|done].
Qed.

Lemma length_item_string s :
  Z.of_nat (length (item_bytes (IBytes s (strlen s))))
  = item_size (IBytes s (strlen s)).
Proof. by rewrite item_bytes_string, length_string_bytes. Qed.

Lemma last_logpoint_log_fwrite it s4 :
  last_logpoint (log_data (log_fwrite it s4)) = last_logpoint (log_data s4).
Proof. done. Qed.

Lemma streamed_mod old s4 bs type ka va kb vb s :
  streamed old 0 s4 bs →
  Z.of_nat (length bs) + payload_size (OpAdd ka va kb vb s)
    ≤ LOG_SIZE - sizeof_log_header * 2 →
  0 ≤ type < 2 ^ 32 →
  let s4' := _log_mod type ka va kb vb s s4 in
  streamed old 0 s4'
    (bs ++ header_bytes type (Z.of_nat (length bs))
        ++ items_bytes (mod_items ka va kb vb s))
  ∧ last_logpoint (log_data s4') = Z.of_nat (length bs).
Proof.
  intros Hst Hroom Htype.
  pose proof (payload_size_nonneg (OpAdd ka va kb vb s)) as Hnn.
  destruct (streamed_header old s4 bs {| lh_type := type; lh_num := 0 |}
              (payload_size (OpAdd ka va kb vb s)) Hst Hnn Hroom Htype)
    as [H0 Hlast].
  cbn [lh_type] in H0.
  destruct Hst as (f & Hf & _).
  unfold _log_mod. rewrite Hf. cbv zeta.
  cbn [ka_len va_len kb_len vb_len s_len].
  change (_get_size _) with (payload_size (OpAdd ka va kb vb s)).
  set (s0 := _log_write_header _ _ s4) in *.
  unfold _write_str. rewrite !_write_val_item.
  split; [|by rewrite !last_logpoint_log_fwrite].
  destruct (length_val_item va) as [Hva Hva'].
  destruct (length_val_item vb) as [Hvb Hvb'].
  pose proof (streamed_fwrite _ _ _ _
    (IModHeader {| ka_len := strlen ka; va_len := _get_val_len va;
                   kb_len := strlen kb; vb_len := _get_val_len vb;
                   s_len := strlen s |}) H0) as H1.
  specialize (H1 ltac:(unfold item_bytes; cbn [ka_len va_len kb_len vb_len s_len];
                       by rewrite !length_app, !length_le_encode)).
  pose proof (streamed_fwrite _ _ _ _ (IBytes ka (strlen ka)) H1
                (length_item_string ka)) as H2.
  pose proof (streamed_fwrite _ _ _ _ (val_item va) H2 Hva) as H3.
  pose proof (streamed_fwrite _ _ _ _ (IBytes kb (strlen kb)) H3
                (length_item_string kb)) as H4.
  pose proof (streamed_fwrite _ _ _ _ (val_item vb) H4 Hvb) as H5.
  pose proof (streamed_fwrite _ _ _ _ (IBytes s (strlen s)) H5
                (length_item_string s)) as H6.
  rewrite payload_size_eq, Hva', Hvb' in H6. cbn [item_size] in H6.
  unfold sizeof_mod_header in H6.
  replace (20 + strlen ka + val_size va + strlen kb + val_size vb + strlen s
           - 20 - strlen ka - val_size va - strlen kb - val_size vb - strlen s)
    with 0 in H6 by lia.
  unfold items_bytes, mod_items. cbn [map concat].
  rewrite app_nil_r. rewrite <- !app_assoc in H6. rewrite <- ?app_assoc.
  exact H6.
Qed.

Lemma streamed_simple old s4 bs type :
  streamed old 0 s4 bs →
  Z.of_nat (length bs) ≤ LOG_SIZE - sizeof_log_header * 2 →
  0 ≤ type < 2 ^ 32 →
  let s4' := _log_simple type s4 in
  streamed old 0 s4' (bs ++ header_bytes type (Z.of_nat (length bs)))
  ∧ last_logpoint (log_data s4') = Z.of_nat (length bs).
Proof.
  intros Hst Hroom Htype.
  apply (streamed_header old s4 bs {| lh_type := type; lh_num := 0 |} 0 Hst);
    [done|lia|done].
Qed.

Lemma length_op_bytes p o : Z.of_nat (length (op_bytes p o)) = op_size o.
Proof.
  unfold op_bytes, op_size. rewrite length_app, Nat2Z.inj_add,
    length_header_bytes. f_equal.
  destruct o as [ka va kb vb s|ka va kb vb s|]; cbn [op_items]; [| |done];
    change (payload_size (OpDel ka va kb vb s))
      with (payload_size (OpAdd ka va kb vb s));
    rewrite payload_size_eq; unfold items_bytes, mod_items;
    cbn [map concat]; rewrite app_nil_r, !length_app, !Nat2Z.inj_add;
    rewrite !length_item_string;
    destruct (length_val_item va) as [-> ->];
    destruct (length_val_item vb) as [-> ->];
    cbn [item_size]; unfold item_bytes;
    cbn [ka_len va_len kb_len vb_len s_len];
    rewrite !length_app, !length_le_encode; unfold sizeof_mod_header; lia.
Qed.

Lemma streamed_op old s4 bs o :
  streamed old 0 s4 bs →
  Z.of_nat (length bs) + payload_size o ≤ LOG_SIZE - sizeof_log_header * 2 →
  let s4' := log_op o s4 in
  streamed old 0 s4' (bs ++ op_bytes (Z.of_nat (length bs)) o)
  ∧ last_logpoint (log_data s4') = Z.of_nat (length bs).
Proof.
  intros Hst Hroom.
  destruct o as [ka va kb vb s|ka va kb vb s|]; cbn [log_op];
    unfold op_bytes; cbn [op_type op_items].
  - by apply streamed_mod.
  - by apply streamed_mod.
  - unfold items_bytes. cbn [map concat]. rewrite app_nil_r.
    apply streamed_simple; [done| |done]. simpl in Hroom. lia.
Qed.

Lemma streamed_ops ops : ∀ old s4 bs,
  streamed old 0 s4 bs →
  Z.of_nat (length bs) + ops_size ops ≤ LOG_SIZE - sizeof_log_header * 2 →
  streamed old 0 (foldl (λ s4 o, log_op o s4) s4 ops)
    (bs ++ ops_bytes (Z.of_nat (length bs)) ops).
Proof.
  induction ops as [|o ops IH]; intros old s4 bs Hst Hroom.
  - simpl. by rewrite app_nil_r.
  - pose proof (ops_size_nonneg ops) as Hnn.
    pose proof (payload_size_nonneg o) as Hp.
    assert (Hsz : ops_size (o :: ops) = op_size o + ops_size ops) by done.
    rewrite Hsz in Hroom. unfold op_size in Hroom.
    destruct (streamed_op old s4 bs o Hst) as [H1 _].
    { unfold sizeof_log_header in *. lia. }
    cbn [foldl ops_bytes].
    specialize (IH old (log_op o s4) _ H1).
    rewrite length_app, Nat2Z.inj_add, length_op_bytes in IH.
    rewrite app_assoc. apply IH. unfold op_size. lia.
Qed.

Lemma length_ops_bytes ops : ∀ p,
  Z.of_nat (length (ops_bytes p ops)) = ops_size ops.
Proof.
  induction ops as [|o ops IH]; intros p; [done|].
  cbn [ops_bytes]. rewrite length_app, Nat2Z.inj_add, length_op_bytes, IH.
  done.
Qed.

Lemma length_transaction_bytes p ops :
  Z.of_nat (length (transaction_bytes p ops)) = transaction_size ops.
Proof.
  unfold transaction_bytes.
  rewrite !length_app, !Nat2Z.inj_add, !length_header_bytes, length_ops_bytes.
  rewrite transaction_size_eq. lia.
Qed.

Lemma applied_log_write_header hdr size s4 :
  applied (_log_write_header hdr size s4) = applied s4.
Proof. unfold _log_write_header. by destruct (logfile (log_data s4)). Qed.

Lemma applied_write_val val len s4 :
  applied (_write_val val len s4) = applied s4.
Proof. unfold _write_val. by destruct (len =? -1), val. Qed.

Lemma applied_log_op o s4 : applied (log_op o s4) = applied s4.
Proof.
  assert (Hmod : ∀ type ka va kb vb s,
    applied (_log_mod type ka va kb vb s s4) = applied s4).
  { intros. unfold _log_mod. destruct (logfile (log_data s4)); [|done].
    cbv zeta. unfold _write_str, log_fwrite. cbn [applied with_log_data].
    rewrite applied_write_val. cbn [applied with_log_data].
    rewrite applied_write_val. cbn [applied with_log_data].
    apply applied_log_write_header. }
  destruct o; cbn [log_op]; [apply Hmod..|].
  apply applied_log_write_header.
Qed.

Lemma applied_log_ops ops : ∀ s4,
  applied (foldl (λ s4 o, log_op o s4) s4 ops) = applied s4.
Proof.
  induction ops as [|o ops IH]; intros s4; [done|].
  cbn [foldl]. by rewrite IH, applied_log_op.
Qed.

Lemma streamed_log_write old s4 bs ops :
  streamed old 0 s4 bs →
  ops ≠ [] →
  Z.of_nat (length bs) + (_estimate_size ops 0).1 ≤ LOG_SIZE →
  Z.of_nat (length bs) + transaction_size ops
    ≤ LOG_SIZE - sizeof_log_header * 2 →
  let s4' := (_log_write ops s4).2 in
  streamed old 0 s4' (bs ++ transaction_bytes (Z.of_nat (length bs)) ops)
  ∧ last_logpoint (log_data s4') + sizeof_log_header
    = Z.of_nat (length bs) + transaction_size ops
  ∧ applied s4' = applied s4.
Proof.
  intros Hst Hne Hest Hroom.
  pose proof (_estimate_size_min ops Hne) as Hmin.
  pose proof (ops_size_nonneg ops) as Hnn.
  rewrite transaction_size_eq in *.
  unfold _log_write.
  destruct (_estimate_size ops 0) as [size writing]. cbn [fst] in *.
  pose proof Hst as (f & Hf & _ & _ & _ & Hnext & Hcp).
  rewrite Hf. destruct (Z.eqb_spec size 0); [lia|].
  set (s4a := if writing =? 0 then s4 else _).
  assert (Ha : streamed old 0 s4a bs ∧ applied s4a = applied s4).
  { unfold s4a. by destruct (writing =? 0). }
  clearbody s4a. destruct Ha as [Ha Happ].
  pose proof Ha as (fa & _ & _ & _ & _ & Hnexta & Hcpa).
  rewrite Hnexta, Hcpa, Z.add_0_r, Z.add_0_l.
  rewrite !to_log_number_small by (unfold LOG_SIZE in *; lia).
  destruct (Z.gtb_spec (Z.of_nat (length bs) + size) LOG_SIZE); [lia|].
  destruct (streamed_simple old s4a bs LOG_ENTRY_BEGIN Ha) as [H1 _];
    [unfold sizeof_log_header in *; lia|done|].
  pose proof (streamed_ops ops old _ _ H1) as H2.
  rewrite length_app, Nat2Z.inj_add, length_header_bytes in H2.
  specialize (H2 ltac:(unfold sizeof_log_header in *; lia)).
  destruct (streamed_simple old _ _ LOG_ENTRY_END H2) as [H3 Hlast];
    [|done|].
  { rewrite !length_app, !Nat2Z.inj_add, length_header_bytes,
      length_ops_bytes. unfold sizeof_log_header in *. lia. }
  rewrite !length_app, !Nat2Z.inj_add, length_header_bytes,
    length_ops_bytes in H3, Hlast.
  cbv zeta in H3, Hlast.
  assert (Hres : ∀ s, s = _log_simple LOG_ENTRY_END
                      (foldl (λ s4 o, log_op o s4)
                         (_log_simple LOG_ENTRY_BEGIN s4a) ops) →
    streamed old 0 s (bs ++ transaction_bytes (Z.of_nat (length bs)) ops)
    ∧ last_logpoint (log_data s) + sizeof_log_header
      = Z.of_nat (length bs) + (sizeof_log_header + ops_size ops
                                + sizeof_log_header)
    ∧ applied s = applied s4).
  { intros s ->. split; [|split].
    - unfold transaction_bytes. rewrite <- !app_assoc in H3.
      rewrite <- ?app_assoc. exact H3.
    - rewrite Hlast. lia.
    - unfold _log_simple.
      by rewrite applied_log_write_header, applied_log_ops,
        applied_log_write_header. }
  cbv zeta. destruct (_ >? _); cbn [snd].
  - destruct (Hres _ eq_refl) as (R1 & R2 & R3).
    split; [|split; [exact R2|exact R3]].
    destruct R1 as (f3 & ? & ? & ? & ? & ? & ?). by exists f3.
  - by apply Hres.
Qed.

(** Every transaction of the sequence is accepted by [_log_write] with
    the log at the counter [p], and none of its records wraps: the
    oplist is not empty, its estimate does not take [next_logpoint]
    past [last_checkpoint + LOG_SIZE], with [last_checkpoint] at 0, and
    its records end before the last two headers of the file. *)
Fixpoint room (p : Z) (lists : list oplist_t) : Prop :=
  match lists with
  | [] => True
  | ops :: lists' =>
      ops ≠ []
      ∧ p + (_estimate_size ops 0).1 ≤ LOG_SIZE
      ∧ p + transaction_size ops ≤ LOG_SIZE - sizeof_log_header * 2
      ∧ room (p + transaction_size ops) lists'
  end.

Lemma room_log_size lists : ∀ p,
  0 ≤ p → room p lists → p + log_size lists ≤ Z.max p (LOG_SIZE - sizeof_log_header * 2).
Proof.
  induction lists as [|ops lists IH]; intros p Hp Hroom.
  - unfold log_size. simpl. lia.
  - destruct Hroom as (_ & _ & Hr & Hroom).
    pose proof (transaction_size_bounds ops) as Hb.
    assert (Hp' : 0 ≤ p + transaction_size ops)
      by (unfold sizeof_log_header in *; lia).
    specialize (IH _ Hp' Hroom).
    unfold log_size in *. cbn [foldr]. lia.
Qed.

Lemma streamed_lists lists : ∀ old s4 bs,
  streamed old 0 s4 bs →
  room (Z.of_nat (length bs)) lists →
  last_logpoint (log_data s4) + sizeof_log_header = Z.of_nat (length bs) →
  let s4' := foldl (λ s4 ops, (_log_write ops s4).2) s4 lists in
  streamed old 0 s4' (bs ++ log_bytes (Z.of_nat (length bs)) lists)
  ∧ last_logpoint (log_data s4') + sizeof_log_header
    = Z.of_nat (length bs) + log_size lists
  ∧ applied s4' = applied s4.
Proof.
  induction lists as [|ops lists IH]; intros old s4 bs Hst Hroom Hlast.
  - simpl. rewrite app_nil_r. unfold log_size. simpl.
    split; [done|]. split; [lia|done].
  - destruct Hroom as (Hne & Hest & Hr & Hroom).
    destruct (streamed_log_write old s4 bs ops Hst Hne Hest Hr)
      as (H1 & Hl1 & Ha1).
    cbn [foldl log_bytes].
    specialize (IH old _ _ H1).
    rewrite length_app, Nat2Z.inj_add, length_transaction_bytes in IH.
    destruct (IH Hroom Hl1) as (H2 & Hl2 & Ha2).
    cbv zeta. rewrite app_assoc. split; [exact H2|].
    split; [|congruence].
    rewrite Hl2. unfold log_size. cbn [foldr]. lia.
Qed.

(** **** Opening the log *)

(** [_log_create_data]: the block [calloc] returns holds zeroes. *)
Definition _log_create_data : s4_log_data_t :=
  {| logfile := None; log_users := 0; last_checkpoint := 0;
     last_synced := 0; last_logpoint := 0; next_logpoint := 0 |}.

(** [_log_init] *)
Definition _log_init (last_checkpoint : Z) (s4 : s4_t) : s4_t :=
  with_log_data
    (λ d, set_last_checkpoint last_checkpoint
            (set_last_logpoint last_checkpoint
               (set_last_synced last_checkpoint d))) s4.

(** [_log_last_synced] *)
Definition _log_last_synced (s4 : s4_t) : Z := last_synced (log_data s4).

(** The [FILE] that [fopen] returns for a file that holds [bytes]. *)
Definition opened (bytes : list Z) : FILE :=
  {| f_bytes := bytes; f_pos := 0; f_writes := [] |}.

(** [_log_truncate], called on a file nothing has been written to yet:
    [ftruncate] cuts the file at [LOG_SIZE] bytes, or extends it to
    that length with zero bytes. *)
Definition _log_truncate (f : FILE) : FILE :=
  {| f_bytes := resize (Z.to_nat LOG_SIZE) 0 (f_bytes f);
     f_pos := f_pos f; f_writes := f_writes f |}.

(** [_log_open]: the value returned and the database after the call.
    The file system is given by what the two [fopen] calls find:
    [existing] is the content of the log file when
    [fopen (log_name, "r+")] opens it, and [creatable] tells whether
    [fopen (log_name, "w+")], which is tried otherwise, succeeds. *)
Definition _log_open (existing : option (list Z)) (creatable : bool)
    (s4 : s4_t) : Z * s4_t :=
  match existing with
  | Some bytes =>
      (1, with_log_data (set_logfile (Some (opened bytes))) s4)
  | None =>
      if creatable then
        let s4 := with_log_data (set_logfile (Some (opened []))) s4 in
        let s4 := with_log_data
                    (λ d, set_logfile (_log_truncate <$> logfile d) d) s4 in
        (1, _log_simple LOG_ENTRY_INIT s4)
      else (0, with_log_data (set_logfile None) s4)
  end.

(** A database handle just allocated: its log data as
    [_log_create_data] leaves it, and nothing applied to the store. *)
Definition new_db : s4_t :=
  {| log_data := _log_create_data; applied := []; sync_wakeups := 0 |}.

Lemma streamed_created :
  let s4 := (_log_open None true new_db).2 in
  streamed (replicate (Z.to_nat LOG_SIZE) 0) 0 s4
    (header_bytes LOG_ENTRY_INIT 0)
  ∧ last_logpoint (log_data s4) = 0
  ∧ applied s4 = [].
Proof.
  cbv zeta. unfold _log_open. cbn [snd].
  set (s0 := with_log_data _ (with_log_data _ new_db)).
  assert (H0 : streamed (replicate (Z.to_nat LOG_SIZE) 0) 0 s0 []).
  { unfold s0, streamed. cbn [log_data with_log_data logfile set_logfile
      new_db _log_create_data fmap option_fmap option_map
      next_logpoint last_checkpoint].
    eexists. split; [reflexivity|].
    unfold _log_truncate, opened, file_content.
    cbn [f_bytes f_pos f_writes foldl length app].
    rewrite resize_nil, drop_0. done. }
  destruct (streamed_simple _ s0 [] LOG_ENTRY_INIT H0) as [H1 Hl];
    [cbn [length]; unfold LOG_SIZE, sizeof_log_header; lia|done|].
  cbn [app length] in H1, Hl. split; [exact H1|]. split; [exact Hl|].
  unfold _log_simple. by rewrite applied_log_write_header.
Qed.

(** **** The end of the scan *)

Lemma le_bytes_zeros n : le_bytes (replicate n 0) = 0.
Proof. induction n as [|n IH]; simpl; [done|]. rewrite IH. done. Qed.

Lemma redo_step_zeros st p txn k :
  scanning st p txn (replicate k 0) → 0 < p → redo_step st = None.
Proof.
  intros (Hp & Hfp & Hr & Hv & Hn & Ht & Hrem & Hp0 & Hp64) Hpos.
  unfold redo_step. cbv zeta. rewrite Hv. cbn [Z.eqb negb].
  unfold fread. fold (remaining (r_file st)). rewrite Hrem.
  destruct (sizeof_log_header <=? _); [|done].
  unfold decode_log_header, decode_uint. cbn [lh_num].
  rewrite take_replicate, drop_replicate, take_replicate, le_bytes_zeros.
  rewrite Hp, Hr, Z.mul_0_l, Z.add_0_r, to_log_number_small
    by (unfold sizeof_log_header in *; lia).
  destruct (Z.eqb_spec 0 p); [lia|done].
Qed.

(** X16. What one handle commits, another recovers. On a database whose
    log file has just been created by [_log_open], let the oplists
    [lists] be written one after the other by [_log_write], their
    operations being such as the log can carry (keys and sources that
    are C strings, values that are C strings or ints of 32 bits), and
    each oplist having room in the file: it is not empty, its estimate
    does not pass the end of the file, and its records end before the
    last two headers of the file. The store of the writer is untouched.
    When the file so written is opened by [_log_open] for another
    handle, which [_log_init] sets to the checkpoint 0, [_log_redo]
    returns 1 and has applied to the store exactly the ADD and DEL
    operations of the oplists, in the order in which they were written;
    it leaves [last_logpoint] and [next_logpoint] where the writer has
    them. *)
Theorem log_redo_recovers_what_log_write_wrote
    (_reread_file : reread_t) (lists : list oplist_t) :
  Forall (Forall storable) lists →
  room sizeof_log_header lists →
  let writer := foldl (λ s4 ops, (_log_write ops s4).2)
                  (_log_open None true new_db).2 lists in
  ∃ f, logfile (log_data writer) = Some f
    ∧ applied writer = []
    ∧ let reader := _log_init 0
                      (_log_open (Some (file_content f)) false new_db).2 in
      ∃ s4' evs,
        _log_redo _reread_file reader = (1, s4', evs)
        ∧ applied s4' = concat (map mods lists)
        ∧ last_logpoint (log_data s4') = last_logpoint (log_data writer)
        ∧ next_logpoint (log_data s4') = next_logpoint (log_data writer).
Proof.
  intros Hst Hroom writer.
  destruct streamed_created as (Hc & Hcl & Hca).
  pose proof (length_header_bytes LOG_ENTRY_INIT 0) as Hhb.
  destruct (streamed_lists lists _ _ _ Hc) as (Hw & Hwl & Hwa).
  { by rewrite Hhb. }
  { rewrite Hcl, Hhb. lia. }
  fold writer in Hw, Hwl, Hwa. rewrite Hhb in Hw, Hwl.
  pose proof (log_size_nonneg lists) as Hnn.
  pose proof (room_log_size lists sizeof_log_header ltac:(done) Hroom) as Hmax.
  assert (Hfit : sizeof_log_header + log_size lists
                 ≤ LOG_SIZE - sizeof_log_header * 2).
  { unfold LOG_SIZE, sizeof_log_header in *. lia. }
  clear Hmax.
  destruct Hw as (f & Hf & Hold & Hcontent & Hpos & Hnext & Hcp).
  exists f. split; [exact Hf|]. split; [congruence|].
  set (bs := header_bytes LOG_ENTRY_INIT 0
             ++ log_bytes sizeof_log_header lists) in *.
  assert (Hlen : Z.of_nat (length bs) = sizeof_log_header + log_size lists).
  { unfold bs. rewrite length_app, Nat2Z.inj_add, Hhb. f_equal.
    clear. generalize sizeof_log_header.
    induction lists as [|ops lists IH]; intros p; [done|].
    cbn [log_bytes]. rewrite length_app, Nat2Z.inj_add,
      length_transaction_bytes, IH. done. }
  set (B := file_content f) in *.
  assert (HB : ∃ k, B = header_bytes LOG_ENTRY_INIT 0
                        ++ log_bytes sizeof_log_header lists
                        ++ replicate k 0).
  { eexists. rewrite Hcontent. unfold bs. rewrite <- app_assoc.
    rewrite drop_replicate. reflexivity. }
  destruct HB as (k & HB).
  assert (HBlen : sizeof_log_header + log_size lists ≤ Z.of_nat (length B)).
  { rewrite Hcontent, length_app. lia. }
  clearbody B. clear Hcontent.
  cbv zeta.
  (* the header at [last_logpoint] *)
  set (f1 := {| f_bytes := B; f_pos := sizeof_log_header; f_writes := [] |}).
  set (reader := _log_init 0 _).
  set (s0 := with_log_data (set_logfile (Some f1)) reader).
  assert (Hstart : redo_start _reread_file reader = Some s0).
  { unfold redo_start, reader, _log_init, _log_open.
    cbn [snd log_data with_log_data logfile set_logfile set_last_checkpoint
      set_last_logpoint set_last_synced last_logpoint new_db
      _log_create_data].
    rewrite Z.mod_0_l by done.
    destruct (fread_remaining sizeof_log_header (fseek 0 (opened B))
                (header_bytes LOG_ENTRY_INIT 0)
                (log_bytes sizeof_log_header lists ++ replicate k 0))
      as (f' & Hfr & Hr' & Hp' & Hb'); [done|exact HB|exact Hhb|].
    rewrite Hfr. cbv iota beta.
    assert (decode_log_header (header_bytes LOG_ENTRY_INIT 0)
            = {| lh_type := LOG_ENTRY_INIT; lh_num := 0 |}) as ->.
    { rewrite <- (app_nil_r (header_bytes LOG_ENTRY_INIT 0)).
      by apply decode_log_header_bytes. }
    cbn [lh_num Z.eqb negb].
    assert (f' = f1) as ->; [|done].
    unfold fread in Hfr. cbn [fseek opened f_bytes f_pos f_writes] in Hfr.
    destruct (sizeof_log_header <=? _); [|done].
    injection Hfr as _ _ <-. done. }
  assert (Hsc0 : scanning (redo_init s0 f1) sizeof_log_header None
                   (log_bytes sizeof_log_header lists ++ replicate k 0)).
  { unfold redo_init, scanning, s0, reader, _log_init, _log_open.
    cbn [snd log_data with_log_data logfile set_logfile set_last_checkpoint
      set_last_logpoint set_last_synced set_next_logpoint last_logpoint
      next_logpoint new_db _log_create_data r_pos r_file r_round
      r_invalid_entry r_s4 r_oplist fseek f_pos f_bytes].
    rewrite Z.add_0_l, to_log_number_small by done.
    rewrite Z.mod_small, Z.div_small by done.
    unfold remaining.
    do 6 (split; [done|]). split; [|done].
    change (drop (Z.to_nat sizeof_log_header) B = log_bytes sizeof_log_header lists ++ replicate k 0).
    rewrite HB. rewrite drop_app_length'; [done|].
    apply Nat2Z.inj. by rewrite Hhb. }
  destruct (scans_log lists _ _ None _ Hsc0 Hst)
    as (st' & Hsteps & Hsc' & Hb' & Hcount).
  { unfold LOG_SIZE, sizeof_log_header in *. lia. }
  { unfold LOG_SIZE, sizeof_log_header in *. lia. }
  assert (Hend : redo_step st' = None).
  { apply (redo_step_zeros st' _ _ k Hsc'). unfold sizeof_log_header. lia. }
  assert (Hloop : redo_loop (redo_fuel f1) (redo_init s0 f1)
                  = (log_events sizeof_log_header lists, st')).
  { apply redo_loop_steps; [done..|].
    unfold redo_fuel, f1. cbn [f_bytes].
    unfold sizeof_log_header in *. lia. }
  destruct (redo_loop_spec _ _ _ _ Hloop) as (_ & _ & _ & _ & Hreplay).
  { unfold at_pos. by destruct Hsc0 as (-> & -> & _). }
  destruct (replay_log_events lists sizeof_log_header None 0 [] eq_refl)
    as (_ & Hlp & Hstore).
  assert (Hinit : (r_oplist (redo_init s0 f1),
                   r_last_valid_logpoint (redo_init s0 f1),
                   applied (r_s4 (redo_init s0 f1))) = (None, 0, [])) by done.
  rewrite Hinit in Hreplay. rewrite <- Hreplay in Hlp, Hstore.
  cbn [fst snd] in Hlp, Hstore. rewrite app_nil_l in Hstore.
  exists (redo_finish st'), (log_events sizeof_log_header lists).
  split; [|split; [|split]].
  - unfold _log_redo. rewrite Hstart.
    change (logfile (log_data s0)) with (Some f1). cbv beta iota.
    by rewrite Hloop.
  - exact Hstore.
  - unfold redo_finish.
    cbn [log_data with_log_data last_logpoint set_logfile set_next_logpoint
      set_last_logpoint]. lia.
  - unfold redo_finish.
    cbn [log_data with_log_data next_logpoint set_logfile set_next_logpoint
      set_last_logpoint].
    rewrite to_log_number_small; [lia|].
    unfold LOG_SIZE, sizeof_log_header in *. lia.
Qed.

(** Three transactions, the second with a WRITING marker only. *)
Definition three_transactions : list oplist_t :=
  [committed_ops; [OpWriting]; committed_ops].

Lemma log_redo_recovers_what_log_write_wrote_witness :
  Forall (Forall storable) three_transactions
  ∧ room sizeof_log_header three_transactions
  ∧ ∃ f s4' evs,
      logfile (log_data (foldl (λ s4 ops, (_log_write ops s4).2)
                           (_log_open None true new_db).2
                           three_transactions)) = Some f
      ∧ _log_redo id
          (_log_init 0 (_log_open (Some (file_content f)) false new_db).2)
        = (1, s4', evs)
      ∧ applied s4' = committed_ops ++ committed_ops.
Proof.
  assert (H1 : Forall (Forall storable) three_transactions).
  { repeat constructor; by vm_compute. }
  assert (H2 : room sizeof_log_header three_transactions).
  { repeat split; by vm_compute. }
  split; [exact H1|]. split; [exact H2|].
  destruct (log_redo_recovers_what_log_write_wrote id three_transactions
              H1 H2)
    as (f & Hf & _ & s4' & evs & Hredo & Happ & _).
  exists f, s4', evs. split; [exact Hf|]. split; [exact Hredo|exact Happ].
Defined.

(** *** The users of the log file *)

Definition set_log_users (n : Z) (d : s4_log_data_t) : s4_log_data_t :=
  {| logfile := logfile d; log_users := n;
     last_checkpoint := last_checkpoint d; last_synced := last_synced d;
     last_logpoint := last_logpoint d; next_logpoint := next_logpoint d |}.

(** The calls of [_log_lockf] and [_log_unlockf], with the offset of the
    byte. *)
Inductive lock_call :=
  | Lockf (offset : Z)
  | Unlockf (offset : Z).

(** [_log_lock_file]: the database after the call and the calls made for
    the byte lock; [None] when [log_users++] overflows the [int]. *)
Definition _log_lock_file (_reread_file : reread_t) (s4 : s4_t)
    : option (s4_t * list lock_call) :=
  match logfile (log_data s4) with
  | None => Some (s4, [])
  | Some _ =>
      let '(s4, calls) :=
        if log_users (log_data s4) =? 0
        then ((_log_redo _reread_file s4).1.2, [Lockf 0])
        else (s4, []) in
      if log_users (log_data s4) <? INT_MAX
      then Some (with_log_data
                   (set_log_users (log_users (log_data s4) + 1)) s4, calls)
      else None
  end.

(** [_log_unlock_file]; [None] when [log_users--] overflows the [int]. *)
Definition _log_unlock_file (s4 : s4_t) : option (s4_t * list lock_call) :=
  match logfile (log_data s4) with
  | None => Some (s4, [])
  | Some _ =>
      if INT_MIN <? log_users (log_data s4) then
        let s4 := with_log_data
                    (set_log_users (log_users (log_data s4) - 1)) s4 in
        let s4 := if log_users (log_data s4) <? 0
                  then with_log_data (set_log_users 0) s4 else s4 in
        Some (s4, if log_users (log_data s4) =? 0 then [Unlockf 0] else [])
      else None
  end.

(** [n] calls one after the other, with the byte lock calls of all of
    them. *)
Fixpoint calls_of (call : s4_t → option (s4_t * list lock_call)) (n : nat)
    (s4 : s4_t) : option (s4_t * list lock_call) :=
  match n with
  | O => Some (s4, [])
  | S n' =>
      match call s4 with
      | None => None
      | Some (s4', calls) =>
          match calls_of call n' s4' with
          | None => None
          | Some (s4'', calls') => Some (s4'', calls ++ calls')
          end
      end
  end.

Lemma set_log_users_same s4 :
  with_log_data (set_log_users (log_users (log_data s4))) s4 = s4.
Proof. by destruct s4 as [[] ? ?]. Qed.

Lemma lock_file_held _reread_file s4 n :
  logfile (log_data s4) ≠ None →
  1 ≤ log_users (log_data s4) →
  log_users (log_data s4) + Z.of_nat n ≤ INT_MAX →
  calls_of (_log_lock_file _reread_file) n s4
  = Some (with_log_data
            (set_log_users (log_users (log_data s4) + Z.of_nat n)) s4, []).
Proof.
  revert s4. induction n as [|n IH]; intros s4 Hf Hu Hmax.
  - cbn [calls_of]. by rewrite Z.add_0_r, set_log_users_same.
  - cbn [calls_of]. unfold _log_lock_file at 1.
    destruct (logfile (log_data s4)) eqn:Hlf; [|done].
    destruct (Z.eqb_spec (log_users (log_data s4)) 0); [lia|].
    destruct (Z.ltb_spec (log_users (log_data s4)) INT_MAX); [|lia].
    rewrite IH; cbn [log_data with_log_data set_log_users logfile log_users].
    + replace (log_users (log_data s4) + 1 + Z.of_nat n)
        with (log_users (log_data s4) + Z.of_nat (S n)) by lia. reflexivity.
    + by rewrite Hlf.
    + lia.
    + lia.
Qed.

Lemma unlock_file_held s4 n :
  logfile (log_data s4) ≠ None →
  Z.of_nat n < log_users (log_data s4) →
  calls_of _log_unlock_file n s4
  = Some (with_log_data
            (set_log_users (log_users (log_data s4) - Z.of_nat n)) s4, []).
Proof.
  revert s4. induction n as [|n IH]; intros s4 Hf Hu.
  - cbn [calls_of]. by rewrite Z.sub_0_r, set_log_users_same.
  - cbn [calls_of]. unfold _log_unlock_file at 1.
    destruct (logfile (log_data s4)) eqn:Hlf; [|done].
    destruct (Z.ltb_spec INT_MIN (log_users (log_data s4)));
      [|unfold INT_MIN in *; lia].
    cbv zeta. cbn [log_data with_log_data set_log_users logfile log_users].
    destruct (Z.ltb_spec (log_users (log_data s4) - 1) 0); [lia|].
    cbn [log_data with_log_data set_log_users logfile log_users].
    destruct (Z.eqb_spec (log_users (log_data s4) - 1) 0); [lia|].
    rewrite IH; cbn [log_data with_log_data set_log_users logfile log_users].
    + replace (log_users (log_data s4) - 1 - Z.of_nat n)
        with (log_users (log_data s4) - Z.of_nat (S n)) by lia. reflexivity.
    + by rewrite Hlf.
    + lia.
Qed.

(** X17. Holding the log file nests. On a database with an open log file
    that is held already ([log_users] at 1 or more), [n] calls of
    [_log_lock_file], as many as the [int] counter has room for,
    followed by [n] calls of [_log_unlock_file] leave the database as
    it was: the log is not scanned again, no call changes the byte lock
    of the file, and [log_users] is back at its value. One more call of
    [_log_unlock_file] for each user that held the log before gives the
    byte lock back exactly once, with the last of them, and one call
    more than that finds [log_users] at 0, leaves it there and asks for
    the unlock again. *)
Theorem log_lock_file_nests (_reread_file : reread_t) (s4 : s4_t)
    (n : nat) :
  logfile (log_data s4) ≠ None →
  1 ≤ log_users (log_data s4) →
  log_users (log_data s4) + Z.of_nat n ≤ INT_MAX →
  let released := with_log_data (set_log_users 0) s4 in
  (∃ held, calls_of (_log_lock_file _reread_file) n s4 = Some (held, [])
     ∧ calls_of _log_unlock_file n held = Some (s4, []))
  ∧ calls_of _log_unlock_file (Z.to_nat (log_users (log_data s4))) s4
    = Some (released, [Unlockf 0])
  ∧ _log_unlock_file released = Some (released, [Unlockf 0]).
Proof.
  intros Hf Hu Hmax released. unfold INT_MAX in Hmax. split; [|split].
  - eexists. split; [by apply lock_file_held|].
    rewrite unlock_file_held;
      cbn [log_data with_log_data set_log_users logfile log_users];
      [|done|lia].
    replace (log_users (log_data s4) + Z.of_nat n - Z.of_nat n)
      with (log_users (log_data s4)) by lia.
    by destruct s4 as [[] ? ?].
  - destruct (Z.to_nat (log_users (log_data s4))) as [|m] eqn:Hm; [lia|].
    replace (S m) with (m + 1)%nat by lia.
    assert (Happ : ∀ call a b s s1 c1 s2 c2,
      calls_of call a s = Some (s1, c1) →
      calls_of call b s1 = Some (s2, c2) →
      calls_of call (a + b) s = Some (s2, c1 ++ c2)).
    { intros call a. induction a as [|a IH]; intros b s s1 c1 s2 c2 H1 H2.
      - injection H1 as <- <-. done.
      - cbn [calls_of Nat.add] in *. destruct (call s) as [[s' c']|]; [|done].
        destruct (calls_of call a s') as [[s'' c'']|] eqn:Ha; [|done].
        injection H1 as <- <-. rewrite (IH _ _ _ _ _ _ Ha H2).
        by rewrite app_assoc. }
    eapply (Happ _ m 1%nat _ _ [] _ [Unlockf 0]).
    + apply unlock_file_held; [done|lia].
    + cbn [calls_of]. unfold _log_unlock_file.
      cbn [log_data with_log_data set_log_users logfile log_users].
      destruct (logfile (log_data s4)); [|done].
      destruct (Z.ltb_spec INT_MIN (log_users (log_data s4) - Z.of_nat m));
        [|unfold INT_MIN in *; lia].
      replace (log_users (log_data s4) - Z.of_nat m - 1) with 0 by lia.
      done.
  - unfold _log_unlock_file, released.
    cbn [log_data with_log_data set_log_users logfile log_users].
    destruct (logfile (log_data s4)); [|done]. done.
Qed.

Lemma log_lock_file_nests_witness :
  ∃ held, calls_of (_log_lock_file id) 3 (_log_write committed_ops created_log).2
          = Some (held, [])
    ∧ calls_of _log_unlock_file 3 held
      = Some ((_log_write committed_ops created_log).2, []).
Proof.
  refine (proj1 (log_lock_file_nests id
                   (_log_write committed_ops created_log).2 3 _ _ _));
    by vm_compute.
Defined.

End Log.
